(** * sqlite_ddbvfs: a SQLite VFS over a DynamoDB-shaped key-value table

    A shallow embedding of [sqlite_ddbvfs.py] (classes [DDBVFS] and
    [DDBVFSFile]) and the properties of its block-mapped file substrate,
    its lock state machine and its serializer.

    Python integers are [Z] ([//] and [%] are [Z.div] and [Z.modulo], both
    flooring), [bytes] values are [list byte], strings are [string].  The
    table is the only shared state; it is threaded explicitly through a small
    state-and-exception monad together with the handle's attained lock level
    and the list of requests sent to the store. *)

From Stdlib Require Import ZArith Lia Ascii String.
From Stdlib Require Import Init.Byte.
From stdpp Require Import gmap strings list sorting.

Local Open Scope Z_scope.

(** ** Byte strings *)

Abbreviation bytes := (list byte).

(** [len b] is Python's [len(b)]. *)
Definition len (b : bytes) : Z := Z.of_nat (length b).

(** [zeros n] is Python's [bytes(n)] for [0 <= n]: [n] zero bytes. *)
Definition zeros (n : Z) : bytes := replicate (Z.to_nat n) x00.

(** [slice a b s] is [s[a:b]] and [slice_from a s] is [s[a:]], for
    non-negative [a] and [b] (the only indices the program computes). *)
Definition slice (a b : Z) (s : bytes) : bytes :=
  drop (Z.to_nat a) (take (Z.to_nat b) s).
Definition slice_from (a : Z) (s : bytes) : bytes := drop (Z.to_nat a) s.
Definition slice_to (b : Z) (s : bytes) : bytes := take (Z.to_nat b) s.

(** ** Sort keys: [f'{block:010d}'] and [int(obj['range'])] *)

Module Key.

Definition digit_char (d : Z) : ascii := ascii_of_nat (48 + Z.to_nat d).

(** Decimal digits of a non-negative integer, most significant first,
    accumulated in front of [acc]. *)
Fixpoint dec_aux (fuel : nat) (n : Z) (acc : string) : string :=
  match fuel with
  | O => acc
  | S f =>
      let acc' := String (digit_char (n mod 10)) acc in
      if n / 10 =? 0 then acc' else dec_aux f (n / 10) acc'
  end.

(** [str(n)] for [0 <= n]; a number has at most [log2 n + 1] digits. *)
Definition str (n : Z) : string := dec_aux (S (Z.to_nat (Z.log2 n))) n "".

Fixpoint zfill (k : nat) (s : string) : string :=
  match k with
  | O => s
  | S k' => String "0" (zfill k' s)
  end.

(** [f'{n:010d}']: the decimal digits, zero-padded on the left to a
    minimum width of ten characters (the sign, if any, counts). *)
Definition fmt10 (n : Z) : string :=
  if n <? 0 then
    let s := str (- n) in String "-" (zfill (9 - String.length s) s)
  else
    let s := str n in zfill (10 - String.length s) s.

Definition digit_val (c : ascii) : option Z :=
  let v := Z.of_nat (nat_of_ascii c) - 48 in
  if (0 <=? v) && (v <=? 9) then Some v else None.

Fixpoint parse_digits (s : string) (acc : Z) : option Z :=
  match s with
  | EmptyString => Some acc
  | String c s' =>
      match digit_val c with
      | Some v => parse_digits s' (10 * acc + v)
      | None => None
      end
  end.

(** [int(s)] on a plain decimal literal with an optional minus sign;
    [None] stands for [ValueError]. *)
Definition int (s : string) : option Z :=
  match s with
  | EmptyString => None
  | String "-" EmptyString => None
  | String "-" s' => Z.opp <$> parse_digits s' 0
  | _ => parse_digits s 0
  end.

(** The store orders sort keys of type string by their bytes. *)
Definition le (a b : string) : Prop := String.leb a b = true.
Definition lt (a b : string) : Prop := String.ltb a b = true.

End Key.

(** ** The table

    One table holds four kinds of items, told apart by the partition key
    (["ACCESS"], ["BL_<path>"], ["FSIZE"], ["LK"]); these prefixes never
    collide, so the table is kept as one finite map per kind.  A block item
    has a [data] and a [size] attribute ([item_data], [item_size]); the attributes of a lock record are
    all optional, so it is kept as an attribute map. *)

Inductive value :=
| VNum (n : Z)
| VStr (s : string)
| VBin (b : bytes).

Record block_item := BlockItem { item_data : bytes; item_size : Z }.

Record table := Table {
  t_access : gset string;
  t_blocks : gmap string (gmap string block_item);
  t_fsize : gmap string Z;
  t_lock : gmap string (gmap string value) }.

Definition empty_table : table :=
  {| t_access := ∅; t_blocks := ∅; t_fsize := ∅; t_lock := ∅ |}.

(** The partition of block items of one file, by sort key. *)
Definition blocks_of (t : table) (pathname : string) : gmap string block_item :=
  default ∅ (t_blocks t !! pathname).

Definition set_blocks (pathname : string) (m : gmap string block_item)
    (t : table) : table :=
  {| t_access := t_access t; t_blocks := <[pathname := m]> (t_blocks t);
     t_fsize := t_fsize t; t_lock := t_lock t |}.

Definition set_fsize (pathname : string) (n : Z) (t : table) : table :=
  {| t_access := t_access t; t_blocks := t_blocks t;
     t_fsize := <[pathname := n]> (t_fsize t); t_lock := t_lock t |}.

Definition set_lock (pathname : string) (it : gmap string value)
    (t : table) : table :=
  {| t_access := t_access t; t_blocks := t_blocks t;
     t_fsize := t_fsize t; t_lock := <[pathname := it]> (t_lock t) |}.

Definition set_access (pathname : string) (t : table) : table :=
  {| t_access := {[pathname]} ∪ t_access t; t_blocks := t_blocks t;
     t_fsize := t_fsize t; t_lock := t_lock t |}.

(** A Query returns the items of a partition in ascending sort-key order. *)
Definition item_le (x y : string * block_item) : Prop := Key.le x.1 y.1.

Global Instance item_le_dec x y : Decision (item_le x y).
Proof. unfold item_le, Key.le. apply _. Defined.

Definition sorted_items (m : gmap string block_item)
    : list (string * block_item) :=
  merge_sort item_le (map_to_list m).

Definition after (start : option string) (kv : string * block_item) : bool :=
  match start with
  | None => true
  | Some k => String.ltb k kv.1
  end.

(** ** Requests, as the program builds them *)

Inductive condition :=
| attribute_not_exists (a : string)
| attr_eq (a : string) (v : value)
| cond_and (c1 c2 : condition)
| cond_or (c1 c2 : condition).

Inductive operand :=
| op_value (v : value)                                   (* :v *)
| op_if_not_exists_plus (a : string) (init incr : Z)     (* if_not_exists(a, :init) + :incr *)
| op_minus (a : string) (d : Z).                         (* a - :d *)

Inductive action :=
| SET (a : string) (rhs : operand)
| REMOVE (a : string)
| ADD (a : string) (d : Z).

Inductive request :=
| GetItem (key range : string)
| PutItem (key range : string) (attrs : list (string * value))
    (cond : option condition)
| DeleteItem (key range : string)
| UpdateItem (key range : string) (upd : list action)
    (cond : option condition)
| Query (key : string) (start : option string).

(** What a handle does that another party could observe, in order: the
    requests it sends, and the assignments to its attained lock level. *)
Inductive event :=
| Sent (r : request)
| Attained (level : Z).

(** ** Semantics of conditions and update expressions on an attribute map *)

Definition value_eqb (v w : value) : bool :=
  match v, w with
  | VNum a, VNum b => a =? b
  | VStr a, VStr b => String.eqb a b
  | VBin a, VBin b =>
      (length a =? length b)%nat && forallb (λ p, Byte.eqb p.1 p.2) (zip a b)
  | _, _ => false
  end.

Fixpoint eval_cond (it : gmap string value) (c : condition) : bool :=
  match c with
  | attribute_not_exists a => bool_decide (it !! a = None)
  | attr_eq a v =>
      match it !! a with
      | Some w => value_eqb w v
      | None => false
      end
  | cond_and c1 c2 => eval_cond it c1 && eval_cond it c2
  | cond_or c1 c2 => eval_cond it c1 || eval_cond it c2
  end.

Definition holds (it : gmap string value) (c : option condition) : bool :=
  match c with
  | None => true
  | Some c => eval_cond it c
  end.

(** Operands are read from the item as it was before the update; [None] is
    the store's ValidationException (an operand that does not exist or is not
    a number). *)
Definition eval_operand (it : gmap string value) (o : operand) : option value :=
  match o with
  | op_value v => Some v
  | op_if_not_exists_plus a init incr =>
      match it !! a with
      | None => Some (VNum (init + incr))
      | Some (VNum n) => Some (VNum (n + incr))
      | Some _ => None
      end
  | op_minus a d =>
      match it !! a with
      | Some (VNum n) => Some (VNum (n - d))
      | _ => None
      end
  end.

Definition apply_action (orig : gmap string value) (a : action)
    (it : gmap string value) : option (gmap string value) :=
  match a with
  | SET x rhs => v ← eval_operand orig rhs; Some (<[x := v]> it)
  | REMOVE x => Some (delete x it)
  | ADD x d =>
      match orig !! x with
      | None => Some (<[x := VNum d]> it)
      | Some (VNum n) => Some (<[x := VNum (n + d)]> it)
      | Some _ => None
      end
  end.

Fixpoint apply_actions (orig : gmap string value) (upd : list action)
    (it : gmap string value) : option (gmap string value) :=
  match upd with
  | [] => Some it
  | a :: upd' => it' ← apply_action orig a it; apply_actions orig upd' it'
  end.

Definition apply_update (it : gmap string value) (upd : list action)
    : option (gmap string value) :=
  apply_actions it upd it.

(** ** The state-and-exception monad *)

Inductive exn :=
| BusyError
| ClientError (code : string)
| KeyError
| ValueError
| AssertionError
| Diverges.   (* not an exception: a loop of the model ran out of fuel *)

Inductive result (A : Type) :=
| Ok (a : A)
| Raise (e : exn).
Arguments Ok {A} a.
Arguments Raise {A} e.

Record state := State {
  st_table : table;
  st_attained : Z;           (* self._attained_log_level *)
  st_trace : list event }.   (* most recent last *)

Definition M (A : Type) : Type := state → result A * state.

Global Instance M_ret : MRet M := λ A a s, (Ok a, s).
Global Instance M_bind : MBind M := λ A B f m s,
  match m s with
  | (Ok a, s') => f a s'
  | (Raise e, s') => (Raise e, s')
  end.

Definition raise {A} (e : exn) : M A := λ s, (Raise e, s).

(** [try: m except ClientError as e: if code == 'ConditionalCheckFailedException':
    raise BusyError() else: raise e] *)
Definition busy_if_check_failed {A} (m : M A) : M A := λ s,
  match m s with
  | (Raise (ClientError "ConditionalCheckFailedException"), s') =>
      (Raise BusyError, s')
  | r => r
  end.

Definition assert (b : bool) : M unit :=
  if b then mret tt else raise AssertionError.

Definition when (b : bool) (m : M unit) : M unit :=
  if b then m else mret tt.

Definition get_table : M table := λ s, (Ok (st_table s), s).
Definition get_attained : M Z := λ s, (Ok (st_attained s), s).

Definition send (r : request) : M unit := λ s,
  (Ok tt, {| st_table := st_table s; st_attained := st_attained s;
             st_trace := st_trace s ++ [Sent r] |}).

Definition set_table (t : table) : M unit := λ s,
  (Ok tt, {| st_table := t; st_attained := st_attained s;
             st_trace := st_trace s |}).

Definition set_attained (level : Z) : M unit := λ s,
  (Ok tt, {| st_table := st_table s; st_attained := level;
             st_trace := st_trace s ++ [Attained level] |}).

Fixpoint foldM {A B} (f : A → B → M A) (l : list B) (a : A) : M A :=
  match l with
  | [] => mret a
  | x :: l' => a' ← f a x; foldM f l' a'
  end.

Fixpoint forM {A B} (f : A → M B) (l : list A) : M (list B) :=
  match l with
  | [] => mret []
  | x :: l' => y ← f x; ys ← forM f l'; mret (y :: ys)
  end.

Definition lift_fuel {A} (o : option A) : M A :=
  match o with
  | Some a => mret a
  | None => raise Diverges
  end.

(** ** The table client

    What the store does on each request of the contract (GetItem, PutItem
    and DeleteItem with [ReturnValues='ALL_OLD'], UpdateItem, paginated
    Query), all strongly consistent.  Every operation records its request. *)

Record response := Response {
  Items : list (string * block_item);
  LastEvaluatedKey : option string }.

Section Store.

(** The store cuts a Query result into pages; [page_limit] items fit one
    page here. *)
Variable page_limit : positive.

Definition BL (pathname : string) : string := "BL_" +:+ pathname.

Definition get_block (pathname range : string) : M (option block_item) :=
  send (GetItem (BL pathname) range);;
  t ← get_table;
  mret (blocks_of t pathname !! range).

Definition put_block (pathname range : string) (bytes : bytes) (sz : Z)
    : M (option block_item) :=
  send (PutItem (BL pathname) range
          [("data"%string, VBin bytes); ("size"%string, VNum sz)] None);;
  t ← get_table;
  set_table (set_blocks pathname
               (<[range := BlockItem bytes sz]> (blocks_of t pathname)) t);;
  mret (blocks_of t pathname !! range).

Definition delete_block (pathname range : string) : M (option block_item) :=
  send (DeleteItem (BL pathname) range);;
  t ← get_table;
  set_table (set_blocks pathname (delete range (blocks_of t pathname)) t);;
  mret (blocks_of t pathname !! range).

Definition query_blocks (pathname : string) (start : option string)
    : M response :=
  send (Query (BL pathname) start);;
  t ← get_table;
  let rest := filter (λ kv, after start kv = true)
                (sorted_items (blocks_of t pathname)) in
  let page := take (Pos.to_nat page_limit) rest in
  mret {| Items := page;
          LastEvaluatedKey :=
            match drop (Pos.to_nat page_limit) rest with
            | [] => None
            | _ :: _ => fst <$> last page
            end |}.

(** The store parses an update expression before it looks at the item, and
    refuses one that spells out an attribute name which is a reserved word
    of its expression language.  Of the names this program updates, these
    are reserved; the lock requests write them as the placeholders [#cnt],
    [#lvl] and [#own] of their [ExpressionAttributeNames]. *)
Definition reserved_word (a : string) : bool :=
  bool_decide (a ∈ ["count"; "level"; "owner"; "size"]%string).

(** [UpdateExpression='ADD size :dsize'] on the size counter, sent with
    [ExpressionAttributeValues] only: the name [size] stands in the
    expression as it is, so the request is refused with a
    ValidationException and the counter stays as it was. *)
Definition add_size (pathname : string) (dsize : Z) : M unit :=
  send (UpdateItem "FSIZE" pathname [ADD "size" dsize] None);;
  if reserved_word "size" then raise (ClientError "ValidationException")
  else
    t ← get_table;
    set_table
      (set_fsize pathname (default 0 (t_fsize t !! pathname) + dsize) t).

Definition put_size (pathname : string) (total : Z) : M unit :=
  send (PutItem "FSIZE" pathname [("size"%string, VNum total)] None);;
  t ← get_table;
  set_table (set_fsize pathname total t).

Definition get_size (pathname : string) : M (option Z) :=
  send (GetItem "FSIZE" pathname);;
  t ← get_table;
  mret (t_fsize t !! pathname).

Definition put_access (pathname : string) : M unit :=
  send (PutItem "ACCESS" pathname [] None);;
  t ← get_table;
  set_table (set_access pathname t).

(** UpdateItem on the lock record: the condition is checked against the
    stored item (an absent item has no attributes); if it holds the update
    expression is applied, creating the item if need be. *)
Definition update_lock (pathname : string) (upd : list action)
    (cond : option condition) : M unit :=
  send (UpdateItem "LK" pathname upd cond);;
  t ← get_table;
  let it := default ∅ (t_lock t !! pathname) in
  if holds it cond then
    match apply_update it upd with
    | Some it' => set_table (set_lock pathname it' t)
    | None => raise (ClientError "ValidationException")
    end
  else raise (ClientError "ConditionalCheckFailedException").

Definition put_lock (pathname : string) (attrs : list (string * value))
    (cond : option condition) : M unit :=
  send (PutItem "LK" pathname attrs cond);;
  t ← get_table;
  let it := default ∅ (t_lock t !! pathname) in
  if holds it cond then
    set_table (set_lock pathname (list_to_map attrs) t)
  else raise (ClientError "ConditionalCheckFailedException").

(** The loop every scan of a partition is written as:
    [lek = None; while True: response = query(..., ExclusiveStartKey=lek);
     for obj in response['Items']: body; if 'LastEvaluatedKey' not in
     response: break; lek = response['LastEvaluatedKey']]. *)
Fixpoint paged {A} (fuel : nat) (pathname : string)
    (body : A → string * block_item → M A) (lek : option string) (a : A)
    : M A :=
  match fuel with
  | O => raise Diverges
  | S fuel' =>
      response ← query_blocks pathname lek;
      a' ← foldM body (Items response) a;
      match LastEvaluatedKey response with
      | None => mret a'
      | Some k => paged fuel' pathname body (Some k) a'
      end
  end.

(** Every page but the last holds at least one item, so a scan asks for at
    most one page per stored item, plus one. *)
Definition scan {A} (pathname : string)
    (body : A → string * block_item → M A) (a : A) : M A :=
  t ← get_table;
  paged (S (size (blocks_of t pathname))) pathname body None a.

End Store.

(** ** class DDBVFSFile *)

Definition SQLITE_LOCK_NONE : Z := 0.
Definition SQLITE_LOCK_SHARED : Z := 1.
Definition SQLITE_LOCK_RESERVED : Z := 2.
Definition SQLITE_LOCK_PENDING : Z := 3.
Definition SQLITE_LOCK_EXCLUSIVE : Z := 4.

Definition lock_page_offset : Z := 1073741824.

(** [range(a, b, -1)]: [a, a-1, ..., b+1]. *)
Definition range_down (a b : Z) : list Z :=
  (λ i : nat, a - Z.of_nat i) <$> seq 0 (Z.to_nat (a - b)).

(** [bytes(n)]; a negative count is a [ValueError]. *)
Definition py_bytes (n : Z) : M bytes :=
  if n <? 0 then raise ValueError else mret (zeros n).

(** [int(s)]. *)
Definition py_int (s : string) : M Z :=
  match Key.int s with
  | Some n => mret n
  | None => raise ValueError
  end.

Section DDBVFSFile.

Variable page_limit : positive.
Variable key_prefix : string.      (* self._key_prefix *)
Variable block_size : Z.           (* self._block_size *)
Variable client_id : string.       (* f'{self._client_id}' *)

(** [__init__], after the name has been resolved. *)
Definition init : M unit := put_access key_prefix.

(** The generator [_blocks]; [None] when the loop is still running after
    [fuel] rounds. *)
Fixpoint blocks_loop (fuel : nat) (offset amount : Z)
    : option (list (Z * Z * Z)) :=
  if amount >? 0 then
    match fuel with
    | O => None
    | S fuel' =>
        let block := offset / block_size in
        let start := offset mod block_size in
        let consume := Z.min (block_size - start) amount in
        rest ← blocks_loop fuel' (offset + consume) (amount - consume);
        Some ((block, start, consume) :: rest)
    end
  else Some [].

Definition _blocks (offset amount : Z) : option (list (Z * Z * Z)) :=
  blocks_loop (Z.to_nat amount) offset amount.

Definition _block_get_bytes (block : Z) : M bytes :=
  result ← get_block key_prefix (Key.fmt10 block);
  mret (match result with
        | Some item => item_data item
        | None => []
        end).

Definition _block_put_bytes (block : Z) (bytes : bytes) : M Z :=
  let size := len bytes in
  result ← put_block key_prefix (Key.fmt10 block) bytes size;
  mret (match result with
        | Some old => size - item_size old
        | None => size
        end).

Definition _block_delete (block : Z) : M Z :=
  result ← delete_block key_prefix (Key.fmt10 block);
  match result with
  | Some old => mret (- item_size old)
  | None => raise KeyError
  end.

Definition _update_total_size (dsize : Z) : M unit :=
  add_size key_prefix dsize.

Definition _get_total_size : M Z :=
  result ← get_size key_prefix;
  mret (default 0 result).

Definition xRead (amount offset : Z) : M bytes :=
  triples ← lift_fuel (_blocks offset amount);
  parts ← forM (λ '(block, start, consume),
                  block_bytes ← _block_get_bytes block;
                  mret (slice start (start + consume) block_bytes))
               triples;
  mret (concat parts).

Definition xFileSize : M Z := _get_total_size.

(** *** Locks *)

Definition owner_is_me : condition := attr_eq "owner" (VStr client_id).

Definition xLock (level : Z) : M unit :=
  assert (negb (level =? SQLITE_LOCK_NONE));;
  assert (negb (level =? SQLITE_LOCK_PENDING));;
  attained ← get_attained;
  if level =? attained then mret tt
  else if level =? SQLITE_LOCK_SHARED then
    busy_if_check_failed
      (update_lock key_prefix
         [SET "count" (op_if_not_exists_plus "count" 0 1)]
         (Some (cond_or (attribute_not_exists "level")
                        (attr_eq "level" (VNum SQLITE_LOCK_RESERVED)))));;
    set_attained SQLITE_LOCK_SHARED
  else
    (* start with a pending lock if we don't already have one *)
    when (negb (attained =? SQLITE_LOCK_PENDING))
      (busy_if_check_failed
         (update_lock key_prefix
            [SET "level" (op_value (VNum SQLITE_LOCK_PENDING));
             SET "owner" (op_value (VStr client_id))]
            (Some (cond_or (attribute_not_exists "owner") owner_is_me)));;
       set_attained SQLITE_LOCK_PENDING);;
    (* we're pending, try to upgrade to a hard lock *)
    let condition :=
      if level =? SQLITE_LOCK_RESERVED then owner_is_me
      else cond_and owner_is_me (attr_eq "count" (VNum 1)) in
    busy_if_check_failed
      (update_lock key_prefix
         [SET "level" (op_value (VNum level));
          SET "owner" (op_value (VStr client_id))]
         (Some condition));;
    set_attained level.

Definition xUnlock (level : Z) : M unit :=
  attained ← get_attained;
  if level =? attained then mret tt
  else
    when (level >=? SQLITE_LOCK_RESERVED)
      (put_lock key_prefix
         [("level"%string, VNum level); ("owner"%string, VStr client_id);
          ("count"%string, VNum 1)]
         (Some owner_is_me);;
       set_attained level);;
    when (level =? SQLITE_LOCK_SHARED)
      (update_lock key_prefix [REMOVE "level"; REMOVE "owner"]
         (Some owner_is_me);;
       set_attained level);;
    when (level =? SQLITE_LOCK_NONE)
      (attained ← get_attained;
       if attained >? SQLITE_LOCK_SHARED then
         update_lock key_prefix
           [SET "count" (op_minus "count" 1); REMOVE "level"; REMOVE "owner"]
           (Some owner_is_me)
       else
         let increment := if attained >? 0 then 1 else 0 in
         update_lock key_prefix [SET "count" (op_minus "count" increment)]
           None;;
         set_attained level).

(** *** Truncate and write *)

(** The body of the [for obj in response['Items']] loop of [xTruncate]. *)
Definition truncate_item (newsize : Z) (acc : Z * Z)
    (obj : string * block_item) : M (Z * Z) :=
  let '(total, dsize) := acc in
  let '(range, item) := obj in
  let total := total + item_size item in
  let to_keep := Z.max (item_size item - total + newsize) 0 in
  if to_keep =? 0 then
    block ← py_int range;
    d ← _block_delete block;
    mret (total, dsize + d)
  else if to_keep <? item_size item then
    block ← py_int range;
    bytes ← _block_get_bytes block;
    d ← _block_put_bytes block (slice_to to_keep bytes);
    mret (total, dsize + d)
  else mret (total, dsize).

Definition xTruncate (newsize : Z) : M bool :=
  '(total, dsize) ← scan page_limit key_prefix (truncate_item newsize) (0, 0);
  _update_total_size dsize;;
  mret true.

(** The loop over [range(data_first_block - 1, lock_page_block - 1, -1)]
    of [xWrite], which ends at the first block that is full. *)
Fixpoint pad_blocks (blocks : list Z) (dsize : Z) : M Z :=
  match blocks with
  | [] => mret dsize
  | block :: blocks' =>
      original_block_bytes ← _block_get_bytes block;
      if len original_block_bytes =? block_size then mret dsize
      else
        padding ← py_bytes (block_size - len original_block_bytes);
        d ← _block_put_bytes block (original_block_bytes ++ padding);
        pad_blocks blocks' (dsize + d)
  end.

(** The body of the [for block, start, write in self._blocks(...)] loop of
    [xWrite]; the accumulator is [(data_offset, dsize)]. *)
Definition write_block (data : bytes) (acc : Z * Z) (triple : Z * Z * Z)
    : M (Z * Z) :=
  let '(data_offset, dsize) := acc in
  let '(block, start, write) := triple in
  let data_to_write := slice data_offset (data_offset + write) data in
  data_to_write ←
    (if negb (start =? 0) || negb (len data_to_write =? block_size) then
       original_block_bytes ← _block_get_bytes block;
       let original_block_bytes :=
         original_block_bytes
         ++ zeros (Z.max (start - len original_block_bytes) 0) in
       mret (slice 0 start original_block_bytes
             ++ data_to_write
             ++ slice_from (start + write) original_block_bytes)
     else mret data_to_write);
  d ← _block_put_bytes block data_to_write;
  mret (data_offset + write, dsize + d).

Definition xWrite (data : bytes) (offset : Z) : M unit :=
  let dsize := 0 in
  let page_size := len data in
  dsize ←
    (if offset =? lock_page_offset + page_size then
       let data_first_block := offset / block_size in
       let lock_page_block := lock_page_offset / block_size in
       pad_blocks (range_down (data_first_block - 1) (lock_page_block - 1))
         dsize
     else mret dsize);
  triples ← lift_fuel (_blocks offset (len data));
  '(_, dsize) ← foldM (write_block data) triples (0, dsize);
  _update_total_size dsize.

End DDBVFSFile.

(** ** class DDBVFS *)

Section DDBVFS.

Variable page_limit : positive.
Variable block_size : Z.           (* self._block_size *)

Definition serialize_iter (pathname : string) : M (list bytes) :=
  scan page_limit pathname
    (λ out obj, mret (out ++ [item_data obj.2])) [].

(** The rechunker [up_to_iter(num)] of [deserialize_iter]: its state is the
    triple [(chunk, offset, it)] of the enclosing scope; it returns the
    pieces it yields. *)
Fixpoint up_to_iter (fuel : nat) (num : Z) (st : bytes * Z * list bytes)
    : option (list bytes * (bytes * Z * list bytes)) :=
  if num =? 0 then Some ([], st)
  else
    match fuel with
    | O => None
    | S fuel' =>
        let '(chunk, offset, it) := st in
        let fetched :=
          if offset =? len chunk then
            match it with
            | [] => None                      (* StopIteration: break *)
            | c :: it' => Some (c, 0, it')
            end
          else Some (chunk, offset, it) in
        match fetched with
        | None => Some ([], st)
        | Some (chunk, offset, it) =>
            let to_yield := Z.min num (len chunk - offset) in
            let offset := offset + to_yield in
            let num := num - to_yield in
            '(pieces, st') ← up_to_iter fuel' num (chunk, offset, it);
            Some (slice (offset - to_yield) offset chunk :: pieces, st')
        end
    end.

(** Bytes the rechunker has not handed out yet. *)
Definition pending (st : bytes * Z * list bytes) : Z :=
  let '(chunk, offset, it) := st in
  len chunk - offset + len (concat it).

(** [for block, block_bytes in enumerate(block_bytes_iter()): put_item];
    returns [total]. *)
Fixpoint store_blocks (fuel : nat) (key_prefix : string) (block total : Z)
    (st : bytes * Z * list bytes) : M Z :=
  match fuel with
  | O => raise Diverges
  | S fuel' =>
      let '(chunk, offset, it) := st in
      '(pieces, st') ←
        lift_fuel (up_to_iter (Z.to_nat block_size + length it + 1)
                     block_size st);
      let block_bytes := concat pieces in
      match block_bytes with
      | [] => mret total
      | _ :: _ =>
          let size := len block_bytes in
          put_block key_prefix (Key.fmt10 block) block_bytes size;;
          store_blocks fuel' key_prefix (block + 1) (total + size) st'
      end
  end.

Definition deserialize_iter (key_prefix : string) (bytes_iter : list bytes)
    : M unit :=
  let st := ([], 0, bytes_iter) in
  total ← store_blocks (Z.to_nat (pending st) + 1) key_prefix 0 0 st;
  put_size key_prefix total.

End DDBVFS.

(** ** Vocabulary of the statements *)

(** What every triple [(block, start, consume)] of a byte range satisfies. *)
Definition triple_ok (block_size : Z) (t : Z * Z * Z) : Prop :=
  0 <= t.1.1 ∧ 0 <= t.1.2 ∧ 1 <= t.2 ∧ t.1.2 + t.2 <= block_size.

(** The sum of the [consume] components. *)
Definition consumed (l : list (Z * Z * Z)) : Z :=
  foldr (λ t acc, t.2 + acc) 0 l.

(** [effect_to m s a t' lvl evs]: from state [s] the computation [m]
    completes without raising, returns [a], leaves the table as [t'] and the
    attained lock level at [lvl], and sends or records exactly [evs].
    [effect] is the same for a computation that keeps the attained level. *)
Definition effect_to {A} (m : M A) (s : state) (a : A) (t' : table)
    (lvl : Z) (evs : list event) : Prop :=
  ∃ s', m s = (Ok a, s') ∧ st_table s' = t' ∧ st_attained s' = lvl
        ∧ st_trace s' = st_trace s ++ evs.

Definition effect {A} (m : M A) (s : state) (a : A) (t' : table)
    (evs : list event) : Prop :=
  effect_to m s a t' (st_attained s) evs.

(** [effect_on m t a t' evs]: [m] has this effect from every state whose
    table is [t]. *)
Definition effect_on {A} (m : M A) (t : table) (a : A) (t' : table)
    (evs : list event) : Prop :=
  ∀ s, st_table s = t → effect m s a t' evs.

(** [raises m s e t' lvl evs]: [m] raises [e] from [s], having left the table
    as [t'] and the attained level at [lvl] and having recorded [evs]. *)
Definition raises {A} (m : M A) (s : state) (e : exn) (t' : table)
    (lvl : Z) (evs : list event) : Prop :=
  ∃ s', m s = (Raise e, s') ∧ st_table s' = t' ∧ st_attained s' = lvl
        ∧ st_trace s' = st_trace s ++ evs.

(** [raises_on m t e t' evs]: from every state whose table is [t], [m]
    raises [e], having left the table as [t'] and the attained level as it
    was and having recorded [evs]. *)
Definition raises_on {A} (m : M A) (t : table) (e : exn) (t' : table)
    (evs : list event) : Prop :=
  ∀ s, st_table s = t → raises m s e t' (st_attained s) evs.

(** Views of the table. *)
Definition block_bytes (t : table) (pathname : string) (block : Z) : bytes :=
  match blocks_of t pathname !! Key.fmt10 block with
  | Some item => item_data item
  | None => []
  end.

Definition stored_size (t : table) (pathname : string) (range : string) : Z :=
  match blocks_of t pathname !! range with
  | Some item => item_size item
  | None => 0
  end.

Definition get_total (t : table) (pathname : string) : Z :=
  default 0 (t_fsize t !! pathname).

Definition put_bytes (pathname : string) (block : Z) (b : bytes) (t : table)
    : table :=
  set_blocks pathname
    (<[Key.fmt10 block := BlockItem b (len b)]> (blocks_of t pathname)) t.

(** The file as the serializer sees it: the blocks in sort-key order. *)
Definition file_chunks (t : table) (pathname : string) : list bytes :=
  (λ kv, item_data kv.2) <$> sorted_items (blocks_of t pathname).

Definition file_content (t : table) (pathname : string) : bytes :=
  concat (file_chunks t pathname).

(** Sum of [len(data)] over the block items of a file. *)
Definition sum_data (m : gmap string block_item) : Z :=
  map_fold (λ _ item acc, len (item_data item) + acc) 0 m.

Definition data_total (t : table) (pathname : string) : Z :=
  sum_data (blocks_of t pathname).

(** Data-model conditions on the block items of a file: no block holds more
    than [block_size] bytes; the [size] attribute is the length of [data]. *)
Definition bounded (block_size : Z) (t : table) (pathname : string) : Prop :=
  ∀ r item, blocks_of t pathname !! r = Some item →
            len (item_data item) <= block_size.

Definition sized (t : table) (pathname : string) : Prop :=
  ∀ r item, blocks_of t pathname !! r = Some item →
            item_size item = len (item_data item).

(** An event that is a GetItem, PutItem or DeleteItem on the block of the
    file whose number satisfies [ok]. *)
Definition on_blocks (pathname : string) (ok : Z → Prop) (e : event) : Prop :=
  ∃ k, ok k
       ∧ (e = Sent (GetItem (BL pathname) (Key.fmt10 k))
          ∨ (∃ attrs, e = Sent (PutItem (BL pathname) (Key.fmt10 k) attrs None))
          ∨ e = Sent (DeleteItem (BL pathname) (Key.fmt10 k))).

(** The bytes [xWrite] stores in a block that held [orig] when it writes
    [chunk] at [start]. *)
Definition spliced (block_size : Z) (orig chunk : bytes) (start write : Z)
    : bytes :=
  if negb (start =? 0) || negb (len chunk =? block_size) then
    let orig' := orig ++ zeros (Z.max (start - len orig) 0) in
    slice 0 start orig' ++ chunk ++ slice_from (start + write) orig'
  else chunk.

(** The table after the write loop of [xWrite], and after its padding loop. *)
Fixpoint written (pathname : string) (block_size : Z) (data : bytes)
    (triples : list (Z * Z * Z)) (data_offset : Z) (t : table) : table :=
  match triples with
  | [] => t
  | tr :: rest =>
      let chunk := slice data_offset (data_offset + tr.2) data in
      written pathname block_size data rest (data_offset + tr.2)
        (put_bytes pathname tr.1.1
           (spliced block_size (block_bytes t pathname tr.1.1) chunk
              tr.1.2 tr.2) t)
  end.

Fixpoint padded (pathname : string) (block_size : Z) (blocks : list Z)
    (t : table) : table :=
  match blocks with
  | [] => t
  | block :: rest =>
      let orig := block_bytes t pathname block in
      if len orig =? block_size then t
      else padded pathname block_size rest
             (put_bytes pathname block
                (orig ++ zeros (block_size - len orig)) t)
  end.

(** What xRead is specified to return for a list of triples: the slice
    [start, start+consume) of each block, concatenated; an absent block
    reads as empty. *)
Definition read_range (t : table) (pathname : string)
    (triples : list (Z * Z * Z)) : bytes :=
  concat ((λ tr : Z * Z * Z,
             slice tr.1.2 (tr.1.2 + tr.2) (block_bytes t pathname tr.1.1))
          <$> triples).

(** The table once the padding loop of [xWrite] (if it runs) is over. *)
Definition after_padding (pathname : string) (block_size : Z) (data : bytes)
    (offset : Z) (t : table) : table :=
  if offset =? lock_page_offset + len data then
    padded pathname block_size
      (range_down (offset / block_size - 1)
         (lock_page_offset / block_size - 1)) t
  else t.

(** The padding loop of a write just after the lock page
    ([offset = lock_page_offset + len(data)]) meets no block longer than
    [block_size]: going down from the block before the first data block to
    the block of the lock page, the loop reaches block [k] when no block
    above it in that range is full, and then [k] holds at most [block_size]
    bytes. *)
Definition padding_fits (block_size : Z) (t : table) (pathname : string)
    (data : bytes) (offset : Z) : Prop :=
  offset = lock_page_offset + len data →
  ∀ k, lock_page_offset / block_size <= k < offset / block_size →
       (∀ j, k < j < offset / block_size →
             len (block_bytes t pathname j) ≠ block_size) →
       len (block_bytes t pathname k) <= block_size.

(** The lock record of a file as stored (an absent item has no attributes),
    and the requests [xLock] and [xUnlock] send. *)
Definition lock_item (t : table) (pathname : string) : gmap string value :=
  default ∅ (t_lock t !! pathname).

Definition shared_request (pathname : string) : request :=
  UpdateItem "LK" pathname
    [SET "count" (op_if_not_exists_plus "count" 0 1)]
    (Some (cond_or (attribute_not_exists "level")
                   (attr_eq "level" (VNum SQLITE_LOCK_RESERVED)))).

Definition pending_request (pathname client_id : string) : request :=
  UpdateItem "LK" pathname
    [SET "level" (op_value (VNum SQLITE_LOCK_PENDING));
     SET "owner" (op_value (VStr client_id))]
    (Some (cond_or (attribute_not_exists "owner")
                   (attr_eq "owner" (VStr client_id)))).

Definition reserved_request (pathname client_id : string) : request :=
  UpdateItem "LK" pathname
    [SET "level" (op_value (VNum SQLITE_LOCK_RESERVED));
     SET "owner" (op_value (VStr client_id))]
    (Some (attr_eq "owner" (VStr client_id))).

Definition exclusive_request (pathname client_id : string) : request :=
  UpdateItem "LK" pathname
    [SET "level" (op_value (VNum SQLITE_LOCK_EXCLUSIVE));
     SET "owner" (op_value (VStr client_id))]
    (Some (cond_and (attr_eq "owner" (VStr client_id))
                    (attr_eq "count" (VNum 1)))).

Definition writer_release_request (pathname client_id : string) : request :=
  UpdateItem "LK" pathname
    [SET "count" (op_minus "count" 1); REMOVE "level"; REMOVE "owner"]
    (Some (attr_eq "owner" (VStr client_id))).






Definition size_update (pathname : string) (dsize : Z) : event :=
  Sent (UpdateItem "FSIZE" pathname [ADD "size" dsize] None).

(** The data of a listing, block by block. *)
Definition chunks (items : list (string * block_item)) : list bytes :=
  (λ kv, item_data kv.2) <$> items.


(** The bytes the rechunker of [deserialize_iter] has still to hand out. *)
Definition remaining (st : bytes * Z * list bytes) : bytes :=
  drop (Z.to_nat st.1.2) st.1.1 ++ concat st.2.

Definition offset_ok (st : bytes * Z * list bytes) : Prop :=
  0 <= st.1.2 <= len st.1.1.

(** A byte string cut into chunks of [n] bytes, the last one possibly
    shorter, none empty. *)
Fixpoint rechunk (fuel : nat) (n : nat) (l : bytes) : list bytes :=
  match fuel with
  | O => []
  | S fuel' =>
      match l with
      | [] => []
      | _ :: _ => take n l :: rechunk fuel' n (drop n l)
      end
  end.

Definition repack (block_size : Z) (l : bytes) : list bytes :=
  rechunk (length l) (Z.to_nat block_size) l.

(** The table after chunks have been put as blocks [block], [block + 1], ...;
    and the listing of these blocks by number. *)
Fixpoint stored (pathname : string) (block : Z) (cs : list bytes) (t : table)
    : table :=
  match cs with
  | [] => t
  | c :: cs' => stored pathname (block + 1) cs' (put_bytes pathname block c t)
  end.

Fixpoint listing_from (block : Z) (cs : list bytes)
    : list (string * block_item) :=
  match cs with
  | [] => []
  | c :: cs' =>
      (Key.fmt10 block, BlockItem c (len c)) :: listing_from (block + 1) cs'
  end.

(** The last [w] decimal digits of [n], in front of [acc]. *)
Fixpoint fixed (w : nat) (n : Z) (acc : string) : string :=
  match w with
  | O => acc
  | S w' => fixed w' (n / 10) (String (Key.digit_char (n mod 10)) acc)
  end.

(** ** The rest of class DDBVFS *)

Definition unset_access (pathname : string) (t : table) : table :=
  {| t_access := t_access t ∖ {[pathname]}; t_blocks := t_blocks t;
     t_fsize := t_fsize t; t_lock := t_lock t |}.

Definition delete_access (pathname : string) : M unit :=
  send (DeleteItem "ACCESS" pathname);;
  t ← get_table;
  set_table (unset_access pathname t).

(** [result['Count']] of the query for the item with key ['ACCESS'] and
    range [pathname].  The query is a read of one item; the trace type has no
    request for it, and the statements about [xAccess] speak of its result
    and of the table. *)
Definition count_access (pathname : string) : M Z :=
  t ← get_table;
  mret (if bool_decide (pathname ∈ t_access t) then 1 else 0).

(** [apsw.mapping_access["SQLITE_ACCESS_EXISTS"]]. *)
Definition SQLITE_ACCESS_EXISTS : Z := 0.

(** [4294967294 * 65536], the size [read(-1)] asks for. *)
Definition max_file_size : Z := 4294967294 * 65536.

Section Files.

Variable page_limit : positive.

Definition xAccess (pathname : string) (flags : Z) : M bool :=
  count ← count_access pathname;
  mret ((flags =? SQLITE_ACCESS_EXISTS) && (count >? 0)
        || negb (flags =? SQLITE_ACCESS_EXISTS)).

Definition xFullPathname (filename : string) : string := filename.

(** The items are deleted by their stored [range], without [ReturnValues]. *)
Definition xDelete (pathname : string) (syncdir : bool) : M unit :=
  scan page_limit pathname
    (λ (_ : unit) obj, delete_block pathname obj.1;; mret tt) tt;;
  delete_access pathname.

(** [xOpen] constructs the file object: [__init__] for a name that is a
    string. *)
Definition xOpen (pathname : string) (flags : Z) : M unit := init pathname.

(** [serialize_fileobj]: the rechunker state over the chunks of
    [serialize_iter].  The generator is consumed as the reads ask for chunks;
    with no other request in between, its chunks are the list
    [serialize_iter] returns. *)
Definition serialize_fileobj (key_prefix : string)
    : M (bytes * Z * list bytes) :=
  it ← serialize_iter page_limit key_prefix;
  mret ([], 0, it).

(** [FileLikeObj.read(n)]: [b''.join(up_to_iter(n))].  Every round of
    [up_to_iter] but the first takes a chunk from the iterator, so
    [length it + 2] rounds are enough. *)
Definition read (n : Z) (st : bytes * Z * list bytes)
    : option (bytes * (bytes * Z * list bytes)) :=
  let n := if n =? -1 then max_file_size else n in
  '(pieces, st') ← up_to_iter (length st.2 + 2) n st;
  Some (concat pieces, st').

End Files.

(** ** The rest of class DDBVFSFile *)

(** GetItem on the lock record with [AttributesToGet=attrs]: the item, if
    there is one, cut down to these attributes. *)
Definition get_lock (pathname : string) (attrs : list string)
    : M (option (gmap string value)) :=
  send (GetItem "LK" pathname);;
  t ← get_table;
  mret (filter (λ kv, kv.1 ∈ attrs) <$> t_lock t !! pathname).

(** [int(v)] of an attribute: a number is truncated to itself, a string is
    parsed, and binary data cannot be converted. *)
Definition value_int (v : value) : M Z :=
  match v with
  | VNum n => mret n
  | VStr s => py_int s
  | VBin _ => raise ValueError
  end.

Section LockState.

Variable key_prefix : string.

Definition _get_lock_state : M Z :=
  response ← get_lock key_prefix ["level"; "owner"]%string;
  match response ≫= (λ item, item !! "level"%string) with
  | Some level => value_int level
  | None =>
      match response ≫= (λ item, item !! "count"%string) with
      | Some count =>
          c ← value_int count;
          mret (if c >? 0 then 1 else 0)
      | None => mret 0
      end
  end.

Definition xCheckReservedLock : M bool :=
  level ← _get_lock_state;
  mret (level >=? SQLITE_LOCK_RESERVED).

Definition xSectorSize : Z := 0.
Definition xFileControl : bool := false.
Definition xSync (flags : Z) : bool := true.
Definition xClose : M unit := mret tt.

End LockState.

(** ** More vocabulary *)

(** The absolute position of the byte a triple starts at. *)
Definition position (block_size : Z) (tr : Z * Z * Z) : Z :=
  tr.1.1 * block_size + tr.1.2.

(** The lock record as [xLock] leaves it for a writer. *)
Definition held_by (t : table) (pathname client_id : string) (level : Z)
    : Prop :=
  lock_item t pathname !! "owner"%string = Some (VStr client_id)
  ∧ lock_item t pathname !! "level"%string = Some (VNum level).

(** A file laid out block by block: block [b] holds the bytes
    [content[b*block_size : (b+1)*block_size]] (no bytes, where the content
    ends before). *)
Definition holds_content (block_size : Z) (t : table) (pathname : string)
    (content : bytes) : Prop :=
  ∀ b, 0 <= b →
       block_bytes t pathname b
       = slice (b * block_size) ((b + 1) * block_size) content.

(** [content[:offset] + data + content[offset+len(data):]]. *)
Definition overwrite (content data : bytes) (offset : Z) : bytes :=
  slice_to offset content ++ data ++ slice_from (offset + len data) content.

(** * Properties *)

Example fmt10_7 : Key.fmt10 7 = "0000000007"%string.
Proof. reflexivity. Qed.
Example fmt10_big : Key.fmt10 12345678901 = "12345678901"%string.
Proof. reflexivity. Qed.
Example fmt10_neg : Key.fmt10 (-1) = "-000000001"%string.
Proof. reflexivity. Qed.
Example int_7 : Key.int "0000000007" = Some 7.
Proof. reflexivity. Qed.

(** ** The block-coordinate generator *)

Section Blocks.

Variable block_size : Z.
Hypothesis block_size_pos : 1 <= block_size.

Lemma blocks_loop_done fuel offset amount :
  amount <= 0 → blocks_loop block_size fuel offset amount = Some [].
Proof.
  intros H. destruct fuel; simpl;
    by destruct (amount >? 0) eqn:E; [apply Z.gtb_lt in E; lia|].
Qed.

Lemma blocks_loop_facts fuel : ∀ offset amount,
  0 <= offset → 0 <= amount → (Z.to_nat amount <= fuel)%nat →
  ∃ l, blocks_loop block_size fuel offset amount = Some l
       ∧ consumed l = amount
       ∧ Forall (triple_ok block_size) l
       ∧ Forall (λ t, offset / block_size <= t.1.1) l
       ∧ Sorted Z.lt ((λ t, t.1.1) <$> l).
Proof.
  induction fuel as [|fuel IH]; intros offset amount Ho Ha Hf.
  { assert (amount = 0) as -> by lia.
    exists []. repeat split; constructor. }
  destruct (decide (amount = 0)) as [->|Hnz].
  { exists []. repeat split; constructor. }
  simpl. replace (amount >? 0) with true by (symmetry; apply Z.gtb_lt; lia).
  pose proof (Z.mod_pos_bound offset block_size ltac:(lia)) as Hm.
  pose proof (Z.div_pos offset block_size Ho ltac:(lia)) as Hd.
  pose proof (Z.div_mod offset block_size ltac:(lia)) as Hdm.
  set (start := offset mod block_size) in *.
  set (block := offset / block_size) in *.
  set (consume := Z.min (block_size - start) amount).
  assert (1 <= consume ∧ consume <= amount ∧ start + consume <= block_size)
    as (Hc1 & Hc2 & Hc3) by (unfold consume; lia).
  destruct (IH (offset + consume) (amount - consume))
    as (rest & Hrest & Hsum & Hok & Hge & Hsorted); [lia..|].
  rewrite Hrest. eexists; split; [reflexivity|].
  assert (Forall (λ t, block < t.1.1) rest) as Hlt.
  { destruct (decide (amount - consume = 0)) as [Hz|Hz].
    - rewrite blocks_loop_done in Hrest by lia.
      injection Hrest as <-. constructor.
    - assert (consume = block_size - start) as Hce by (unfold consume; lia).
      assert ((offset + consume) / block_size = block + 1) as Hnext.
      { symmetry. apply (Z.div_unique _ _ _ 0); lia. }
      eapply Forall_impl; [exact Hge|]. simpl. intros t Ht. lia. }
  repeat split.
  - simpl. lia.
  - constructor; [|done]. unfold triple_ok; simpl. lia.
  - constructor; [simpl; lia|].
    eapply Forall_impl; [exact Hlt|]. simpl. intros t Ht. lia.
  - simpl. constructor; [done|].
    destruct rest as [|r rest]; constructor. by inversion Hlt.
Qed.

Lemma blocks_loop_strict fuel offset amount l :
  0 <= offset → 0 <= amount → (Z.to_nat amount <= fuel)%nat →
  blocks_loop block_size fuel offset amount = Some l →
  StronglySorted Z.lt ((λ t, t.1.1) <$> l).
Proof.
  intros Ho Ha Hf Hl.
  destruct (blocks_loop_facts fuel offset amount) as (l' & E & _ & _ & _ & S);
    [done..|].
  rewrite Hl in E. injection E as <-.
  apply Sorted_StronglySorted; [|done]. intros ???; lia.
Qed.

Lemma blocks_loop_more_fuel fuel : ∀ fuel' offset amount l,
  blocks_loop block_size fuel offset amount = Some l →
  (fuel <= fuel')%nat →
  blocks_loop block_size fuel' offset amount = Some l.
Proof.
  induction fuel as [|fuel IH]; intros fuel' offset amount l Hl Hf.
  - simpl in Hl. destruct (amount >? 0) eqn:E; [done|].
    injection Hl as <-. apply blocks_loop_done. lia.
  - destruct fuel' as [|fuel']; [lia|]. simpl in *.
    destruct (amount >? 0); [|done].
    destruct (blocks_loop block_size fuel _ _) as [rest|] eqn:Hrest; [|done].
    by rewrite (IH fuel' _ _ rest Hrest ltac:(lia)).
Qed.

(** C10: for [block_size >= 1], [offset >= 0] and [amount >= 0] the
    generator [_blocks(offset, amount)] terminates (its loop is over after
    at most [amount] rounds, and more rounds change nothing); it yields
    triples whose [consume] is at least 1, whose block numbers never
    decrease and strictly increase after the first, and whose [consume]
    values add up to [amount]. *)
Theorem blocks_terminates_and_covers (offset amount : Z) :
  0 <= offset → 0 <= amount →
  ∃ l, _blocks block_size offset amount = Some l
       ∧ (∀ fuel, (Z.to_nat amount <= fuel)%nat →
            blocks_loop block_size fuel offset amount = Some l)
       ∧ Forall (λ t, 1 <= t.2) l
       ∧ Sorted Z.le ((λ t, t.1.1) <$> l)
       ∧ Sorted Z.lt (tail ((λ t, t.1.1) <$> l))
       ∧ consumed l = amount.
Proof.
  intros Ho Ha.
  destruct (blocks_loop_facts (Z.to_nat amount) offset amount)
    as (l & Hl & Hsum & Hok & _ & Hsorted); [done..|].
  exists l. split; [done|]. split; [|split; [|split; [|split]]].
  - intros fuel Hf. by apply (blocks_loop_more_fuel (Z.to_nat amount)).
  - eapply Forall_impl; [exact Hok|]. by intros t (_ & _ & ? & _).
  - clear -Hsorted. induction Hsorted as [|b bs Hs IH Hhd]; constructor; [done|].
    destruct Hhd; constructor. lia.
  - destruct l; simpl in *; [constructor|]. by inversion Hsorted.
  - done.
Qed.

End Blocks.

Lemma blocks_terminates_and_covers_witness :
  ∃ l, _blocks 4 2 6 = Some l
       ∧ (∀ fuel, (Z.to_nat 6 <= fuel)%nat → blocks_loop 4 fuel 2 6 = Some l)
       ∧ Forall (λ t, 1 <= t.2) l
       ∧ Sorted Z.le ((λ t, t.1.1) <$> l)
       ∧ Sorted Z.lt (tail ((λ t, t.1.1) <$> l))
       ∧ consumed l = 6.
Proof. apply (blocks_terminates_and_covers 4); lia. Defined.

(** ** Sort keys *)

Module KeyFacts.
Import Key.

Lemma digit_val_char d : 0 <= d <= 9 → digit_val (digit_char d) = Some d.
Proof.
  intros H.
  assert (d = 0 ∨ d = 1 ∨ d = 2 ∨ d = 3 ∨ d = 4 ∨ d = 5 ∨ d = 6 ∨ d = 7
          ∨ d = 8 ∨ d = 9) as Hd by lia.
  repeat (destruct Hd as [->|Hd]; [reflexivity|]). by subst.
Qed.

Lemma parse_dec_aux fuel : ∀ n acc,
  0 <= n < 2 ^ Z.of_nat fuel →
  parse_digits (dec_aux fuel n acc) 0 = parse_digits acc n.
Proof.
  induction fuel as [|fuel IH]; intros n acc Hn.
  { simpl in *. by replace n with 0 by lia. }
  rewrite Nat2Z.inj_succ, Z.pow_succ_r in Hn by lia.
  pose proof (Z.div_mod n 10 ltac:(lia)) as Hdm.
  pose proof (Z.mod_pos_bound n 10 ltac:(lia)) as Hm.
  assert (0 <= n / 10) by (apply Z.div_pos; lia).
  simpl. destruct (n / 10 =? 0) eqn:E.
  - apply Z.eqb_eq in E. cbn [parse_digits]. rewrite digit_val_char by lia.
    f_equal. lia.
  - rewrite IH by lia. cbn [parse_digits]. rewrite digit_val_char by lia.
    f_equal. lia.
Qed.

Lemma parse_str n : 0 <= n → parse_digits (str n) 0 = Some n.
Proof.
  intros Hn. unfold str. rewrite parse_dec_aux; [done|].
  split; [done|]. destruct (decide (n = 0)) as [->|]; [done|].
  rewrite Nat2Z.inj_succ, Z2Nat.id by apply Z.log2_nonneg.
  apply Z.log2_spec. lia.
Qed.

Lemma parse_zfill k s : parse_digits (zfill k s) 0 = parse_digits s 0.
Proof. induction k; [done|]. simpl. exact IHk. Qed.

Lemma dec_aux_nonempty fuel : ∀ n acc, acc ≠ ""%string → dec_aux fuel n acc ≠ ""%string.
Proof.
  induction fuel as [|fuel IH]; intros n acc Hacc; [done|].
  simpl. destruct (n / 10 =? 0); [done|]. by apply IH.
Qed.

Lemma str_nonempty n : str n ≠ ""%string.
Proof.
  unfold str. simpl. destruct (n / 10 =? 0); [done|].
  by apply dec_aux_nonempty.
Qed.

Lemma zfill_nonempty k s : s ≠ ""%string → zfill k s ≠ ""%string.
Proof. by destruct k. Qed.

Lemma int_of_digits s n :
  s ≠ ""%string → parse_digits s 0 = Some n → int s = Some n.
Proof.
  destruct s as [|c s]; [done|]. intros _ H.
  destruct (decide (c = "-"%char)) as [->|Hc]; [done|].
  destruct c as [[] [] [] [] [] [] [] []]; done.
Qed.

(** [int(f'{n:010d}') = n]. *)
Lemma int_fmt10 n : 0 <= n → int (fmt10 n) = Some n.
Proof.
  intros Hn. unfold fmt10.
  replace (n <? 0) with false by (symmetry; apply Z.ltb_ge; lia).
  apply int_of_digits.
  - apply zfill_nonempty, str_nonempty.
  - by rewrite parse_zfill, parse_str.
Qed.

Lemma fmt10_inj a b : 0 <= a → 0 <= b → fmt10 a = fmt10 b → a = b.
Proof.
  intros Ha Hb E. apply (f_equal int) in E.
  rewrite !int_fmt10 in E by done. by injection E.
Qed.

End KeyFacts.

(** ** Running computations *)

Section Running.

Context {A B : Type}.

Lemma bind_ok (m : M A) (f : A → M B) s a s1 :
  m s = (Ok a, s1) → (m ≫= f) s = f a s1.
Proof. intros H. unfold mbind, M_bind. by rewrite H. Qed.

Lemma bind_raise (m : M A) (f : A → M B) s e s1 :
  m s = (Raise e, s1) → (m ≫= f) s = (Raise e, s1).
Proof. intros H. unfold mbind, M_bind. by rewrite H. Qed.

Lemma effect_to_ret (a : A) s :
  effect_to (mret a) s a (st_table s) (st_attained s) [].
Proof. exists s. by rewrite app_nil_r. Qed.

Lemma effect_ret (a : A) s t : st_table s = t → effect (mret a) s a t [].
Proof. intros <-. apply effect_to_ret. Qed.

Lemma effect_to_bind (m : M A) (f : A → M B) s a t1 l1 e1 b t2 l2 e2 :
  effect_to m s a t1 l1 e1 →
  (∀ s1, st_table s1 = t1 → st_attained s1 = l1 →
         effect_to (f a) s1 b t2 l2 e2) →
  effect_to (m ≫= f) s b t2 l2 (e1 ++ e2).
Proof.
  intros (s1 & Hm & Ht1 & Ha1 & Htr1) Hf.
  destruct (Hf s1 Ht1 Ha1) as (s2 & Hf2 & Ht2 & Ha2 & Htr2).
  exists s2. rewrite (bind_ok _ _ _ _ _ Hm).
  repeat split; [done..|]. by rewrite Htr2, Htr1, app_assoc.
Qed.

Lemma effect_bind (m : M A) (f : A → M B) s a t1 e1 b t2 e2 :
  effect m s a t1 e1 →
  (∀ s1, st_table s1 = t1 → st_attained s1 = st_attained s →
         effect (f a) s1 b t2 e2) →
  effect (m ≫= f) s b t2 (e1 ++ e2).
Proof.
  intros Hm Hf. eapply effect_to_bind; [exact Hm|].
  intros s1 Ht Ha. specialize (Hf s1 Ht Ha). unfold effect in Hf.
  by rewrite Ha in Hf.
Qed.

Lemma raises_bind_l (m : M A) (f : A → M B) s e t1 l1 e1 :
  raises m s e t1 l1 e1 → raises (m ≫= f) s e t1 l1 e1.
Proof.
  intros (s1 & Hm & ?). exists s1. by rewrite (bind_raise _ _ _ _ _ Hm).
Qed.

Lemma raises_bind_r (m : M A) (f : A → M B) s a t1 l1 e1 e t2 l2 e2 :
  effect_to m s a t1 l1 e1 →
  (∀ s1, st_table s1 = t1 → st_attained s1 = l1 →
         raises (f a) s1 e t2 l2 e2) →
  raises (m ≫= f) s e t2 l2 (e1 ++ e2).
Proof.
  intros (s1 & Hm & Ht1 & Ha1 & Htr1) Hf.
  destruct (Hf s1 Ht1 Ha1) as (s2 & Hf2 & Ht2 & Ha2 & Htr2).
  exists s2. rewrite (bind_ok _ _ _ _ _ Hm).
  repeat split; [done..|]. by rewrite Htr2, Htr1, app_assoc.
Qed.

End Running.

Lemma effect_eq {A} (m : M A) s a a' t t' e e' :
  effect m s a t e → a = a' → t = t' → e = e' → effect m s a' t' e'.
Proof. by intros H -> -> ->. Qed.

Lemma effect_to_eq {A} (m : M A) s a a' t t' l l' e e' :
  effect_to m s a t l e → a = a' → t = t' → l = l' → e = e' →
  effect_to m s a' t' l' e'.
Proof. by intros H -> -> -> ->. Qed.

Lemma effect_on_eq {A} (m : M A) t0 a a' t t' e e' :
  effect_on m t0 a t e → a = a' → t = t' → e = e' → effect_on m t0 a' t' e'.
Proof. by intros H -> -> ->. Qed.

Lemma effect_on_ret {A} (a : A) t : effect_on (mret a) t a t [].
Proof. intros s Hs. by apply effect_ret. Qed.

Lemma effect_on_bind {A B} (m : M A) (f : A → M B) t a t1 e1 b t2 e2 :
  effect_on m t a t1 e1 → effect_on (f a) t1 b t2 e2 →
  effect_on (m ≫= f) t b t2 (e1 ++ e2).
Proof.
  intros Hm Hf s Hs. eapply effect_bind; [by apply Hm|].
  intros s1 Ht1 _. by apply Hf.
Qed.

Lemma raises_on_bind {A B} (m : M A) (f : A → M B) t a t1 e1 e t2 e2 :
  effect_on m t a t1 e1 → raises_on (f a) t1 e t2 e2 →
  raises_on (m ≫= f) t e t2 (e1 ++ e2).
Proof.
  intros Hm Hf s Hs. eapply raises_bind_r; [by apply Hm|].
  intros s1 Ht1 Ha1. rewrite <-Ha1. by apply Hf.
Qed.


Lemma raises_on_eq {A} (m : M A) t0 e t t' evs evs' :
  raises_on m t0 e t evs → t = t' → evs = evs' → raises_on m t0 e t' evs'.
Proof. by intros H -> ->. Qed.

Lemma effect_on_send r t : effect_on (send r) t tt t [Sent r].
Proof. intros s <-. by eexists. Qed.

Lemma effect_on_get_table t : effect_on get_table t t t [].
Proof. intros s <-. by apply effect_ret. Qed.

Lemma effect_on_set_table t0 t : effect_on (set_table t) t0 tt t [].
Proof. intros s _. eexists. repeat split. simpl. by rewrite app_nil_r. Qed.

Lemma effect_on_lift_fuel {A} (o : option A) a t :
  o = Some a → effect_on (lift_fuel o) t a t [].
Proof. intros ->. apply effect_on_ret. Qed.

(** ** Byte strings *)

Lemma len_nonneg (b : bytes) : 0 <= len b.
Proof. unfold len. lia. Qed.

Lemma len_app (a b : bytes) : len (a ++ b) = len a + len b.
Proof. unfold len. rewrite length_app. lia. Qed.

Lemma len_zeros n : len (zeros n) = Z.max n 0.
Proof. unfold len, zeros. rewrite length_replicate. lia. Qed.

Lemma len_slice a b (s : bytes) :
  0 <= a → len (slice a b s) = Z.max (Z.min b (len s) - a) 0.
Proof. intros Ha. unfold len, slice. rewrite length_drop, length_take. lia. Qed.

Lemma len_slice_from a (s : bytes) :
  0 <= a → len (slice_from a s) = Z.max (len s - a) 0.
Proof. intros Ha. unfold len, slice_from. rewrite length_drop. lia. Qed.

Lemma len_slice_to b (s : bytes) : len (slice_to b s) = Z.max (Z.min b (len s)) 0.
Proof. unfold len, slice_to. rewrite length_take. lia. Qed.

Lemma len_nil_inv (b : bytes) : len b = 0 → b = [].
Proof. unfold len. destruct b; [done|simpl; lia]. Qed.

(** ** The table *)

Section TableFacts.

Variable pathname : string.

Lemma blocks_of_set_blocks m t : blocks_of (set_blocks pathname m t) pathname = m.
Proof. unfold blocks_of, set_blocks. simpl. by rewrite lookup_insert_eq. Qed.

Lemma blocks_of_set_blocks_ne other m t :
  other ≠ pathname →
  blocks_of (set_blocks other m t) pathname = blocks_of t pathname.
Proof.
  intros H. unfold blocks_of, set_blocks. simpl. by rewrite lookup_insert_ne.
Qed.

Lemma blocks_of_set_fsize other n t :
  blocks_of (set_fsize other n t) pathname = blocks_of t pathname.
Proof. done. Qed.

Lemma get_total_set_blocks other m t :
  get_total (set_blocks other m t) pathname = get_total t pathname.
Proof. done. Qed.

Lemma get_total_set_fsize n t : get_total (set_fsize pathname n t) pathname = n.
Proof. unfold get_total, set_fsize. simpl. by rewrite lookup_insert_eq. Qed.

Lemma block_bytes_put_eq block b t :
  block_bytes (put_bytes pathname block b t) pathname block = b.
Proof.
  unfold block_bytes, put_bytes.
  by rewrite blocks_of_set_blocks, lookup_insert_eq.
Qed.

Lemma block_bytes_put_ne block block' b t :
  0 <= block → 0 <= block' → block ≠ block' →
  block_bytes (put_bytes pathname block b t) pathname block'
  = block_bytes t pathname block'.
Proof.
  intros H H' Hne. unfold block_bytes, put_bytes.
  rewrite blocks_of_set_blocks, lookup_insert_ne; [done|].
  intros E. by apply KeyFacts.fmt10_inj in E.
Qed.

Lemma lookup_put_bytes_ne block r b t :
  r ≠ Key.fmt10 block →
  blocks_of (put_bytes pathname block b t) pathname !! r
  = blocks_of t pathname !! r.
Proof.
  intros H. unfold put_bytes.
  by rewrite blocks_of_set_blocks, lookup_insert_ne.
Qed.

Lemma get_total_put_bytes block b t :
  get_total (put_bytes pathname block b t) pathname = get_total t pathname.
Proof. done. Qed.

End TableFacts.

(** ** The block store *)

Section BlockStore.

Variable key_prefix : string.

Lemma block_get_bytes_effect block t :
  effect_on (_block_get_bytes key_prefix block) t
    (block_bytes t key_prefix block) t
    [Sent (GetItem (BL key_prefix) (Key.fmt10 block))].
Proof. intros s <-. by eexists. Qed.

Lemma block_put_bytes_effect block b t :
  effect_on (_block_put_bytes key_prefix block b) t
    (len b - stored_size t key_prefix (Key.fmt10 block))
    (put_bytes key_prefix block b t)
    [Sent (PutItem (BL key_prefix) (Key.fmt10 block)
             [("data"%string, VBin b); ("size"%string, VNum (len b))] None)].
Proof.
  intros s <-.
  unfold effect, effect_to, _block_put_bytes, put_block, stored_size.
  unfold mbind, M_bind, send, get_table, set_table, mret, M_ret. simpl.
  destruct (blocks_of (st_table s) key_prefix !! Key.fmt10 block).
  - eexists. split; [reflexivity|]. done.
  - eexists. split; [rewrite Z.sub_0_r; reflexivity|]. done.
Qed.

End BlockStore.

(** ** xRead *)

Section Read.

Variable key_prefix : string.
Variable block_size : Z.
Hypothesis block_size_pos : 1 <= block_size.

Let read_one : Z * Z * Z → M bytes :=
  λ '(block, start, consume),
    block_bytes ← _block_get_bytes key_prefix block;
    mret (slice start (start + consume) block_bytes).

Lemma read_blocks_effect triples t :
  effect_on (forM read_one triples) t
    ((λ tr : Z * Z * Z,
        slice tr.1.2 (tr.1.2 + tr.2) (block_bytes t key_prefix tr.1.1))
     <$> triples)
    t
    ((λ tr : Z * Z * Z,
        Sent (GetItem (BL key_prefix) (Key.fmt10 tr.1.1))) <$> triples).
Proof.
  induction triples as [|[[block start] consume] triples IH];
    [apply effect_on_ret|].
  simpl. eapply effect_on_eq.
  - eapply effect_on_bind.
    { eapply effect_on_bind; [apply block_get_bytes_effect|].
      apply effect_on_ret. }
    eapply effect_on_bind; [apply IH|]. apply effect_on_ret.
  - done.
  - done.
  - simpl. by rewrite app_nil_r.
Qed.

Lemma consumed_cons tr triples : consumed (tr :: triples) = tr.2 + consumed triples.
Proof. done. Qed.

Lemma read_range_cons t tr triples :
  read_range t key_prefix (tr :: triples)
  = slice tr.1.2 (tr.1.2 + tr.2) (block_bytes t key_prefix tr.1.1)
    ++ read_range t key_prefix triples.
Proof. done. Qed.

Lemma read_range_length t triples :
  Forall (triple_ok block_size) triples →
  len (read_range t key_prefix triples) <= consumed triples
  ∧ (Exists (λ tr, len (block_bytes t key_prefix tr.1.1) < tr.1.2 + tr.2)
       triples →
     len (read_range t key_prefix triples) < consumed triples)
  ∧ (Forall (λ tr, tr.1.2 + tr.2 <= len (block_bytes t key_prefix tr.1.1))
       triples →
     len (read_range t key_prefix triples) = consumed triples).
Proof.
  induction 1 as [|tr triples (Hb & Hs & Hc & Hsc) _ (IH1 & IH2 & IH3)].
  { split; [done|]. split; [by intros ?%Exists_nil|done]. }
  rewrite read_range_cons, consumed_cons, len_app, len_slice by done.
  pose proof (len_nonneg (block_bytes t key_prefix tr.1.1)).
  repeat split.
  - lia.
  - intros [Hshort|Hrest]%Exists_cons; [lia|].
    specialize (IH2 Hrest). lia.
  - intros [Hfull Hrest]%Forall_cons. specialize (IH3 Hrest). lia.
Qed.

Lemma xRead_effect amount offset triples t :
  _blocks block_size offset amount = Some triples →
  effect_on (xRead key_prefix block_size amount offset) t
    (read_range t key_prefix triples) t
    ((λ tr : Z * Z * Z,
        Sent (GetItem (BL key_prefix) (Key.fmt10 tr.1.1))) <$> triples).
Proof.
  intros Hl. unfold xRead. eapply effect_on_eq.
  - eapply effect_on_bind; [by apply effect_on_lift_fuel|].
    eapply effect_on_bind; [apply read_blocks_effect|]. apply effect_on_ret.
  - done.
  - done.
  - simpl. by rewrite app_nil_r.
Qed.

(** C9: for [amount >= 0] and [offset >= 0], [xRead(amount, offset)]
    completes without raising, leaves the table as it was, and returns the
    concatenation over the block triples of the range of each stored
    block's bytes sliced at [start, start+consume), an absent block reading
    as empty.  The result has at most [amount] bytes; it has fewer when a
    block of the range ends before [start+consume] (a read past the end of
    the file), and exactly [amount] otherwise. *)
Theorem xRead_returns_slices (amount offset : Z) (s : state) :
  0 <= amount → 0 <= offset →
  ∃ triples,
    _blocks block_size offset amount = Some triples
    ∧ effect (xRead key_prefix block_size amount offset) s
        (read_range (st_table s) key_prefix triples) (st_table s)
        ((λ tr : Z * Z * Z,
            Sent (GetItem (BL key_prefix) (Key.fmt10 tr.1.1))) <$> triples)
    ∧ len (read_range (st_table s) key_prefix triples) <= amount
    ∧ (Exists (λ tr, len (block_bytes (st_table s) key_prefix tr.1.1)
                     < tr.1.2 + tr.2) triples →
       len (read_range (st_table s) key_prefix triples) < amount)
    ∧ (Forall (λ tr, tr.1.2 + tr.2
                     <= len (block_bytes (st_table s) key_prefix tr.1.1))
         triples →
       len (read_range (st_table s) key_prefix triples) = amount).
Proof.
  intros Ha Ho.
  destruct (blocks_loop_facts block_size block_size_pos (Z.to_nat amount)
              offset amount) as (triples & Hl & Hsum & Hok & _); [done..|].
  exists triples. split; [done|].
  destruct (read_range_length (st_table s) triples Hok) as (H1 & H2 & H3).
  rewrite Hsum in *. repeat split; [|done..].
  by apply xRead_effect.
Qed.

End Read.

Lemma xRead_returns_slices_witness :
  ∃ triples,
    _blocks 4 2 6 = Some triples
    ∧ effect (xRead "db" 4 6 2) (State empty_table 0 [])
        (read_range empty_table "db" triples) empty_table
        ((λ tr : Z * Z * Z,
            Sent (GetItem (BL "db") (Key.fmt10 tr.1.1))) <$> triples)
    ∧ len (read_range empty_table "db" triples) <= 6
    ∧ (Exists (λ tr, len (block_bytes empty_table "db" tr.1.1)
                     < tr.1.2 + tr.2) triples →
       len (read_range empty_table "db" triples) < 6)
    ∧ (Forall (λ tr, tr.1.2 + tr.2
                     <= len (block_bytes empty_table "db" tr.1.1))
         triples →
       len (read_range empty_table "db" triples) = 6).
Proof.
  apply (xRead_returns_slices "db" 4 ltac:(lia) 6 2 (State empty_table 0 []));
    lia.
Defined.

(** ** Sizes *)

Lemma sum_data_insert k item (m : gmap string block_item) :
  sum_data (<[k := item]> m)
  = sum_data m + len (item_data item)
    - match m !! k with Some old => len (item_data old) | None => 0 end.
Proof.
  unfold sum_data.
  assert (∀ (m' : gmap string block_item) x, m' !! k = None →
            map_fold (λ _ it acc, len (item_data it) + acc) 0 (<[k := x]> m')
            = len (item_data x)
              + map_fold (λ _ it acc, len (item_data it) + acc) 0 m') as Hins.
  { intros m' x Hk. rewrite map_fold_insert_L; [done| |done]. intros. lia. }
  destruct (m !! k) as [old|] eqn:Hk.
  - rewrite <-insert_delete_eq, Hins by apply lookup_delete_eq.
    rewrite <-(insert_delete_id m k old) at 2 by done.
    rewrite Hins by apply lookup_delete_eq. lia.
  - rewrite Hins by done. lia.
Qed.

Lemma sum_data_delete k (m : gmap string block_item) :
  sum_data (delete k m)
  = sum_data m
    - match m !! k with Some old => len (item_data old) | None => 0 end.
Proof.
  destruct (m !! k) as [old|] eqn:Hk.
  - rewrite <-(insert_delete_id m k old) at 2 by done.
    rewrite sum_data_insert, lookup_delete_eq. lia.
  - rewrite delete_id by done. lia.
Qed.

Section SizeFacts.

Variable pathname : string.

Lemma data_total_put block b t :
  data_total (put_bytes pathname block b t) pathname
  = data_total t pathname + len b - len (block_bytes t pathname block).
Proof.
  unfold data_total, put_bytes, block_bytes.
  rewrite blocks_of_set_blocks, sum_data_insert. simpl.
  by destruct (blocks_of t pathname !! Key.fmt10 block).
Qed.

Lemma stored_size_sized t block :
  sized t pathname →
  stored_size t pathname (Key.fmt10 block)
  = len (block_bytes t pathname block).
Proof.
  intros Hs. unfold stored_size, block_bytes.
  destruct (blocks_of t pathname !! Key.fmt10 block) eqn:E; [|done].
  by apply (Hs _ _ E).
Qed.

Lemma sized_put block b t :
  sized t pathname → sized (put_bytes pathname block b t) pathname.
Proof.
  intros Hs r item. unfold put_bytes. rewrite blocks_of_set_blocks.
  destruct (decide (r = Key.fmt10 block)) as [->|Hne].
  - rewrite lookup_insert_eq. by intros [= <-].
  - rewrite lookup_insert_ne by done. apply Hs.
Qed.

Lemma bounded_put block_size block b t :
  len b <= block_size →
  bounded block_size t pathname →
  bounded block_size (put_bytes pathname block b t) pathname.
Proof.
  intros Hb Hs r item. unfold put_bytes. rewrite blocks_of_set_blocks.
  destruct (decide (r = Key.fmt10 block)) as [->|Hne].
  - rewrite lookup_insert_eq. by intros [= <-].
  - rewrite lookup_insert_ne by done. apply Hs.
Qed.

Lemma bounded_block_bytes block_size t block :
  0 <= block_size →
  bounded block_size t pathname →
  len (block_bytes t pathname block) <= block_size.
Proof.
  intros HB Hb. unfold block_bytes.
  destruct (blocks_of t pathname !! Key.fmt10 block) eqn:E; [|done].
  by apply (Hb _ _ E).
Qed.

End SizeFacts.

(** ** xWrite: what its two loops do to the table *)

Lemma on_blocks_weaken pathname (ok ok' : Z → Prop) evs :
  (∀ k, ok k → ok' k) →
  Forall (on_blocks pathname ok) evs → Forall (on_blocks pathname ok') evs.
Proof.
  intros H HF. eapply Forall_impl; [exact HF|].
  intros e (k & Hk & He). exists k. auto.
Qed.

Lemma py_bytes_effect n t : 0 <= n → effect_on (py_bytes n) t (zeros n) t [].
Proof.
  intros H. unfold py_bytes.
  replace (n <? 0) with false by (symmetry; apply Z.ltb_ge; lia).
  apply effect_on_ret.
Qed.

Lemma elem_of_range_down a b k : k ∈ range_down a b ↔ b < k <= a.
Proof.
  unfold range_down. rewrite list_elem_of_fmap. split.
  - intros (i & -> & Hi). apply elem_of_seq in Hi. lia.
  - intros H. exists (Z.to_nat (a - k)). split; [lia|].
    apply elem_of_seq. lia.
Qed.

Lemma range_down_nil a b : a <= b → range_down a b = [].
Proof. intros H. unfold range_down. by replace (Z.to_nat (a - b)) with 0%nat by lia. Qed.

Lemma range_down_cons a b : b < a → range_down a b = a :: range_down (a - 1) b.
Proof.
  intros H. unfold range_down.
  replace (Z.to_nat (a - b)) with (S (Z.to_nat (a - 1 - b))) by lia.
  cbn [seq]. rewrite fmap_cons. f_equal; [lia|].
  rewrite <-fmap_S_seq, <-list_fmap_compose.
  apply list_fmap_ext. intros _ i _. cbn. lia.
Qed.

Lemma range_down_sorted a b : StronglySorted Z.gt (range_down a b).
Proof.
  remember (Z.to_nat (a - b)) as n eqn:Hn. revert a Hn.
  induction n as [|n IH]; intros a Hn.
  - rewrite range_down_nil by lia. constructor.
  - rewrite range_down_cons by lia. constructor; [apply IH; lia|].
    apply Forall_forall. intros k Hk%elem_of_range_down. lia.
Qed.

Section WriteLoops.

Variable key_prefix : string.
Variable block_size : Z.
Hypothesis block_size_pos : 1 <= block_size.

Lemma pad_blocks_effect blocks : ∀ dsize t,
  StronglySorted Z.gt blocks → Forall (λ j, 0 <= j) blocks →
  (∀ k, k ∈ blocks →
        (∀ j, j ∈ blocks → k < j →
              len (block_bytes t key_prefix j) ≠ block_size) →
        len (block_bytes t key_prefix k) <= block_size) →
  ∃ d evs,
    effect_on (pad_blocks key_prefix block_size blocks dsize) t d
      (padded key_prefix block_size blocks t) evs
    ∧ Forall (on_blocks key_prefix (λ k, k ∈ blocks)) evs
    ∧ (sized t key_prefix →
       sized (padded key_prefix block_size blocks t) key_prefix
       ∧ d = dsize
             + data_total (padded key_prefix block_size blocks t) key_prefix
             - data_total t key_prefix).
Proof.
  induction blocks as [|block blocks IH]; intros dsize t Hsorted Hpos Hfit.
  { exists dsize, []. split; [apply effect_on_ret|].
    split; [constructor|]. intros Hs. split; [done|]. simpl. lia. }
  apply StronglySorted_inv in Hsorted as [Hsorted Hgt].
  apply Forall_cons in Hpos as [Hb0 Hpos].
  rewrite Forall_forall in Hgt. pose proof Hpos as Hpos'.
  rewrite Forall_forall in Hpos'.
  assert (len (block_bytes t key_prefix block) <= block_size) as Hlen.
  { apply Hfit; [left|]. intros j Hj Hlt.
    apply elem_of_cons in Hj as [->|Hj]; [lia|]. specialize (Hgt j Hj). lia. }
  cbn [pad_blocks padded].
  set (orig := block_bytes t key_prefix block) in *.
  destruct (len orig =? block_size) eqn:Hfull.
  { exists dsize, [Sent (GetItem (BL key_prefix) (Key.fmt10 block))].
    split; [|split].
    - eapply effect_on_eq.
      + eapply effect_on_bind; [apply block_get_bytes_effect|].
        fold orig. rewrite Hfull. apply effect_on_ret.
      + done.
      + done.
      + done.
    - repeat constructor. exists block. split; [left|]; auto.
    - intros Hs. split; [done|]. lia. }
  apply Z.eqb_neq in Hfull.
  set (new := orig ++ zeros (block_size - len orig)).
  set (t1 := put_bytes key_prefix block new t).
  assert (∀ k, k ∈ blocks →
            block_bytes t1 key_prefix k = block_bytes t key_prefix k) as Hsame.
  { intros k Hk. apply block_bytes_put_ne; [done|by apply Hpos'|].
    specialize (Hgt k Hk). lia. }
  set (d1 := len new - stored_size t key_prefix (Key.fmt10 block)).
  destruct (IH (dsize + d1) t1 Hsorted Hpos) as (d & evs & Hrun & Hevs & Hsz).
  { intros k Hk Hshort. rewrite Hsame by done. apply Hfit; [by right|].
    intros j Hj Hkj. apply elem_of_cons in Hj as [->|Hj]; [done|].
    rewrite <-Hsame by done. by apply Hshort. }
  exists d, ([Sent (GetItem (BL key_prefix) (Key.fmt10 block))]
             ++ [Sent (PutItem (BL key_prefix) (Key.fmt10 block)
                         [("data"%string, VBin new);
                          ("size"%string, VNum (len new))] None)]
             ++ evs).
  split; [|split].
  - eapply effect_on_eq.
    + eapply effect_on_bind; [apply block_get_bytes_effect|].
      fold orig.
      replace (len orig =? block_size) with false
        by (symmetry; by apply Z.eqb_neq).
      eapply effect_on_bind; [apply py_bytes_effect; lia|].
      eapply effect_on_bind; [apply block_put_bytes_effect|].
      exact Hrun.
    + done.
    + done.
    + done.
  - constructor; [exists block; split; [left|]; auto|].
    constructor; [exists block; split; [left|]; eauto|].
    eapply on_blocks_weaken; [|exact Hevs]. intros k Hk. by right.
  - intros Hs. destruct Hsz as [Hs3 ->]; [by apply sized_put|].
    split; [done|].
    unfold d1, t1. rewrite data_total_put, stored_size_sized by done.
    fold orig. lia.
Qed.

Lemma write_block_effect data data_offset dsize tr t :
  let new := spliced block_size (block_bytes t key_prefix tr.1.1)
               (slice data_offset (data_offset + tr.2) data) tr.1.2 tr.2 in
  ∃ evs,
    effect_on (write_block key_prefix block_size data (data_offset, dsize) tr) t
      (data_offset + tr.2,
       dsize + (len new - stored_size t key_prefix (Key.fmt10 tr.1.1)))
      (put_bytes key_prefix tr.1.1 new t) evs
    ∧ Forall (on_blocks key_prefix (λ k, k = tr.1.1)) evs.
Proof.
  destruct tr as [[block start] write]. cbn [fst snd]. unfold spliced.
  set (chunk := slice data_offset (data_offset + write) data).
  destruct (negb (start =? 0) || negb (len chunk =? block_size)) eqn:Hpart.
  - eexists. split.
    + unfold write_block. fold chunk. rewrite Hpart.
      eapply effect_on_eq.
      * eapply effect_on_bind.
        { eapply effect_on_bind; [apply block_get_bytes_effect|].
          apply effect_on_ret. }
        eapply effect_on_bind; [apply block_put_bytes_effect|].
        apply effect_on_ret.
      * reflexivity.
      * reflexivity.
      * reflexivity.
    + simpl. repeat constructor; exists block; split; eauto.
  - eexists. split.
    + unfold write_block. fold chunk. rewrite Hpart.
      eapply effect_on_eq.
      * eapply effect_on_bind; [apply effect_on_ret|].
        eapply effect_on_bind; [apply block_put_bytes_effect|].
        apply effect_on_ret.
      * reflexivity.
      * reflexivity.
      * reflexivity.
    + simpl. repeat constructor; exists block; split; eauto.
Qed.

Lemma write_loop_effect data triples : ∀ data_offset dsize t,
  ∃ d evs,
    effect_on (foldM (write_block key_prefix block_size data) triples
                 (data_offset, dsize)) t
      (data_offset + consumed triples, d)
      (written key_prefix block_size data triples data_offset t) evs
    ∧ Forall (on_blocks key_prefix (λ k, k ∈ (λ tr, tr.1.1) <$> triples)) evs
    ∧ (sized t key_prefix →
       sized (written key_prefix block_size data triples data_offset t)
         key_prefix
       ∧ d = dsize
             + data_total (written key_prefix block_size data triples
                             data_offset t) key_prefix
             - data_total t key_prefix).
Proof.
  induction triples as [|tr triples IH]; intros data_offset dsize t.
  { exists dsize, []. cbn [consumed foldr written]. rewrite Z.add_0_r.
    split; [apply effect_on_ret|]. split; [constructor|].
    intros Hs. split; [done|]. lia. }
  destruct (write_block_effect data data_offset dsize tr t)
    as (evs1 & Hrun1 & Hevs1).
  cbn zeta in Hrun1.
  set (new := spliced block_size (block_bytes t key_prefix tr.1.1)
                (slice data_offset (data_offset + tr.2) data) tr.1.2 tr.2)
    in *.
  set (d1 := len new - stored_size t key_prefix (Key.fmt10 tr.1.1)) in *.
  destruct (IH (data_offset + tr.2) (dsize + d1)
              (put_bytes key_prefix tr.1.1 new t))
    as (d & evs & Hrun2 & Hevs & Hsz).
  exists d, (evs1 ++ evs). split; [|split].
  - cbn [foldM]. eapply effect_on_eq.
    + eapply effect_on_bind; [exact Hrun1|exact Hrun2].
    + rewrite consumed_cons. f_equal. lia.
    + done.
    + done.
  - apply Forall_app. split.
    + eapply on_blocks_weaken; [|exact Hevs1]. intros k ->.
      rewrite fmap_cons. left.
    + eapply on_blocks_weaken; [|exact Hevs]. intros k Hk.
      rewrite fmap_cons. by right.
  - intros Hs. destruct Hsz as [Hs2 ->]; [by apply sized_put|].
    split; [done|]. cbn [written]. fold new. unfold d1.
    rewrite data_total_put, stored_size_sized by done. lia.
Qed.

End WriteLoops.

(** ** Slices *)

Lemma slice_app_mid (a x c : bytes) :
  slice (len a) (len a + len x) (a ++ x ++ c) = x.
Proof.
  unfold slice, len.
  replace (Z.to_nat (Z.of_nat (length a) + Z.of_nat (length x)))
    with (length a + length x)%nat by lia.
  rewrite Nat2Z.id, take_app_add, drop_app_length, take_app_length. done.
Qed.

Lemma slice_adjacent a b c (l : bytes) :
  0 <= a <= b → b <= c → slice a b l ++ slice b c l = slice a c l.
Proof.
  intros Hab Hbc. unfold slice.
  rewrite <-(drop_take_drop (take (Z.to_nat c) l) (Z.to_nat a) (Z.to_nat b))
    by lia.
  rewrite take_take. do 3 f_equal. lia.
Qed.

Lemma slice_all (l : bytes) : slice 0 (len l) l = l.
Proof. unfold slice, len. rewrite Nat2Z.id. simpl. by rewrite take_ge. Qed.

Lemma slice_empty a (l : bytes) : 0 <= a → slice a a l = [].
Proof.
  intros Ha. unfold slice. apply drop_ge. rewrite length_take. lia.
Qed.

Section Spliced.

Variable block_size : Z.

Lemma spliced_slice orig chunk start write :
  0 <= start → len chunk = write →
  slice start (start + write) (spliced block_size orig chunk start write)
  = chunk.
Proof.
  intros Hs Hw. unfold spliced.
  destruct (negb (start =? 0) || negb (len chunk =? block_size)) eqn:E.
  - set (orig' := orig ++ zeros (Z.max (start - len orig) 0)).
    assert (len (slice 0 start orig') = start) as Hlen.
    { rewrite len_slice by lia. unfold orig'.
      rewrite len_app, len_zeros. pose proof (len_nonneg orig). lia. }
    rewrite <-Hlen at 1 2. rewrite <-Hw. apply slice_app_mid.
  - apply orb_false_iff in E as [E1 _].
    apply negb_false_iff, Z.eqb_eq in E1. subst start write.
    apply slice_all.
Qed.

Lemma len_spliced orig chunk start write :
  0 <= start → len chunk = write → len orig <= block_size →
  start + write <= block_size →
  Z.max (start + write) (len orig)
  <= len (spliced block_size orig chunk start write) <= block_size.
Proof.
  intros Hs Hw Ho Hsw. unfold spliced.
  pose proof (len_nonneg orig). pose proof (len_nonneg chunk).
  destruct (negb (start =? 0) || negb (len chunk =? block_size)) eqn:E.
  - rewrite !len_app, len_slice, len_slice_from, !len_app, len_zeros by lia.
    lia.
  - apply orb_false_iff in E as [E1 E2].
    apply negb_false_iff, Z.eqb_eq in E1, E2. lia.
Qed.

End Spliced.

(** ** What the write loop leaves in the blocks *)

Section Written.

Variable key_prefix : string.
Variable block_size : Z.
Hypothesis block_size_pos : 1 <= block_size.

Lemma written_lookup_other data triples : ∀ data_offset t r,
  Forall (λ tr, r ≠ Key.fmt10 tr.1.1) triples →
  blocks_of (written key_prefix block_size data triples data_offset t)
    key_prefix !! r
  = blocks_of t key_prefix !! r.
Proof.
  induction triples as [|tr triples IH]; intros data_offset t r Hr; [done|].
  apply Forall_cons in Hr as [Hr1 Hr]. simpl.
  rewrite IH by done. by apply lookup_put_bytes_ne.
Qed.

Lemma written_bytes_other data triples data_offset t block :
  0 <= block →
  Forall (λ tr, 0 <= tr.1.1 ∧ tr.1.1 ≠ block) triples →
  block_bytes (written key_prefix block_size data triples data_offset t)
    key_prefix block
  = block_bytes t key_prefix block.
Proof.
  intros Hb Hne. unfold block_bytes. rewrite written_lookup_other; [done|].
  eapply Forall_impl; [exact Hne|]. intros tr [H0 Hd] E.
  apply KeyFacts.fmt10_inj in E; [congruence|done..].
Qed.

Lemma written_bounded data triples : ∀ data_offset t,
  Forall (triple_ok block_size) triples →
  0 <= data_offset → data_offset + consumed triples <= len data →
  bounded block_size t key_prefix →
  bounded block_size
    (written key_prefix block_size data triples data_offset t) key_prefix.
Proof.
  induction triples as [|tr triples IH]; intros data_offset t Hok Ho Hfit Hb;
    [done|].
  apply Forall_cons in Hok as [(Hb0 & Hs & Hc & Hsc) Hok]. simpl in *.
  assert (0 <= consumed triples).
  { clear -Hok. induction Hok as [|? ? (_ & _ & ? & _)]; simpl; lia. }
  apply IH; [done|lia|lia|].
  apply bounded_put; [|done].
  apply len_spliced; [done| | |done].
  - rewrite len_slice by done. lia.
  - apply bounded_block_bytes; [lia|done].
Qed.

Lemma consumed_nonneg triples :
  Forall (triple_ok block_size) triples → 0 <= consumed triples.
Proof. induction 1 as [|? ? (_ & _ & ? & _)]; simpl; lia. Qed.

Lemma get_total_written data triples : ∀ data_offset t,
  get_total (written key_prefix block_size data triples data_offset t)
    key_prefix
  = get_total t key_prefix.
Proof.
  induction triples as [|tr triples IH]; intros data_offset t; [done|].
  simpl. by rewrite IH.
Qed.

Lemma get_total_padded blocks : ∀ t,
  get_total (padded key_prefix block_size blocks t) key_prefix
  = get_total t key_prefix.
Proof.
  induction blocks as [|block blocks IH]; intros t; [done|].
  simpl. destruct (_ =? _); [done|]. by rewrite IH.
Qed.

(** Reading back the triples of a write gives the bytes written. *)
Lemma written_read data triples : ∀ data_offset t,
  Forall (triple_ok block_size) triples →
  StronglySorted Z.lt ((λ tr, tr.1.1) <$> triples) →
  0 <= data_offset → data_offset + consumed triples <= len data →
  read_range (written key_prefix block_size data triples data_offset t)
    key_prefix triples
  = slice data_offset (data_offset + consumed triples) data.
Proof.
  induction triples as [|tr triples IH]; intros data_offset t Hok Hsorted Ho Hfit.
  { unfold read_range. cbn. by rewrite Z.add_0_r, slice_empty. }
  apply Forall_cons in Hok as [(Hb0 & Hs & Hc & Hsc) Hok].
  rewrite fmap_cons in Hsorted.
  apply StronglySorted_inv in Hsorted as [Hsorted Hlt].
  pose proof (consumed_nonneg triples Hok) as Hrest.
  rewrite consumed_cons in *.
  cbn [written]. rewrite read_range_cons.
  rewrite IH by (done || lia).
  rewrite written_bytes_other, block_bytes_put_eq; [|done|].
  - rewrite spliced_slice; [|done|].
    + rewrite slice_adjacent by lia. f_equal. lia.
    + rewrite len_slice by done. lia.
  - apply Forall_forall. intros tr' Hin.
    apply Forall_forall with (x := tr') in Hok as (? & _); [|done].
    split; [done|].
    rewrite Forall_forall in Hlt.
    specialize (Hlt (tr'.1.1)). cbn in Hlt.
    assert (tr.1.1 < tr'.1.1); [|lia].
    apply Hlt. apply list_elem_of_fmap. by exists tr'.
Qed.

End Written.

(** ** xWrite *)

Lemma add_size_raises pathname dsize t :
  raises_on (add_size pathname dsize) t (ClientError "ValidationException") t
    [Sent (UpdateItem "FSIZE" pathname [ADD "size" dsize] None)].
Proof. intros s <-. eexists. split; [reflexivity|]. done. Qed.

Lemma bounded_padding_fits block_size t pathname data offset :
  0 <= block_size →
  bounded block_size t pathname →
  padding_fits block_size t pathname data offset.
Proof. intros HB Hb _ k _ _. by apply bounded_block_bytes. Qed.

Section Write.

Variable key_prefix : string.
Variable block_size : Z.
Hypothesis block_size_pos : 1 <= block_size.

(** [xWrite] runs its two loops and then asks for the update of the size
    counter, which the store refuses: the blocks are written, the counter is
    not moved, and the call raises. *)
Lemma xWrite_outcome data offset t :
  0 <= offset →
  padding_fits block_size t key_prefix data offset →
  ∃ triples dsize pad_evs write_evs,
    let t1 := after_padding key_prefix block_size data offset t in
    let t2 := written key_prefix block_size data triples 0 t1 in
    _blocks block_size offset (len data) = Some triples
    ∧ raises_on (xWrite key_prefix block_size data offset) t
        (ClientError "ValidationException") t2
        (pad_evs ++ write_evs
         ++ [Sent (UpdateItem "FSIZE" key_prefix [ADD "size" dsize] None)])
    ∧ Forall (on_blocks key_prefix
                (λ k, offset = lock_page_offset + len data
                      ∧ lock_page_offset / block_size <= k
                        < offset / block_size)) pad_evs
    ∧ Forall (on_blocks key_prefix (λ k, k ∈ (λ tr, tr.1.1) <$> triples))
        write_evs
    ∧ (sized t key_prefix →
       sized t2 key_prefix
       ∧ dsize = data_total t2 key_prefix - data_total t key_prefix).
Proof.
  intros Ho Hfit.
  pose proof (len_nonneg data) as Hlen.
  destruct (blocks_loop_facts block_size block_size_pos
              (Z.to_nat (len data)) offset (len data))
    as (triples & Hl & Hsum & Hok & _ & _); [done..|].
  (* the padding loop *)
  assert (∃ d0 pad_evs,
            effect_on (if offset =? lock_page_offset + len data
                       then pad_blocks key_prefix block_size
                              (range_down (offset / block_size - 1)
                                 (lock_page_offset / block_size - 1)) 0
                       else mret 0) t d0
              (after_padding key_prefix block_size data offset t) pad_evs
            ∧ Forall (on_blocks key_prefix
                        (λ k, offset = lock_page_offset + len data
                              ∧ lock_page_offset / block_size <= k
                                < offset / block_size)) pad_evs
            ∧ (sized t key_prefix →
               sized (after_padding key_prefix block_size data offset t)
                 key_prefix
               ∧ d0 = data_total
                        (after_padding key_prefix block_size data offset t)
                        key_prefix
                      - data_total t key_prefix))
    as (d0 & pad_evs & Hpad & Hpad_evs & Hsz1).
  { unfold after_padding.
    destruct (offset =? lock_page_offset + len data) eqn:E.
    - apply Z.eqb_eq in E.
      assert (0 <= lock_page_offset / block_size) as Hlp
        by (apply Z.div_pos; [done|lia]).
      destruct (pad_blocks_effect key_prefix block_size
                  (range_down (offset / block_size - 1)
                     (lock_page_offset / block_size - 1)) 0 t)
        as (d0 & evs & Hrun & Hevs & Hsz).
      + apply range_down_sorted.
      + apply Forall_forall. intros j Hj%elem_of_range_down. lia.
      + intros k Hk%elem_of_range_down Hshort. apply (Hfit E); [lia|].
        intros j Hj. apply Hshort; [|lia]. apply elem_of_range_down. lia.
      + exists d0, evs. split; [done|]. split.
        * eapply on_blocks_weaken; [|exact Hevs]. cbn beta.
          intros k Hk%elem_of_range_down. lia.
        * intros Hs. destruct (Hsz Hs) as [Hs' ->]. split; [done|]. lia.
    - exists 0, []. split; [apply effect_on_ret|]. split; [constructor|].
      intros Hs. split; [done|]. lia. }
  set (t1 := after_padding key_prefix block_size data offset t) in *.
  destruct (write_loop_effect key_prefix block_size data triples 0 d0 t1)
    as (dsize & write_evs & Hrun2 & Hwr_evs & Hsz2).
  exists triples, dsize, pad_evs, write_evs. cbn zeta. fold t1.
  split; [done|]. split; [|split; [done|split; [done|]]].
  - unfold xWrite. cbn zeta. eapply raises_on_eq.
    + eapply raises_on_bind; [exact Hpad|].
      eapply raises_on_bind; [by apply effect_on_lift_fuel|].
      eapply raises_on_bind; [exact Hrun2|].
      apply add_size_raises.
    + done.
    + cbn [app]. done.
  - intros Hs. destruct (Hsz1 Hs) as [Hs1 ->].
    destruct (Hsz2 Hs1) as [Hs2 ->]. split; [done|]. lia.
Qed.

End Write.

(** ** Writing, then reading back *)

Section WriteRead.

Variable key_prefix : string.
Variable block_size : Z.
Hypothesis block_size_pos : 1 <= block_size.

(** C2, as amended: for every byte string [data], every [offset >= 0] and
    every starting store state in which the padding loop of the write meets
    no block longer than [block_size], once [xWrite(data, offset)] has stored
    its blocks, [xRead(len(data), offset)] performed next on the same handle
    returns exactly [data].  The write itself ends in the refusal of its
    size update, after the blocks are stored. *)
Theorem write_then_read (data : bytes) (offset : Z) (s : state) :
  0 <= offset →
  padding_fits block_size (st_table s) key_prefix data offset →
  ∃ t1 evs1,
    raises (xWrite key_prefix block_size data offset) s
      (ClientError "ValidationException") t1 (st_attained s) evs1
    ∧ ∀ s1, st_table s1 = t1 →
        ∃ evs,
          effect (xRead key_prefix block_size (len data) offset) s1 data t1
            evs.
Proof.
  intros Ho Hfit.
  destruct (xWrite_outcome key_prefix block_size block_size_pos data offset
              (st_table s) Ho Hfit)
    as (triples & dsize & pad_evs & write_evs & Hl & Hwrite & _).
  cbn zeta in Hwrite.
  destruct (blocks_loop_facts block_size block_size_pos
              (Z.to_nat (len data)) offset (len data))
    as (triples' & Hl' & Hsum & Hok & _ & Hsorted);
    [done|apply len_nonneg|done|].
  unfold _blocks in Hl. rewrite Hl in Hl'. injection Hl' as <-.
  eexists _, _. split; [exact (Hwrite s eq_refl)|].
  intros s1 Hs1. eexists. eapply effect_eq.
  - exact (xRead_effect key_prefix block_size (len data) offset triples
             _ Hl s1 Hs1).
  - assert (StronglySorted Z.lt ((λ tr, tr.1.1) <$> triples)) as HS.
    { apply Sorted_StronglySorted; [|done]. intros ???; lia. }
    rewrite written_read by (done || lia).
    rewrite Hsum, Z.add_0_l. apply slice_all.
  - done.
  - done.
Qed.

End WriteRead.

Lemma empty_table_no_blocks pathname r :
  blocks_of empty_table pathname !! r = None.
Proof.
  unfold blocks_of. simpl. rewrite lookup_empty. simpl. apply lookup_empty.
Qed.

Lemma empty_table_padding_fits block_size pathname data offset :
  0 <= block_size → padding_fits block_size empty_table pathname data offset.
Proof.
  intros HB _ k _ _. unfold block_bytes.
  by rewrite empty_table_no_blocks.
Qed.

Lemma write_then_read_witness :
  let data := [x01; x02; x03; x04; x05; x06] in
  ∃ t1 evs1,
    raises (xWrite "db" 4 data 2) (State empty_table 0 [])
      (ClientError "ValidationException") t1 0 evs1
    ∧ ∀ s1, st_table s1 = t1 →
        ∃ evs, effect (xRead "db" 4 (len data) 2) s1 data t1 evs.
Proof.
  apply (write_then_read "db" 4 ltac:(lia) [x01; x02; x03; x04; x05; x06] 2
           (State empty_table 0 [])); [lia|].
  apply empty_table_padding_fits. lia.
Defined.

(** C2, as stated, fails: with [block_size = 1] and a stored block number
    1073741824 that holds two bytes, writing one byte at offset 1073741825
    (the offset just after the lock page) raises [ValueError] in the padding
    loop before any block is written; the read performed next finds no block
    at that offset and returns the empty byte string, not the byte. *)
Lemma write_then_read_overlong_block :
  let t := set_blocks "db"
             {[ Key.fmt10 1073741824 := BlockItem [x00; x00] 2 ]} empty_table in
  let s := State t 0 [] in
  (∃ s1, xWrite "db" 1 [x01] 1073741825 s = (Raise ValueError, s1)
         ∧ st_table s1 = t
         ∧ fst (xRead "db" 1 (len [x01]) 1073741825 s1) = Ok [])
  ∧ fst ((xWrite "db" 1 [x01] 1073741825;;
          xRead "db" 1 (len [x01]) 1073741825) s) = Raise ValueError
  ∧ ¬ (∃ t' evs,
         effect (xWrite "db" 1 [x01] 1073741825;;
                 xRead "db" 1 (len [x01]) 1073741825) s [x01] t' evs).
Proof.
  assert (fst ((xWrite "db" 1 [x01] 1073741825;;
                xRead "db" 1 (len [x01]) 1073741825)
                 (State (set_blocks "db"
                           {[ Key.fmt10 1073741824 := BlockItem [x00; x00] 2 ]}
                           empty_table) 0 []))
          = Raise ValueError) as H by (vm_compute; reflexivity).
  split; [|split; [exact H|]].
  - eexists. split; [vm_compute; reflexivity|].
    split; vm_compute; reflexivity.
  - intros (t' & evs & s' & Hrun & _). cbv zeta in *.
    rewrite Hrun in H. discriminate H.
Qed.

(** ** What the padding loop leaves in the blocks *)

Section Padded.

Variable key_prefix : string.
Variable block_size : Z.

Lemma padded_lookup_other blocks : ∀ t r,
  Forall (λ j, r ≠ Key.fmt10 j) blocks →
  blocks_of (padded key_prefix block_size blocks t) key_prefix !! r
  = blocks_of t key_prefix !! r.
Proof.
  induction blocks as [|block blocks IH]; intros t r Hr; [done|].
  apply Forall_cons in Hr as [Hr1 Hr]. cbn [padded].
  destruct (_ =? _); [done|].
  rewrite IH by done. by apply lookup_put_bytes_ne.
Qed.

Lemma padded_bytes_other blocks t k :
  0 <= k → Forall (λ j, 0 <= j ∧ j ≠ k) blocks →
  block_bytes (padded key_prefix block_size blocks t) key_prefix k
  = block_bytes t key_prefix k.
Proof.
  intros Hk Hne. unfold block_bytes. rewrite padded_lookup_other; [done|].
  eapply Forall_impl; [exact Hne|]. intros j [H0 Hd] E.
  apply KeyFacts.fmt10_inj in E; [congruence|done..].
Qed.

(** A block above which (itself included) no block of the range is full is
    padded with zero bytes. *)
Lemma padded_short blocks : ∀ t k,
  StronglySorted Z.gt blocks → Forall (λ j, 0 <= j) blocks →
  k ∈ blocks →
  (∀ j, j ∈ blocks → k <= j → len (block_bytes t key_prefix j) ≠ block_size) →
  block_bytes (padded key_prefix block_size blocks t) key_prefix k
  = block_bytes t key_prefix k
    ++ zeros (block_size - len (block_bytes t key_prefix k)).
Proof.
  induction blocks as [|block blocks IH]; intros t k Hsorted Hpos Hk Hshort.
  { by apply elem_of_nil in Hk. }
  apply StronglySorted_inv in Hsorted as [Hsorted Hgt].
  apply Forall_cons in Hpos as [Hb0 Hpos].
  rewrite Forall_forall in Hgt. rewrite Forall_forall in Hpos.
  assert (len (block_bytes t key_prefix block) ≠ block_size) as Hfirst.
  { apply Hshort; [left|].
    apply elem_of_cons in Hk as [->|Hk]; [lia|]. specialize (Hgt k Hk). lia. }
  cbn [padded].
  replace (len (block_bytes t key_prefix block) =? block_size) with false
    by (symmetry; by apply Z.eqb_neq).
  apply elem_of_cons in Hk as [->|Hk].
  - rewrite padded_bytes_other, block_bytes_put_eq; [done|done|].
    apply Forall_forall. intros j Hj. specialize (Hgt j Hj).
    specialize (Hpos j Hj). lia.
  - assert (0 <= k) by by apply Hpos.
    assert (block ≠ k) by (specialize (Hgt k Hk); lia).
    rewrite IH; [|done|by apply Forall_forall|done|].
    + by rewrite block_bytes_put_ne.
    + intros j Hj Hkj. rewrite block_bytes_put_ne.
      * apply Hshort; [by right|done].
      * done.
      * by apply Hpos.
      * specialize (Hgt j Hj). lia.
Qed.

(** The loop stops at the first full block: that block and the ones below
    it are left as they were. *)
Lemma padded_stopped blocks : ∀ t k,
  StronglySorted Z.gt blocks → Forall (λ j, 0 <= j) blocks → 0 <= k →
  (∃ j, j ∈ blocks ∧ k <= j ∧ len (block_bytes t key_prefix j) = block_size) →
  blocks_of (padded key_prefix block_size blocks t) key_prefix !! Key.fmt10 k
  = blocks_of t key_prefix !! Key.fmt10 k.
Proof.
  induction blocks as [|block blocks IH];
    intros t k Hsorted Hpos Hk (j & Hj & Hkj & Hfull).
  { by apply elem_of_nil in Hj. }
  apply StronglySorted_inv in Hsorted as [Hsorted Hgt].
  apply Forall_cons in Hpos as [Hb0 Hpos].
  rewrite Forall_forall in Hgt. rewrite Forall_forall in Hpos.
  cbn [padded].
  destruct (len (block_bytes t key_prefix block) =? block_size) eqn:E; [done|].
  apply Z.eqb_neq in E.
  apply elem_of_cons in Hj as [->|Hj]; [done|].
  specialize (Hgt j Hj) as Hgtj.
  rewrite IH; [|done|by apply Forall_forall|done|].
  - apply lookup_put_bytes_ne. intros Heq.
    apply KeyFacts.fmt10_inj in Heq; [lia|done..].
  - exists j. split; [done|]. split; [done|].
    rewrite block_bytes_put_ne; [done|done|by apply Hpos|lia].
Qed.

End Padded.

(** ** The write after the lock page *)

Section LockPage.

Variable key_prefix : string.
Variable block_size : Z.
Hypothesis block_size_pos : 1 <= block_size.

(** C7: [xWrite(data, offset)] sends, in this order, the requests of the
    padding loop, those of the data blocks, and one size update carrying the
    whole size delta (the store refuses that update once the blocks are
    written, and the call raises).  When [offset = 1073741824 + len(data)]
    the padding loop visits blocks from [first_data_block - 1] down to the
    block of offset 1073741824: each block with no full block between it and
    [first_data_block - 1] (itself included) is padded with zero bytes to
    exactly [block_size] bytes, and from the first full block downwards the
    blocks are left as they were.  For any other offset the padding loop
    sends nothing and only the blocks of the written range change.  (The
    stored blocks hold at most [block_size] bytes.) *)
Theorem xWrite_pads_after_lock_page (data : bytes) (offset : Z) (s : state) :
  0 <= offset →
  bounded block_size (st_table s) key_prefix →
  let t := st_table s in
  let first_data_block := offset / block_size in
  let lock_page_block := lock_page_offset / block_size in
  ∃ triples dsize pad_evs write_evs t',
    _blocks block_size offset (len data) = Some triples
    ∧ raises (xWrite key_prefix block_size data offset) s
        (ClientError "ValidationException") t' (st_attained s)
        (pad_evs ++ write_evs
         ++ [Sent (UpdateItem "FSIZE" key_prefix [ADD "size" dsize] None)])
    ∧ Forall (on_blocks key_prefix
                (λ k, lock_page_block <= k < first_data_block)) pad_evs
    ∧ Forall (on_blocks key_prefix (λ k, k ∈ (λ tr, tr.1.1) <$> triples))
        write_evs
    ∧ (sized t key_prefix →
       dsize = data_total t' key_prefix - data_total t key_prefix)
    ∧ (offset = lock_page_offset + len data →
       ∀ k, lock_page_block <= k < first_data_block →
         ((∀ j, k <= j < first_data_block →
                len (block_bytes t key_prefix j) < block_size) →
          block_bytes t' key_prefix k
          = block_bytes t key_prefix k
            ++ zeros (block_size - len (block_bytes t key_prefix k))
          ∧ len (block_bytes t' key_prefix k) = block_size)
         ∧ ((∃ j, k <= j < first_data_block
                  ∧ len (block_bytes t key_prefix j) = block_size) →
            blocks_of t' key_prefix !! Key.fmt10 k
            = blocks_of t key_prefix !! Key.fmt10 k))
    ∧ (offset ≠ lock_page_offset + len data →
       pad_evs = []
       ∧ ∀ r, Forall (λ tr, r ≠ Key.fmt10 tr.1.1) triples →
              blocks_of t' key_prefix !! r = blocks_of t key_prefix !! r).
Proof.
  intros Ho Hb t first_data_block lock_page_block.
  destruct (xWrite_outcome key_prefix block_size block_size_pos data offset
              t Ho
              (bounded_padding_fits block_size t key_prefix data offset
                 ltac:(lia) Hb))
    as (triples & dsize & pad_evs & write_evs & Hl & Hwrite & Hpad_evs
        & Hwr_evs & Hsz).
  cbn zeta in Hwrite, Hsz.
  set (t1 := after_padding key_prefix block_size data offset t) in *.
  set (t2 := written key_prefix block_size data triples 0 t1) in *.
  destruct (blocks_loop_facts block_size block_size_pos
              (Z.to_nat (len data)) offset (len data))
    as (triples' & Hl' & _ & Hok & Hge & _);
    [done|apply len_nonneg|done|].
  unfold _blocks in Hl. rewrite Hl in Hl'. injection Hl' as <-.
  assert (0 <= lock_page_block) as Hlp.
  { apply Z.div_pos; [done|lia]. }
  exists triples, dsize, pad_evs, write_evs, t2.
  split; [done|]. split; [by apply Hwrite|].
  split; [|split; [done|]].
  { eapply on_blocks_weaken; [|exact Hpad_evs]. cbn beta. intros k [_ H]. done. }
  split; [intros Hs; by destruct (Hsz Hs)|].
  (* blocks below the first data block are not written by the data loop *)
  assert (∀ k, 0 <= k < first_data_block →
            blocks_of t2 key_prefix !! Key.fmt10 k
            = blocks_of t1 key_prefix !! Key.fmt10 k) as Hbelow.
  { intros k Hk. apply written_lookup_other.
    apply Forall_forall. intros tr Htr Heq.
    rewrite Forall_forall in Hge. specialize (Hge tr Htr). cbn beta in Hge.
    apply KeyFacts.fmt10_inj in Heq; [|lia|lia].
    fold first_data_block in Hge. lia. }
  split.
  - intros Hoff k Hk.
    assert (t1 = padded key_prefix block_size
                   (range_down (first_data_block - 1) (lock_page_block - 1)) t)
      as Ht1.
    { unfold t1, after_padding.
      by replace (offset =? lock_page_offset + len data) with true
        by (symmetry; by apply Z.eqb_eq). }
    assert (Forall (λ j, 0 <= j)
              (range_down (first_data_block - 1) (lock_page_block - 1)))
      as Hpos.
    { apply Forall_forall. intros j Hj%elem_of_range_down. lia. }
    assert (block_bytes t2 key_prefix k = block_bytes t1 key_prefix k) as Hk1.
    { unfold block_bytes. by rewrite Hbelow by lia. }
    split.
    + intros Hshort.
      assert (block_bytes t1 key_prefix k
              = block_bytes t key_prefix k
                ++ zeros (block_size - len (block_bytes t key_prefix k)))
        as Hpadded.
      { rewrite Ht1. apply padded_short;
          [apply range_down_sorted|done|apply elem_of_range_down; lia|].
        intros j Hj%elem_of_range_down Hkj.
        specialize (Hshort j ltac:(lia)). lia. }
      rewrite Hk1, Hpadded. split; [done|].
      rewrite len_app, len_zeros.
      specialize (Hshort k ltac:(lia)). lia.
    + intros (j & Hj & Hfull).
      rewrite Hbelow by lia. rewrite Ht1.
      apply padded_stopped; [apply range_down_sorted|done|lia|].
      exists j. split; [apply elem_of_range_down; lia|]. split; [lia|done].
  - intros Hoff. split.
    + destruct pad_evs as [|e evs]; [done|].
      apply Forall_cons in Hpad_evs as [(k & [Hk _] & _) _]. done.
    + intros r Hr. unfold t2. rewrite written_lookup_other by done.
      unfold t1, after_padding.
      by replace (offset =? lock_page_offset + len data) with false
        by (symmetry; by apply Z.eqb_neq).
Qed.

End LockPage.

Lemma blocks_of_empty pathname : blocks_of empty_table pathname = ∅.
Proof. done. Qed.

Lemma bounded_empty block_size pathname : bounded block_size empty_table pathname.
Proof. intros r item H. by rewrite blocks_of_empty, lookup_empty in H. Qed.


Lemma xWrite_pads_after_lock_page_witness :
  let key_prefix := "db"%string in
  let block_size := 1 in
  let data := [x01] in
  let offset := 1073741825 in
  let s := State empty_table 0 [] in
  let t := st_table s in
  let first_data_block := offset / block_size in
  let lock_page_block := lock_page_offset / block_size in
  ∃ triples dsize pad_evs write_evs t',
    _blocks block_size offset (len data) = Some triples
    ∧ raises (xWrite key_prefix block_size data offset) s
        (ClientError "ValidationException") t' (st_attained s)
        (pad_evs ++ write_evs
         ++ [Sent (UpdateItem "FSIZE" key_prefix [ADD "size" dsize] None)])
    ∧ Forall (on_blocks key_prefix
                (λ k, lock_page_block <= k < first_data_block)) pad_evs
    ∧ Forall (on_blocks key_prefix (λ k, k ∈ (λ tr, tr.1.1) <$> triples))
        write_evs
    ∧ (sized t key_prefix →
       dsize = data_total t' key_prefix - data_total t key_prefix)
    ∧ (offset = lock_page_offset + len data →
       ∀ k, lock_page_block <= k < first_data_block →
         ((∀ j, k <= j < first_data_block →
                len (block_bytes t key_prefix j) < block_size) →
          block_bytes t' key_prefix k
          = block_bytes t key_prefix k
            ++ zeros (block_size - len (block_bytes t key_prefix k))
          ∧ len (block_bytes t' key_prefix k) = block_size)
         ∧ ((∃ j, k <= j < first_data_block
                  ∧ len (block_bytes t key_prefix j) = block_size) →
            blocks_of t' key_prefix !! Key.fmt10 k
            = blocks_of t key_prefix !! Key.fmt10 k))
    ∧ (offset ≠ lock_page_offset + len data →
       pad_evs = []
       ∧ ∀ r, Forall (λ tr, r ≠ Key.fmt10 tr.1.1) triples →
              blocks_of t' key_prefix !! r = blocks_of t key_prefix !! r).
Proof.
  apply (xWrite_pads_after_lock_page "db" 1 ltac:(lia) [x01] 1073741825
           (State empty_table 0 [])); [lia|apply bounded_empty].
Defined.

(** ** The lock record *)

Lemma attr_eq_num (it : gmap string value) a n :
  eval_cond it (attr_eq a (VNum n)) = true ↔ it !! a = Some (VNum n).
Proof.
  cbn [eval_cond]. destruct (it !! a) as [[m|?|?]|]; cbn [value_eqb];
    split; try done.
  - intros ->%Z.eqb_eq. done.
  - intros [= ->]. apply Z.eqb_refl.
Qed.

Lemma attr_eq_str (it : gmap string value) a x :
  eval_cond it (attr_eq a (VStr x)) = true ↔ it !! a = Some (VStr x).
Proof.
  cbn [eval_cond]. destruct (it !! a) as [[?|y|?]|]; cbn [value_eqb];
    split; try done.
  - intros ->%String.eqb_eq. done.
  - intros [= ->]. apply String.eqb_refl.
Qed.

Lemma eval_cond_or (it : gmap string value) c1 c2 :
  eval_cond it (cond_or c1 c2) = eval_cond it c1 || eval_cond it c2.
Proof. done. Qed.

Lemma eval_cond_and (it : gmap string value) c1 c2 :
  eval_cond it (cond_and c1 c2) = eval_cond it c1 && eval_cond it c2.
Proof. done. Qed.

Lemma attribute_not_exists_true (it : gmap string value) a :
  eval_cond it (attribute_not_exists a) = true ↔ it !! a = None.
Proof. cbn [eval_cond]. apply bool_decide_eq_true. Qed.

Section LockClient.

Variable pathname : string.

Lemma update_lock_effect upd cond s it' :
  holds (default ∅ (t_lock (st_table s) !! pathname)) cond = true →
  apply_update (default ∅ (t_lock (st_table s) !! pathname)) upd = Some it' →
  effect (update_lock pathname upd cond) s tt
    (set_lock pathname it' (st_table s))
    [Sent (UpdateItem "LK" pathname upd cond)].
Proof.
  intros Hc Hu. unfold effect, effect_to, update_lock.
  unfold mbind, M_bind, send, get_table, mret, M_ret. cbn [st_table].
  rewrite Hc, Hu. eexists. split; [reflexivity|]. done.
Qed.

Lemma update_lock_check_failed upd cond s :
  holds (default ∅ (t_lock (st_table s) !! pathname)) cond = false →
  raises (update_lock pathname upd cond) s
    (ClientError "ConditionalCheckFailedException")
    (st_table s) (st_attained s) [Sent (UpdateItem "LK" pathname upd cond)].
Proof.
  intros Hc. unfold raises, update_lock.
  unfold mbind, M_bind, send, get_table, mret, M_ret. cbn [st_table].
  rewrite Hc. eexists. split; [reflexivity|]. done.
Qed.

Lemma update_lock_invalid upd cond s :
  holds (default ∅ (t_lock (st_table s) !! pathname)) cond = true →
  apply_update (default ∅ (t_lock (st_table s) !! pathname)) upd = None →
  raises (update_lock pathname upd cond) s (ClientError "ValidationException")
    (st_table s) (st_attained s) [Sent (UpdateItem "LK" pathname upd cond)].
Proof.
  intros Hc Hu. unfold raises, update_lock.
  unfold mbind, M_bind, send, get_table, mret, M_ret. cbn [st_table].
  rewrite Hc, Hu. eexists. split; [reflexivity|]. done.
Qed.

Lemma put_lock_effect attrs cond s :
  holds (default ∅ (t_lock (st_table s) !! pathname)) cond = true →
  effect (put_lock pathname attrs cond) s tt
    (set_lock pathname (list_to_map attrs) (st_table s))
    [Sent (PutItem "LK" pathname attrs cond)].
Proof.
  intros Hc. unfold effect, effect_to, put_lock.
  unfold mbind, M_bind, send, get_table, mret, M_ret. cbn [st_table].
  rewrite Hc. eexists. split; [reflexivity|]. done.
Qed.

Lemma put_lock_check_failed attrs cond s :
  holds (default ∅ (t_lock (st_table s) !! pathname)) cond = false →
  raises (put_lock pathname attrs cond) s
    (ClientError "ConditionalCheckFailedException")
    (st_table s) (st_attained s) [Sent (PutItem "LK" pathname attrs cond)].
Proof.
  intros Hc. unfold raises, put_lock.
  unfold mbind, M_bind, send, get_table, mret, M_ret. cbn [st_table].
  rewrite Hc. eexists. split; [reflexivity|]. done.
Qed.

End LockClient.

Lemma busy_if_check_failed_ok {A} (m : M A) s a t l e :
  effect_to m s a t l e → effect_to (busy_if_check_failed m) s a t l e.
Proof.
  intros (s' & Hm & H). exists s'. unfold busy_if_check_failed.
  by rewrite Hm.
Qed.

Lemma busy_if_check_failed_busy {A} (m : M A) s t l e :
  raises m s (ClientError "ConditionalCheckFailedException") t l e →
  raises (busy_if_check_failed m) s BusyError t l e.
Proof.
  intros (s' & Hm & H). exists s'. unfold busy_if_check_failed.
  by rewrite Hm.
Qed.

Lemma set_attained_effect level s :
  effect_to (set_attained level) s tt (st_table s) level [Attained level].
Proof. by eexists. Qed.

(** ** xLock *)

Section Lock.

Variable key_prefix : string.
Variable client_id : string.

Lemma xLock_same level s :
  level ≠ SQLITE_LOCK_NONE → level ≠ SQLITE_LOCK_PENDING →
  level = st_attained s →
  xLock key_prefix client_id level s = (Ok tt, s).
Proof.
  intros H0 H3 Hl. unfold xLock.
  replace (level =? SQLITE_LOCK_NONE) with false
    by (symmetry; by apply Z.eqb_neq).
  replace (level =? SQLITE_LOCK_PENDING) with false
    by (symmetry; by apply Z.eqb_neq).
  cbn [negb assert].
  unfold mbind at 1 2 3, M_bind at 1 2 3.
  unfold mret at 1 2, M_ret at 1 2, get_attained.
  by replace (level =? st_attained s) with true
    by (symmetry; by apply Z.eqb_eq).
Qed.

Lemma xLock_shared_unfold s :
  st_attained s ≠ SQLITE_LOCK_SHARED →
  xLock key_prefix client_id SQLITE_LOCK_SHARED s
  = (busy_if_check_failed
       (update_lock key_prefix
          [SET "count" (op_if_not_exists_plus "count" 0 1)]
          (Some (cond_or (attribute_not_exists "level")
                         (attr_eq "level" (VNum SQLITE_LOCK_RESERVED)))));;
     set_attained SQLITE_LOCK_SHARED) s.
Proof.
  intros H. unfold xLock.
  change (SQLITE_LOCK_SHARED =? SQLITE_LOCK_NONE) with false.
  change (SQLITE_LOCK_SHARED =? SQLITE_LOCK_PENDING) with false.
  cbn [negb assert].
  unfold mbind at 1 2 3, M_bind at 1 2 3.
  unfold mret at 1 2, M_ret at 1 2, get_attained.
  replace (SQLITE_LOCK_SHARED =? st_attained s) with false
    by (symmetry; apply Z.eqb_neq; congruence).
  change (SQLITE_LOCK_SHARED =? SQLITE_LOCK_SHARED) with true. done.
Qed.

Lemma xLock_writer_unfold level s :
  level ≠ SQLITE_LOCK_NONE → level ≠ SQLITE_LOCK_PENDING →
  level ≠ SQLITE_LOCK_SHARED → level ≠ st_attained s →
  xLock key_prefix client_id level s
  = (when (negb (st_attained s =? SQLITE_LOCK_PENDING))
       (busy_if_check_failed
          (update_lock key_prefix
             [SET "level" (op_value (VNum SQLITE_LOCK_PENDING));
              SET "owner" (op_value (VStr client_id))]
             (Some (cond_or (attribute_not_exists "owner")
                            (owner_is_me client_id))));;
        set_attained SQLITE_LOCK_PENDING);;
     busy_if_check_failed
       (update_lock key_prefix
          [SET "level" (op_value (VNum level));
           SET "owner" (op_value (VStr client_id))]
          (Some (if level =? SQLITE_LOCK_RESERVED then owner_is_me client_id
                 else cond_and (owner_is_me client_id)
                        (attr_eq "count" (VNum 1)))));;
     set_attained level) s.
Proof.
  intros H0 H3 H1 Hl. unfold xLock.
  replace (level =? SQLITE_LOCK_NONE) with false
    by (symmetry; by apply Z.eqb_neq).
  replace (level =? SQLITE_LOCK_PENDING) with false
    by (symmetry; by apply Z.eqb_neq).
  cbn [negb assert].
  unfold mbind at 1 2 3, M_bind at 1 2 3.
  unfold mret at 1 2, M_ret at 1 2, get_attained.
  replace (level =? st_attained s) with false
    by (symmetry; by apply Z.eqb_neq).
  by replace (level =? SQLITE_LOCK_SHARED) with false
    by (symmetry; by apply Z.eqb_neq).
Qed.

(** C4, as amended: on a handle whose attained level is not already SHARED,
    [xLock(SHARED)] sends exactly one request, the UpdateItem
    [SET count = if_not_exists(count, 0) + 1] under the condition that
    [level] is absent or equals RESERVED.  If the condition holds (and
    [count] is absent or a number) the count is incremented and attained
    becomes SHARED; if it fails, [BusyError] is raised and neither the table
    nor the attained level changes. *)
Theorem xLock_shared (s : state) :
  st_attained s ≠ SQLITE_LOCK_SHARED →
  let it := lock_item (st_table s) key_prefix in
  (∀ n, (it !! "level" = None
         ∨ it !! "level" = Some (VNum SQLITE_LOCK_RESERVED)) →
        (it !! "count" = None ∧ n = 0 ∨ it !! "count" = Some (VNum n)) →
        effect_to (xLock key_prefix client_id SQLITE_LOCK_SHARED) s tt
          (set_lock key_prefix (<["count" := VNum (n + 1)]> it) (st_table s))
          SQLITE_LOCK_SHARED
          [Sent (shared_request key_prefix); Attained SQLITE_LOCK_SHARED])
  ∧ (¬ (it !! "level" = None
        ∨ it !! "level" = Some (VNum SQLITE_LOCK_RESERVED)) →
     raises (xLock key_prefix client_id SQLITE_LOCK_SHARED) s BusyError
       (st_table s) (st_attained s) [Sent (shared_request key_prefix)]).
Proof.
  intros Hne it. split.
  - intros n Hlevel Hcount. unfold effect_to.
    rewrite xLock_shared_unfold by done.
    eapply (effect_to_bind _ _ s tt _ _ [_] tt _ _ [_]).
    + apply busy_if_check_failed_ok.
      apply (update_lock_effect key_prefix _ _ s
               (<["count" := VNum (n + 1)]> it)).
      * cbn [holds eval_cond]. apply orb_true_iff.
        destruct Hlevel as [H|H]; [left|right].
        -- by apply attribute_not_exists_true.
        -- by apply attr_eq_num.
      * unfold apply_update. cbn [apply_actions apply_action eval_operand].
        fold (lock_item (st_table s) key_prefix). fold it.
        destruct Hcount as [[Hc ->] | Hc]; rewrite Hc; done.
    + intros s1 Ht1 Ha1. rewrite <-Ht1. apply set_attained_effect.
  - intros Hlevel. unfold raises.
    rewrite xLock_shared_unfold by done.
    apply raises_bind_l, busy_if_check_failed_busy, update_lock_check_failed.
    cbn [holds]. rewrite eval_cond_or. apply orb_false_iff. split.
    + apply not_true_iff_false. rewrite attribute_not_exists_true. tauto.
    + apply not_true_iff_false. rewrite attr_eq_num. tauto.
Qed.

(** C5: on a handle that has reached PENDING, [xLock(EXCLUSIVE)] sends
    exactly one request, the UpdateItem [SET level = EXCLUSIVE, owner =
    client_id] under the condition [owner = client_id AND count = 1].  If the
    condition holds the record is updated and attained becomes EXCLUSIVE; if
    it fails, [BusyError] is raised, the table is unchanged and attained
    remains PENDING. *)
Theorem xLock_exclusive_from_pending (s : state) :
  st_attained s = SQLITE_LOCK_PENDING →
  let it := lock_item (st_table s) key_prefix in
  (it !! "owner" = Some (VStr client_id) ∧ it !! "count" = Some (VNum 1) →
   effect_to (xLock key_prefix client_id SQLITE_LOCK_EXCLUSIVE) s tt
     (set_lock key_prefix
        (<["owner" := VStr client_id]>
           (<["level" := VNum SQLITE_LOCK_EXCLUSIVE]> it)) (st_table s))
     SQLITE_LOCK_EXCLUSIVE
     [Sent (exclusive_request key_prefix client_id);
      Attained SQLITE_LOCK_EXCLUSIVE])
  ∧ (¬ (it !! "owner" = Some (VStr client_id)
        ∧ it !! "count" = Some (VNum 1)) →
     raises (xLock key_prefix client_id SQLITE_LOCK_EXCLUSIVE) s BusyError
       (st_table s) SQLITE_LOCK_PENDING
       [Sent (exclusive_request key_prefix client_id)]).
Proof.
  intros Hatt it.
  assert (xLock key_prefix client_id SQLITE_LOCK_EXCLUSIVE s
          = (busy_if_check_failed
               (update_lock key_prefix
                  [SET "level" (op_value (VNum SQLITE_LOCK_EXCLUSIVE));
                   SET "owner" (op_value (VStr client_id))]
                  (Some (cond_and (owner_is_me client_id)
                           (attr_eq "count" (VNum 1)))));;
             set_attained SQLITE_LOCK_EXCLUSIVE) s) as Hunfold.
  { rewrite xLock_writer_unfold by (rewrite ?Hatt; done).
    rewrite Hatt. done. }
  split.
  - intros [Howner Hcount]. unfold effect_to. rewrite Hunfold.
    eapply (effect_to_bind _ _ s tt _ _ [_] tt _ _ [_]).
    + apply busy_if_check_failed_ok.
      apply (update_lock_effect key_prefix _ _ s
               (<["owner" := VStr client_id]>
                  (<["level" := VNum SQLITE_LOCK_EXCLUSIVE]> it))).
      * cbn [holds]. rewrite eval_cond_and. apply andb_true_iff. split.
        -- by apply attr_eq_str.
        -- by apply attr_eq_num.
      * done.
    + intros s1 Ht1 Ha1. rewrite <-Ht1. apply set_attained_effect.
  - intros Hcond. unfold raises. rewrite Hunfold. rewrite <-Hatt.
    apply raises_bind_l, busy_if_check_failed_busy, update_lock_check_failed.
    cbn [holds]. rewrite eval_cond_and. apply not_true_iff_false.
    rewrite andb_true_iff. unfold owner_is_me.
    rewrite attr_eq_str, attr_eq_num. exact Hcond.
Qed.

End Lock.

Lemma xLock_shared_witness :
  let s := State empty_table SQLITE_LOCK_NONE [] in
  let it := lock_item (st_table s) "db" in
  (∀ n, (it !! "level" = None
         ∨ it !! "level" = Some (VNum SQLITE_LOCK_RESERVED)) →
        (it !! "count" = None ∧ n = 0 ∨ it !! "count" = Some (VNum n)) →
        effect_to (xLock "db" "me" SQLITE_LOCK_SHARED) s tt
          (set_lock "db" (<["count" := VNum (n + 1)]> it) (st_table s))
          SQLITE_LOCK_SHARED
          [Sent (shared_request "db"); Attained SQLITE_LOCK_SHARED])
  ∧ (¬ (it !! "level" = None
        ∨ it !! "level" = Some (VNum SQLITE_LOCK_RESERVED)) →
     raises (xLock "db" "me" SQLITE_LOCK_SHARED) s BusyError
       (st_table s) (st_attained s) [Sent (shared_request "db")]).
Proof.
  apply (xLock_shared "db" "me" (State empty_table SQLITE_LOCK_NONE [])).
  simpl. unfold SQLITE_LOCK_NONE, SQLITE_LOCK_SHARED. lia.
Defined.

(** C4, as stated, fails: on a handle that already holds SHARED,
    [xLock(SHARED)] returns at once; it sends no request, the count stays as
    it was. *)
Lemma xLock_shared_again_sends_nothing :
  let s := State (set_lock "db" {[ "count"%string := VNum 1 ]} empty_table)
             SQLITE_LOCK_SHARED [] in
  xLock "db" "me" SQLITE_LOCK_SHARED s = (Ok tt, s)
  ∧ ¬ (∃ t' lvl, effect_to (xLock "db" "me" SQLITE_LOCK_SHARED) s tt t' lvl
                   [Sent (shared_request "db"); Attained SQLITE_LOCK_SHARED])
  ∧ ¬ (∃ t' lvl, raises (xLock "db" "me" SQLITE_LOCK_SHARED) s BusyError t' lvl
                   [Sent (shared_request "db")]).
Proof.
  cbv zeta.
  set (s := State (set_lock "db" {[ "count"%string := VNum 1 ]} empty_table)
              SQLITE_LOCK_SHARED []).
  assert (xLock "db" "me" SQLITE_LOCK_SHARED s = (Ok tt, s)) as H
    by (by apply xLock_same).
  split; [done|]. split.
  - intros (t' & lvl & s' & Hrun & _ & _ & Htr).
    rewrite H in Hrun. injection Hrun as <-. discriminate Htr.
  - intros (t' & lvl & s' & Hrun & _). rewrite H in Hrun. discriminate Hrun.
Qed.

Lemma xLock_exclusive_from_pending_witness :
  let s := State (set_lock "db"
                    {[ "count"%string := VNum 1;
                       "level"%string := VNum SQLITE_LOCK_PENDING;
                       "owner"%string := VStr "me" ]} empty_table)
             SQLITE_LOCK_PENDING [] in
  let it := lock_item (st_table s) "db" in
  (it !! "owner" = Some (VStr "me") ∧ it !! "count" = Some (VNum 1) →
   effect_to (xLock "db" "me" SQLITE_LOCK_EXCLUSIVE) s tt
     (set_lock "db"
        (<["owner" := VStr "me"]>
           (<["level" := VNum SQLITE_LOCK_EXCLUSIVE]> it)) (st_table s))
     SQLITE_LOCK_EXCLUSIVE
     [Sent (exclusive_request "db" "me"); Attained SQLITE_LOCK_EXCLUSIVE])
  ∧ (¬ (it !! "owner" = Some (VStr "me") ∧ it !! "count" = Some (VNum 1)) →
     raises (xLock "db" "me" SQLITE_LOCK_EXCLUSIVE) s BusyError
       (st_table s) SQLITE_LOCK_PENDING [Sent (exclusive_request "db" "me")]).
Proof.
  apply (xLock_exclusive_from_pending "db" "me"
           (State (set_lock "db"
                     {[ "count"%string := VNum 1;
                        "level"%string := VNum SQLITE_LOCK_PENDING;
                        "owner"%string := VStr "me" ]} empty_table)
              SQLITE_LOCK_PENDING [])).
  reflexivity.
Defined.

(** ** xUnlock *)

Section Unlock.

Variable key_prefix : string.
Variable client_id : string.

Lemma xUnlock_same level s :
  level = st_attained s → xUnlock key_prefix client_id level s = (Ok tt, s).
Proof.
  intros Hl. unfold xUnlock.
  unfold mbind at 1, M_bind at 1, get_attained.
  by replace (level =? st_attained s) with true
    by (symmetry; by apply Z.eqb_eq).
Qed.

Lemma xUnlock_none_unfold s :
  st_attained s ≠ SQLITE_LOCK_NONE →
  xUnlock key_prefix client_id SQLITE_LOCK_NONE s
  = (if st_attained s >? SQLITE_LOCK_SHARED then
       update_lock key_prefix
         [SET "count" (op_minus "count" 1); REMOVE "level"; REMOVE "owner"]
         (Some (owner_is_me client_id))
     else
       update_lock key_prefix
         [SET "count" (op_minus "count" (if st_attained s >? 0 then 1 else 0))]
         None;;
       set_attained SQLITE_LOCK_NONE) s.
Proof.
  intros H. unfold xUnlock.
  unfold mbind at 1, M_bind at 1, get_attained.
  replace (SQLITE_LOCK_NONE =? st_attained s) with false
    by (symmetry; apply Z.eqb_neq; congruence).
  change (SQLITE_LOCK_NONE >=? SQLITE_LOCK_RESERVED) with false.
  change (SQLITE_LOCK_NONE =? SQLITE_LOCK_SHARED) with false.
  change (SQLITE_LOCK_NONE =? SQLITE_LOCK_NONE) with true.
  cbn [when].
  unfold mbind at 1 2 3, M_bind at 1 2 3, mret at 1 2, M_ret at 1 2.
  done.
Qed.

(** What [xUnlock(NONE)] does on a handle holding a writer lock: it sends
    [SET count = count - 1 REMOVE level, owner] under the condition
    [owner = client_id]; the attained level is not assigned. *)
Lemma xUnlock_none_from_writer s n :
  st_attained s > SQLITE_LOCK_SHARED →
  let it := lock_item (st_table s) key_prefix in
  it !! "owner" = Some (VStr client_id) → it !! "count" = Some (VNum n) →
  effect_to (xUnlock key_prefix client_id SQLITE_LOCK_NONE) s tt
    (set_lock key_prefix
       (delete "owner" (delete "level" (<["count" := VNum (n - 1)]> it)))
       (st_table s))
    (st_attained s)
    [Sent (writer_release_request key_prefix client_id)].
Proof.
  intros Hatt it Howner Hcount. unfold effect_to.
  rewrite xUnlock_none_unfold
    by (unfold SQLITE_LOCK_NONE, SQLITE_LOCK_SHARED in *; lia).
  replace (st_attained s >? SQLITE_LOCK_SHARED) with true
    by (symmetry; apply Z.gtb_lt; lia).
  apply update_lock_effect.
  - cbn [holds]. by apply attr_eq_str.
  - unfold apply_update. cbn [apply_actions apply_action eval_operand].
    fold (lock_item (st_table s) key_prefix). fold it. by rewrite Hcount.
Qed.

End Unlock.

(** C3 at a failing input: a handle holding EXCLUSIVE (record
    [{count: 1, level: 4, owner: me}]) calls [xUnlock(NONE)].  The record is
    released ([count] 0, no [level], no [owner]) by the one UpdateItem, but the
    handle's attained level is still EXCLUSIVE afterwards, not NONE. *)
Lemma xUnlock_none_from_exclusive_keeps_attained :
  let s := State (set_lock "db"
                    {[ "count"%string := VNum 1;
                       "level"%string := VNum SQLITE_LOCK_EXCLUSIVE;
                       "owner"%string := VStr "me" ]} empty_table)
             SQLITE_LOCK_EXCLUSIVE [] in
  ∃ s', xUnlock "db" "me" SQLITE_LOCK_NONE s = (Ok tt, s')
        ∧ st_attained s' = SQLITE_LOCK_EXCLUSIVE
        ∧ st_attained s' ≠ SQLITE_LOCK_NONE
        ∧ lock_item (st_table s') "db" = {[ "count"%string := VNum 0 ]}
        ∧ st_trace s' = [Sent (writer_release_request "db" "me")].
Proof.
  cbv zeta. eexists. split; [vm_compute; reflexivity|].
  split; [reflexivity|]. split; [done|]. split; [|reflexivity].
  vm_compute. reflexivity.
Qed.

(** ** The order of sort keys *)

Module KeyOrder.

Lemma ascii_compare_refl c : Ascii.compare c c = Eq.
Proof. apply N.compare_refl. Qed.

Lemma compare_refl s : String.compare s s = Eq.
Proof. induction s as [|c s IH]; [done|]. cbn. by rewrite ascii_compare_refl. Qed.

Lemma compare_eq s1 s2 : String.compare s1 s2 = Eq ↔ s1 = s2.
Proof. split; [apply String.compare_eq_iff|intros ->; apply compare_refl]. Qed.

Lemma compare_lt_trans s1 : ∀ s2 s3,
  String.compare s1 s2 = Lt → String.compare s2 s3 = Lt →
  String.compare s1 s3 = Lt.
Proof.
  induction s1 as [|c1 s1 IH]; intros [|c2 s2] [|c3 s3]; cbn; try done.
  unfold Ascii.compare.
  destruct (N.compare_spec (N_of_ascii c1) (N_of_ascii c2)) as [E12|L12|G12];
    try done;
    destruct (N.compare_spec (N_of_ascii c2) (N_of_ascii c3)) as [E23|L23|G23];
    try done; intros H12 H23.
  - rewrite E12, E23, N.compare_refl. by apply (IH s2).
  - rewrite E12. by apply N.compare_lt_iff in L23 as ->.
  - rewrite <-E23. by apply N.compare_lt_iff in L12 as ->.
  - assert (N_of_ascii c1 < N_of_ascii c3)%N as L by lia.
    by apply N.compare_lt_iff in L as ->.
Qed.

Lemma lt_spec a b : Key.lt a b ↔ String.compare a b = Lt.
Proof. unfold Key.lt, String.ltb. by destruct (String.compare a b). Qed.

Lemma le_spec a b : Key.le a b ↔ String.compare a b ≠ Gt.
Proof. unfold Key.le, String.leb. by destruct (String.compare a b). Qed.

Lemma le_lt_or_eq a b : Key.le a b ↔ Key.lt a b ∨ a = b.
Proof.
  rewrite le_spec, lt_spec, <-compare_eq.
  destruct (String.compare a b); split; try tauto; try done;
    intros [?|?]; done.
Qed.

Lemma lt_irrefl a : ¬ Key.lt a a.
Proof. rewrite lt_spec, compare_refl. done. Qed.

Lemma lt_trans a b c : Key.lt a b → Key.lt b c → Key.lt a c.
Proof. rewrite !lt_spec. apply compare_lt_trans. Qed.

Lemma le_trans a b c : Key.le a b → Key.le b c → Key.le a c.
Proof.
  rewrite !le_lt_or_eq. intros [H1| ->] [H2| ->]; eauto using lt_trans.
Qed.

Lemma le_total a b : Key.le a b ∨ Key.le b a.
Proof. apply String.leb_total. Qed.

Lemma le_antisym a b : Key.le a b → Key.le b a → a = b.
Proof. apply String.leb_antisym. Qed.

Lemma lt_le_trans a b c : Key.lt a b → Key.le b c → Key.lt a c.
Proof. rewrite le_lt_or_eq. intros H [H2| ->]; eauto using lt_trans. Qed.

Lemma lt_not_le a b : Key.lt a b → ¬ Key.le b a.
Proof.
  intros H1 H2. apply (lt_irrefl a). eauto using lt_le_trans.
Qed.

Lemma ltb_false_le a b : String.ltb a b = false → Key.le b a.
Proof.
  intros H. destruct (le_total b a) as [|Hle]; [done|].
  apply le_lt_or_eq in Hle as [Hlt| ->].
  - unfold Key.lt in Hlt. congruence.
  - apply le_lt_or_eq. by right.
Qed.

End KeyOrder.

Global Instance item_le_trans : Transitive item_le.
Proof. intros x y z. apply KeyOrder.le_trans. Qed.

Global Instance item_le_total : Total item_le.
Proof. intros x y. apply KeyOrder.le_total. Qed.

(** ** Query results *)

Section SortedItems.

Implicit Types m : gmap string block_item.

Lemma sorted_items_perm m : sorted_items m ≡ₚ map_to_list m.
Proof. apply merge_sort_Permutation. Qed.

Lemma elem_of_sorted_items m k item :
  (k, item) ∈ sorted_items m ↔ m !! k = Some item.
Proof. by rewrite sorted_items_perm, elem_of_map_to_list. Qed.

Lemma sorted_items_NoDup_keys m : NoDup (sorted_items m).*1.
Proof. rewrite sorted_items_perm. apply NoDup_fst_map_to_list. Qed.

Lemma sorted_items_sorted m : StronglySorted item_le (sorted_items m).
Proof. apply StronglySorted_merge_sort; apply _. Qed.

Lemma length_sorted_items m : length (sorted_items m) = size m.
Proof. by rewrite sorted_items_perm, length_map_to_list. Qed.

(** The keys of a query result strictly increase. *)
Lemma sorted_items_strict m :
  StronglySorted (λ x y, Key.lt x.1 y.1) (sorted_items m).
Proof.
  pose proof (sorted_items_sorted m) as Hs.
  pose proof (sorted_items_NoDup_keys m) as Hn.
  induction Hs as [|x l Hs IH Hx]; [constructor|].
  rewrite fmap_cons in Hn. apply NoDup_cons in Hn as [Hnotin Hn].
  constructor; [by apply IH|].
  rewrite Forall_forall in Hx. apply Forall_forall. intros y Hy.
  specialize (Hx y Hy). apply KeyOrder.le_lt_or_eq in Hx as [|Heq]; [done|].
  exfalso. apply Hnotin. rewrite Heq. apply list_elem_of_fmap. by exists y.
Qed.

End SortedItems.

Lemma strict_sorted_NoDup (l : list (string * block_item)) :
  StronglySorted (λ x y, Key.lt x.1 y.1) l → NoDup l.
Proof.
  induction 1 as [|x l Hs IH Hx]; constructor; [|done].
  intros Hin. rewrite Forall_forall in Hx.
  by apply (KeyOrder.lt_irrefl x.1), Hx.
Qed.

Lemma strict_sorted_unique (l1 l2 : list (string * block_item)) :
  StronglySorted (λ x y, Key.lt x.1 y.1) l1 →
  StronglySorted (λ x y, Key.lt x.1 y.1) l2 →
  (∀ x, x ∈ l1 ↔ x ∈ l2) → l1 = l2.
Proof.
  intros H1 H2 Hel.
  apply (StronglySorted_unique_strong (λ x y, Key.lt x.1 y.1)); [|done..|].
  - intros x1 x2 _ _ Ha Hb. exfalso.
    apply (KeyOrder.lt_irrefl x1.1). eauto using KeyOrder.lt_trans.
  - apply NoDup_Permutation; auto using strict_sorted_NoDup.
Qed.

Lemma strict_sorted_filter (P : string * block_item → Prop)
    `{∀ x, Decision (P x)} (l : list (string * block_item)) :
  StronglySorted (λ x y, Key.lt x.1 y.1) l →
  StronglySorted (λ x y, Key.lt x.1 y.1) (filter P l).
Proof.
  induction 1 as [|x l Hs IH Hx]; [constructor|].
  rewrite filter_cons. destruct (decide (P x)); [|done].
  constructor; [done|].
  apply Forall_forall. intros y [_ Hy]%list_elem_of_filter.
  rewrite Forall_forall in Hx. by apply Hx.
Qed.

Lemma strict_sorted_app_lt (l1 l2 : list (string * block_item)) x y :
  StronglySorted (λ x y, Key.lt x.1 y.1) (l1 ++ l2) →
  x ∈ l1 → y ∈ l2 → Key.lt x.1 y.1.
Proof.
  intros Hs Hx Hy.
  exact (StronglySorted_app_1_elem_of (λ x y, Key.lt x.1 y.1) l1 l2 x y
           Hs Hx Hy).
Qed.

(** ** Scanning a partition page by page *)

Section Paged.

Variable page_limit : positive.
Variable pathname : string.

Lemma query_blocks_effect start t :
  effect_on (query_blocks page_limit pathname start) t
    {| Items := take (Pos.to_nat page_limit)
                  (filter (λ kv, after start kv = true)
                     (sorted_items (blocks_of t pathname)));
       LastEvaluatedKey :=
         match drop (Pos.to_nat page_limit)
                 (filter (λ kv, after start kv = true)
                    (sorted_items (blocks_of t pathname))) with
         | [] => None
         | _ :: _ =>
             fst <$> last (take (Pos.to_nat page_limit)
                             (filter (λ kv, after start kv = true)
                                (sorted_items (blocks_of t pathname))))
         end |}
    t [Sent (Query (BL pathname) start)].
Proof. intros s <-. by eexists. Qed.

Context {A : Type}.
Variable body : A → string * block_item → M A.
Variable Inv : list (string * block_item) → A → table → Prop.
Variable Qev : event → Prop.
Variable m0 : gmap string block_item.

(** The table still holds what the scan has not reached. *)
Let agrees_outside (visited : list (string * block_item)) (t : table) : Prop :=
  ∀ r, r ∉ visited.*1 → blocks_of t pathname !! r = m0 !! r.

Hypothesis body_step : ∀ visited kv rest a t,
  sorted_items m0 = visited ++ kv :: rest →
  Inv visited a t → agrees_outside visited t →
  ∃ a' t' evs,
    effect_on (body a kv) t a' t' evs
    ∧ Inv (visited ++ [kv]) a' t'
    ∧ (∀ r, r ≠ kv.1 →
            blocks_of t' pathname !! r = blocks_of t pathname !! r)
    ∧ Forall Qev evs.

Lemma foldM_page page : ∀ visited rest a t,
  sorted_items m0 = visited ++ page ++ rest →
  Inv visited a t → agrees_outside visited t →
  ∃ a' t' evs,
    effect_on (foldM body page a) t a' t' evs
    ∧ Inv (visited ++ page) a' t'
    ∧ agrees_outside (visited ++ page) t'
    ∧ Forall Qev evs.
Proof.
  induction page as [|kv page IH]; intros visited rest a t Hitems HI Hag.
  { exists a, t, []. rewrite app_nil_r.
    split; [apply effect_on_ret|]. split; [done|]. split; [done|constructor]. }
  destruct (body_step visited kv (page ++ rest) a t Hitems HI Hag)
    as (a1 & t1 & evs1 & Hrun1 & HI1 & Hframe & Hev1).
  destruct (IH (visited ++ [kv]) rest a1 t1) as (a' & t' & evs & Hrun & HI' & Hag' & Hev).
  - by rewrite <-app_assoc.
  - done.
  - intros r Hr. rewrite Hframe.
    + apply Hag. intros Hin. apply Hr. rewrite fmap_app.
      apply elem_of_app. by left.
    + intros ->. apply Hr. rewrite fmap_app. apply elem_of_app. right.
      rewrite fmap_cons. left.
  - exists a', t', (evs1 ++ evs). rewrite <-app_assoc in HI', Hag'.
    split; [|split; [done|split; [done|]]].
    + cbn [foldM]. eapply effect_on_bind; [exact Hrun1|exact Hrun].
    + apply Forall_app. done.
Qed.

(** What a Query returns from the current table is the part of the initial
    listing that has not been visited. *)
Lemma query_rest visited rest t :
  sorted_items m0 = visited ++ rest →
  agrees_outside visited t →
  filter (λ kv, after (fst <$> last visited) kv = true)
    (sorted_items (blocks_of t pathname))
  = rest.
Proof.
  intros Hitems Hag.
  pose proof (sorted_items_strict m0) as Hs0. rewrite Hitems in Hs0.
  apply strict_sorted_unique.
  - apply strict_sorted_filter, sorted_items_strict.
  - by apply StronglySorted_app_1_r in Hs0.
  - intros [k item]. rewrite list_elem_of_filter, elem_of_sorted_items.
    assert ((k, item) ∈ rest → k ∉ visited.*1) as Hfresh.
    { intros Hin Hk. apply list_elem_of_fmap in Hk as ([k' item'] & -> & Hk).
      apply (KeyOrder.lt_irrefl k'). cbn in *.
      by apply (strict_sorted_app_lt visited rest (k', item') (k', item)). }
    split.
    + intros [Hafter Hlook].
      assert (k ∉ visited.*1) as Hk.
      { intros Hk. apply list_elem_of_fmap in Hk as ([k' item'] & -> & Hk).
        cbn in *. destruct visited as [|v visited _] using rev_ind;
          [by apply elem_of_nil in Hk|].
        rewrite last_snoc in Hafter. cbn in Hafter.
        apply elem_of_app in Hk as [Hk|Hk%list_elem_of_singleton].
        - apply StronglySorted_app_1_l in Hs0.
          pose proof (strict_sorted_app_lt visited [v] (k', item') v Hs0 Hk
                        ltac:(left)) as Hlt.
          apply (KeyOrder.lt_irrefl k'). cbn in Hlt.
          eauto using KeyOrder.lt_trans.
        - subst v. by apply (KeyOrder.lt_irrefl k'). }
      rewrite Hag in Hlook by done.
      apply elem_of_sorted_items in Hlook. rewrite Hitems in Hlook.
      apply elem_of_app in Hlook as [Hin|Hin]; [|done].
      exfalso. apply Hk. apply list_elem_of_fmap. by exists (k, item).
    + intros Hin. split.
      * destruct visited as [|v visited _] using rev_ind; [done|].
        rewrite last_snoc. cbn.
        apply (strict_sorted_app_lt (visited ++ [v]) rest v (k, item) Hs0);
          [|done].
        apply elem_of_app. right. left.
      * rewrite Hag by auto. apply elem_of_sorted_items. rewrite Hitems.
        apply elem_of_app. by right.
Qed.

Lemma paged_rule fuel : ∀ visited rest a t,
  sorted_items m0 = visited ++ rest →
  (length rest < fuel)%nat →
  Inv visited a t → agrees_outside visited t →
  ∃ a' t' evs,
    effect_on (paged page_limit fuel pathname body (fst <$> last visited) a)
      t a' t' evs
    ∧ Inv (sorted_items m0) a' t'
    ∧ agrees_outside (sorted_items m0) t'
    ∧ Forall (λ e, Qev e ∨ ∃ start, e = Sent (Query (BL pathname) start)) evs.
Proof.
  induction fuel as [|fuel IH]; intros visited rest a t Hitems Hfuel HI Hag;
    [lia|].
  set (n := Pos.to_nat page_limit).
  assert (0 < n)%nat as Hn by (unfold n; lia).
  pose proof (query_rest visited rest t Hitems Hag) as Hquery.
  pose proof (query_blocks_effect (fst <$> last visited) t) as Hq.
  rewrite Hquery in Hq. fold n in Hq.
  destruct (foldM_page (take n rest) visited (drop n rest) a t)
    as (a1 & t1 & evs1 & Hrun1 & HI1 & Hag1 & Hev1);
    [by rewrite take_drop|done..|].
  assert (Forall (λ e, Qev e ∨ ∃ start, e = Sent (Query (BL pathname) start))
            evs1) as Hev1'.
  { eapply Forall_impl; [exact Hev1|]. by left. }
  destruct (drop n rest) as [|kv rest'] eqn:Hdrop.
  - (* last page *)
    exists a1, t1, ([Sent (Query (BL pathname) (fst <$> last visited))] ++ evs1 ++ []).
    assert (take n rest = rest) as Htake.
    { rewrite <-(take_drop n rest) at 2. by rewrite Hdrop, app_nil_r. }
    split; [|split; [|split]].
    + cbn [paged]. eapply effect_on_bind; [exact Hq|]. cbn [Items].
      eapply effect_on_bind; [exact Hrun1|]. cbn [LastEvaluatedKey].
      apply effect_on_ret.
    + by rewrite Hitems, <-Htake.
    + by rewrite Hitems, <-Htake.
    + constructor; [right; eauto|]. by rewrite app_nil_r.
  - (* more pages *)
    assert (take n rest ≠ []) as Hpage.
    { intros Hnil. apply take_nil_inv in Hnil as [|Hnil]; [lia|].
      by rewrite Hnil, drop_nil in Hdrop. }
    assert (last (visited ++ take n rest) = last (take n rest)) as Hlast.
    { destruct (take n rest) as [|x l _] using rev_ind; [done|].
      by rewrite app_assoc, !last_snoc. }
    destruct (IH (visited ++ take n rest) (kv :: rest') a1 t1)
      as (a' & t' & evs & Hrun & HI' & Hag' & Hev).
    + by rewrite <-app_assoc, <-Hdrop, take_drop.
    + assert (length (drop n rest) < length rest)%nat as Hlt;
        [|rewrite Hdrop in Hlt; lia].
      rewrite length_drop. destruct rest; [by rewrite drop_nil in Hdrop|].
      cbn [length]. lia.
    + done.
    + done.
    + exists a', t',
        ([Sent (Query (BL pathname) (fst <$> last visited))] ++ evs1 ++ evs).
      split; [|split; [done|split; [done|]]].
      * cbn [paged]. eapply effect_on_bind; [exact Hq|]. cbn [Items].
        eapply effect_on_bind; [exact Hrun1|]. cbn [LastEvaluatedKey].
        rewrite Hlast in Hrun.
        destruct (last (take n rest)) as [x|] eqn:Hl.
        -- exact Hrun.
        -- apply last_None in Hl. done.
      * constructor; [right; eauto|]. by apply Forall_app.
Qed.

(** The rule for a whole scan: an invariant over the items visited so far,
    kept by a body that touches only the item it is given. *)
Lemma scan_rule a t :
  m0 = blocks_of t pathname →
  Inv [] a t →
  ∃ a' t' evs,
    effect_on (scan page_limit pathname body a) t a' t' evs
    ∧ Inv (sorted_items m0) a' t'
    ∧ agrees_outside (sorted_items m0) t'
    ∧ Forall (λ e, Qev e ∨ ∃ start, e = Sent (Query (BL pathname) start)) evs.
Proof.
  intros Hm0 HI.
  destruct (paged_rule (S (size m0)) [] (sorted_items m0) a t)
    as (a' & t' & evs & Hrun & HI' & Hag' & Hev).
  - done.
  - rewrite length_sorted_items. lia.
  - done.
  - intros r _. by rewrite Hm0.
  - exists a', t', evs. split; [|done].
    unfold scan. eapply effect_on_eq.
    + eapply effect_on_bind; [apply effect_on_get_table|].
      rewrite <-Hm0. exact Hrun.
    + done.
    + done.
    + done.
Qed.

End Paged.

(** ** Listings *)


Lemma sorted_items_of_listing (m : gmap string block_item) l :
  StronglySorted (λ x y, Key.lt x.1 y.1) l →
  (∀ k item, m !! k = Some item ↔ (k, item) ∈ l) →
  sorted_items m = l.
Proof.
  intros Hs Hl. apply strict_sorted_unique; [apply sorted_items_strict|done|].
  intros [k item]. by rewrite elem_of_sorted_items.
Qed.

Lemma len_concat_chunks_cons kv l :
  len (concat (chunks (kv :: l)))
  = len (item_data kv.2) + len (concat (chunks l)).
Proof. unfold chunks. rewrite fmap_cons. cbn [concat]. apply len_app. Qed.

Lemma sum_data_listing (m : gmap string block_item) :
  sum_data m = len (concat (chunks (sorted_items m))).
Proof.
  unfold sum_data. rewrite map_fold_foldr.
  transitivity (foldr (uncurry (λ (_ : string) item acc,
                                  len (item_data item) + acc)) 0
                  (sorted_items m)).
  - pose proof (sorted_items_perm m) as Hp. symmetry in Hp.
    induction Hp as [|x l1 l2 _ IH|x y l|l1 l2 l3 _ IH1 _ IH2]; cbn [foldr].
    + done.
    + by rewrite IH.
    + destruct x, y. cbn [uncurry]. lia.
    + by rewrite IH1.
  - induction (sorted_items m) as [|[k item] l IH]; [done|].
    rewrite len_concat_chunks_cons. cbn [foldr uncurry]. by rewrite IH.
Qed.


Lemma data_total_content t pathname :
  data_total t pathname = len (file_content t pathname).
Proof. apply sum_data_listing. Qed.

(** ** The listing after a truncate *)








(** ** xTruncate *)



Section Truncate.

Variable page_limit : positive.
Variable key_prefix : string.





End Truncate.




Section TruncateSpec.

Variable page_limit : positive.
Variable key_prefix : string.


End TruncateSpec.

(** ** Files in the data-model state *)

Section Conditions.

Variable pathname : string.





End Conditions.


(** ** The size counter after a write or a truncate *)

(** C1 at failing inputs.  On a new file, [xWrite(b'\x01', 0)] with block
    size 4 stores block 0 with its one byte and then sends the one update of
    the size counter, [ADD size :dsize] with [dsize = 1]; the store refuses
    the expression, the call raises, and the counter is left at 0 while the
    blocks hold 1 byte.  On a file of one block of two bytes whose counter is
    2, [xTruncate(1)] cuts the block to one byte and ends the same way: the
    counter is left at 2 while the blocks hold 1 byte. *)
Theorem size_counter_left_behind :
  (let s := State empty_table 0 [] in
   ∃ s', xWrite "db" 4 [x01] 0 s
         = (Raise (ClientError "ValidationException"), s')
         ∧ st_trace s'
           = [Sent (GetItem (BL "db") (Key.fmt10 0));
              Sent (PutItem (BL "db") (Key.fmt10 0)
                      [("data"%string, VBin [x01]); ("size"%string, VNum 1)]
                      None);
              Sent (UpdateItem "FSIZE" "db" [ADD "size" 1] None)]
         ∧ block_bytes (st_table s') "db" 0 = [x01]
         ∧ data_total (st_table s') "db" = 1
         ∧ get_total (st_table s') "db" = 0)
  ∧ (let t := set_fsize "db" 2 (put_bytes "db" 0 [x01; x02] empty_table) in
     let s := State t 0 [] in
     get_total t "db" = data_total t "db"
     ∧ ∃ s', xTruncate 2 "db" 1 s
             = (Raise (ClientError "ValidationException"), s')
             ∧ last (st_trace s')
               = Some (Sent (UpdateItem "FSIZE" "db" [ADD "size" (-1)] None))
             ∧ block_bytes (st_table s') "db" 0 = [x01]
             ∧ data_total (st_table s') "db" = 1
             ∧ get_total (st_table s') "db" = 2).
Proof.
  split.
  - eexists. split; [vm_compute; reflexivity|].
    repeat split; vm_compute; reflexivity.
  - split; [vm_compute; reflexivity|].
    eexists. split; [vm_compute; reflexivity|].
    repeat split; vm_compute; reflexivity.
Qed.

(** ** Ten-digit keys sort like numbers *)

Module KeyWidth.
Import Key.

Lemma zfill_zero k s : zfill k (String "0" s) = String "0" (zfill k s).
Proof. induction k as [|k IH]; [done|]. cbn [zfill]. by rewrite IH. Qed.

Lemma fixed_zero w : ∀ s, fixed w 0 s = zfill w s.
Proof.
  induction w as [|w IH]; intros s; [done|].
  cbn [fixed zfill]. change (0 / 10) with 0. change (0 mod 10) with 0.
  change (digit_char 0) with "0"%char. by rewrite IH, zfill_zero.
Qed.

Lemma length_fixed w : ∀ n s, String.length (fixed w n s) = (w + String.length s)%nat.
Proof.
  induction w as [|w IH]; intros n s; [done|].
  cbn [fixed]. rewrite IH. cbn [String.length]. lia.
Qed.

Lemma dec_aux_fixed fuel : ∀ (w : nat) n acc,
  (1 <= w)%nat → 0 <= n < 10 ^ Z.of_nat w → n < 2 ^ Z.of_nat fuel →
  (String.length (dec_aux fuel n acc) <= w + String.length acc)%nat
  ∧ zfill (w + String.length acc - String.length (dec_aux fuel n acc))
      (dec_aux fuel n acc)
    = fixed w n acc.
Proof.
  induction fuel as [|fuel IH]; intros w n acc Hw Hn Hf.
  { assert (n = 0) as -> by (cbn in Hf; lia). cbn [dec_aux].
    split; [lia|]. rewrite fixed_zero. f_equal. lia. }
  destruct w as [|w]; [lia|].
  rewrite Nat2Z.inj_succ, Z.pow_succ_r in Hn, Hf by lia.
  pose proof (Z.div_mod n 10 ltac:(lia)) as Hdm.
  pose proof (Z.mod_pos_bound n 10 ltac:(lia)) as Hm.
  assert (0 <= n / 10) by (apply Z.div_pos; lia).
  cbn [dec_aux fixed]. destruct (n / 10 =? 0) eqn:E.
  - apply Z.eqb_eq in E. rewrite E, fixed_zero. cbn [String.length].
    split; [lia|]. f_equal. lia.
  - apply Z.eqb_neq in E.
    assert (1 <= w)%nat as Hw'.
    { destruct w; [|lia]. cbn in Hn. lia. }
    destruct (IH w (n / 10) (String (digit_char (n mod 10)) acc) Hw')
      as [Hlen Heq]; [lia|lia|].
    cbn [String.length] in Hlen, Heq.
    split; [lia|]. rewrite <-Heq. f_equal. lia.
Qed.

(** Below [10^10] the formatted key is the ten digits of the number. *)
Lemma fmt10_fixed n : 0 <= n < 10 ^ 10 → fmt10 n = fixed 10 n "".
Proof.
  intros Hn. unfold fmt10.
  replace (n <? 0) with false by (symmetry; apply Z.ltb_ge; lia).
  cbv zeta. unfold str.
  destruct (dec_aux_fixed (S (Z.to_nat (Z.log2 n))) 10 n "") as [Hlen Heq];
    [lia|done| |].
  - destruct (decide (n = 0)) as [->|]; [done|].
    rewrite Nat2Z.inj_succ, Z2Nat.id by apply Z.log2_nonneg.
    apply Z.log2_spec. lia.
  - rewrite <-Heq. f_equal.
Qed.

Lemma length_fmt10 n : 0 <= n < 10 ^ 10 → String.length (fmt10 n) = 10%nat.
Proof. intros Hn. by rewrite fmt10_fixed, length_fixed. Qed.

Lemma digit_char_compare x y :
  0 <= x <= 9 → 0 <= y <= 9 →
  Ascii.compare (digit_char x) (digit_char y) = (x ?= y).
Proof.
  intros Hx Hy.
  assert (x = 0 ∨ x = 1 ∨ x = 2 ∨ x = 3 ∨ x = 4 ∨ x = 5 ∨ x = 6 ∨ x = 7
          ∨ x = 8 ∨ x = 9) as Hx' by lia.
  assert (y = 0 ∨ y = 1 ∨ y = 2 ∨ y = 3 ∨ y = 4 ∨ y = 5 ∨ y = 6 ∨ y = 7
          ∨ y = 8 ∨ y = 9) as Hy' by lia.
  destruct Hx' as [->|[->|[->|[->|[->|[->|[->|[->|[->| ->]]]]]]]]];
    destruct Hy' as [->|[->|[->|[->|[->|[->|[->|[->|[->| ->]]]]]]]]];
    reflexivity.
Qed.

Lemma fixed_compare w : ∀ a b s1 s2,
  0 <= a < 10 ^ Z.of_nat w → 0 <= b < 10 ^ Z.of_nat w →
  String.compare (fixed w a s1) (fixed w b s2)
  = match a ?= b with
    | Eq => String.compare s1 s2
    | c => c
    end.
Proof.
  induction w as [|w IH]; intros a b s1 s2 Ha Hb.
  { assert (a = 0) as -> by (cbn in Ha; lia).
    assert (b = 0) as -> by (cbn in Hb; lia). done. }
  rewrite Nat2Z.inj_succ, Z.pow_succ_r in Ha, Hb by lia.
  pose proof (Z.div_mod a 10 ltac:(lia)) as Hda.
  pose proof (Z.mod_pos_bound a 10 ltac:(lia)) as Hma.
  pose proof (Z.div_mod b 10 ltac:(lia)) as Hdb.
  pose proof (Z.mod_pos_bound b 10 ltac:(lia)) as Hmb.
  assert (0 <= a / 10) by (apply Z.div_pos; lia).
  assert (0 <= b / 10) by (apply Z.div_pos; lia).
  cbn [fixed]. rewrite IH by lia. cbn [String.compare].
  rewrite digit_char_compare by lia.
  destruct (Z.compare_spec (a / 10) (b / 10)) as [Hq|Hq|Hq].
  - destruct (Z.compare_spec (a mod 10) (b mod 10)) as [Hr|Hr|Hr].
    + by replace (a ?= b) with Eq by (symmetry; apply Z.compare_eq_iff; lia).
    + by replace (a ?= b) with Lt by (symmetry; apply Z.compare_lt_iff; lia).
    + by replace (a ?= b) with Gt by (symmetry; apply Z.compare_gt_iff; lia).
  - by replace (a ?= b) with Lt by (symmetry; apply Z.compare_lt_iff; lia).
  - by replace (a ?= b) with Gt by (symmetry; apply Z.compare_gt_iff; lia).
Qed.

(** Below [10^10], sort-key order is block-number order. *)
Lemma fmt10_lt a b : 0 <= a → a < b → b < 10 ^ 10 → Key.lt (fmt10 a) (fmt10 b).
Proof.
  intros Ha Hab Hb. apply KeyOrder.lt_spec.
  rewrite !fmt10_fixed by lia. rewrite fixed_compare by (cbn; lia).
  by replace (a ?= b) with Lt by (symmetry; apply Z.compare_lt_iff; lia).
Qed.

End KeyWidth.

(** ** The rechunker of deserialize_iter *)

Lemma take_app_split (a b : bytes) (k n : nat) :
  (k <= n)%nat → (k <= length a)%nat → (k = n ∨ k = length a) →
  take n (a ++ b) = take k a ++ take (n - k) (drop k a ++ b).
Proof.
  intros Hkn Hka [->| ->].
  - rewrite Nat.sub_diag, take_0, app_nil_r. by rewrite take_app_le.
  - rewrite (take_ge a (length a)), drop_all by lia. cbn [app].
    by rewrite take_app_ge by lia.
Qed.

Lemma up_to_iter_spec fuel : ∀ num st,
  0 <= num → offset_ok st →
  (Z.to_nat num + length st.2 + 1 <= fuel)%nat →
  ∃ pieces st',
    up_to_iter fuel num st = Some (pieces, st')
    ∧ concat pieces = take (Z.to_nat num) (remaining st)
    ∧ remaining st' = drop (Z.to_nat num) (remaining st)
    ∧ offset_ok st'
    ∧ (length st'.2 <= length st.2)%nat.
Proof.
  induction fuel as [|fuel IH]; intros num [[chunk offset] it] Hnum Hok Hfuel;
    [lia|].
  unfold offset_ok, remaining in *. cbn [fst snd] in *.
  cbn [up_to_iter]. destruct (num =? 0) eqn:E0.
  { apply Z.eqb_eq in E0 as ->. eexists [], _. split; [reflexivity|].
    cbn [fst snd]. by rewrite take_0, drop_0. }
  apply Z.eqb_neq in E0.
  (* the state once a chunk is at hand *)
  assert (∀ chunk' offset' it',
            0 <= offset' <= len chunk' →
            drop (Z.to_nat offset') chunk' ++ concat it'
            = drop (Z.to_nat offset) chunk ++ concat it →
            (length it' <= length it)%nat →
            (length it' < length it)%nat ∨ offset' < len chunk' →
            ∃ pieces st',
              (let to_yield := Z.min num (len chunk' - offset') in
               '(pieces, st') ← up_to_iter fuel (num - to_yield)
                                  (chunk', offset' + to_yield, it');
               Some (slice (offset' + to_yield - to_yield)
                       (offset' + to_yield) chunk' :: pieces, st'))
              = Some (pieces, st')
              ∧ concat pieces
                = take (Z.to_nat num) (drop (Z.to_nat offset) chunk ++ concat it)
              ∧ drop (Z.to_nat st'.1.2) st'.1.1 ++ concat st'.2
                = drop (Z.to_nat num)
                    (drop (Z.to_nat offset) chunk ++ concat it)
              ∧ 0 <= st'.1.2 <= len st'.1.1
              ∧ (length st'.2 <= length it)%nat) as Hstep.
  { intros chunk' offset' it' Hok' Hrem Hlen Hprogress. cbv zeta.
    set (to_yield := Z.min num (len chunk' - offset')).
    assert (0 <= to_yield) by (unfold to_yield; lia).
    destruct (IH (num - to_yield) (chunk', offset' + to_yield, it'))
      as (pieces & st' & Hrun & Hcat & Hrest & Hok'' & Hlen'').
    - lia.
    - unfold offset_ok. cbn [fst snd]. unfold to_yield. lia.
    - cbn [fst snd]. unfold len in *.
      destruct Hprogress as [Hp|Hp]; unfold to_yield in *; lia.
    - unfold remaining, offset_ok in *. cbn [fst snd] in *.
      rewrite Hrun. cbn.
      eexists _, st'. split; [reflexivity|]. cbn [concat].
      rewrite <-Hrem.
      assert (slice (offset' + to_yield - to_yield) (offset' + to_yield) chunk'
              = take (Z.to_nat to_yield) (drop (Z.to_nat offset') chunk'))
        as ->.
      { unfold slice. rewrite take_drop_commute. do 2 f_equal; lia. }
      assert (drop (Z.to_nat (offset' + to_yield)) chunk'
              = drop (Z.to_nat to_yield) (drop (Z.to_nat offset') chunk'))
        as Hdrop.
      { rewrite drop_drop. f_equal. lia. }
      rewrite Hdrop in Hcat, Hrest.
      split; [|split; [|split; [done|lia]]].
      + rewrite Hcat.
        rewrite (take_app_split (drop (Z.to_nat offset') chunk') (concat it')
                   (Z.to_nat to_yield) (Z.to_nat num)).
        * do 2 f_equal. lia.
        * unfold to_yield. lia.
        * rewrite length_drop. unfold to_yield, len in *. lia.
        * rewrite length_drop. unfold to_yield, len in *. lia.
      + rewrite Hrest.
        replace (Z.to_nat num)
          with (Z.to_nat to_yield + Z.to_nat (num - to_yield))%nat
          by (unfold to_yield; lia).
        rewrite <-drop_drop. f_equal.
        rewrite drop_app_le; [done|].
        rewrite length_drop. unfold to_yield, len in *. lia. }
  destruct (offset =? len chunk) eqn:E.
  - apply Z.eqb_eq in E. destruct it as [|c it].
    + (* StopIteration *)
      eexists [], _. split; [reflexivity|]. cbn [fst snd concat].
      rewrite drop_ge by (unfold len in *; lia). cbn [app].
      by rewrite take_nil, drop_nil.
    + destruct (Hstep c 0 it) as (pieces & st' & Hrun & Hrest);
        [pose proof (len_nonneg c); lia| |cbn; lia|left; cbn; lia|].
      { cbn [concat]. rewrite (drop_ge chunk) by (unfold len in *; lia). done. }
      exists pieces, st'. split; [exact Hrun|]. exact Hrest.
  - apply Z.eqb_neq in E.
    destruct (Hstep chunk offset it) as (pieces & st' & Hrun & Hrest);
      [done|done|done|right; lia|].
    exists pieces, st'. split; [exact Hrun|done].
Qed.

(** ** Repacking *)

Section Rechunk.

Variable n : nat.
Hypothesis n_pos : (1 <= n)%nat.

Lemma rechunk_fuel f : ∀ f' (l : bytes),
  (length l <= f)%nat → (length l <= f')%nat → rechunk f n l = rechunk f' n l.
Proof.
  induction f as [|f IH]; intros f' l Hf Hf'.
  { destruct l; [|cbn in Hf; lia]. by destruct f'. }
  destruct l as [|b l]; [by destruct f'|].
  destruct f' as [|f']; [cbn in Hf'; lia|].
  cbn [rechunk]. f_equal. apply IH; rewrite length_drop; cbn [length] in *; lia.
Qed.

Lemma rechunk_cons f b (l : bytes) :
  (length (b :: l) <= f)%nat →
  rechunk f n (b :: l)
  = take n (b :: l)
    :: rechunk (length (drop n (b :: l))) n (drop n (b :: l)).
Proof.
  intros Hf. destruct f as [|f]; [cbn in Hf; lia|]. cbn [rechunk]. f_equal.
  apply rechunk_fuel; [|done]. rewrite length_drop. cbn [length] in *. lia.
Qed.

Lemma concat_rechunk f : ∀ l : bytes,
  (length l <= f)%nat → concat (rechunk f n l) = l.
Proof.
  induction f as [|f IH]; intros l Hf.
  { by destruct l; [|cbn in Hf; lia]. }
  destruct l as [|b l]; [done|].
  cbn [rechunk concat]. rewrite IH.
  - apply take_drop.
  - rewrite length_drop. cbn [length] in *. lia.
Qed.

(** Every chunk is non-empty and has at most [n] bytes; every chunk but the
    last has exactly [n]. *)
Lemma rechunk_sizes f : ∀ l : bytes,
  (length l <= f)%nat →
  Forall (λ c : bytes, (1 <= length c <= n)%nat) (rechunk f n l)
  ∧ ∀ i c, rechunk f n l !! i = Some c →
           (S i < length (rechunk f n l))%nat → length c = n.
Proof.
  induction f as [|f IH]; intros l Hf.
  { split; [constructor|]. intros i c H. by destruct l. }
  destruct l as [|b l]; [split; [constructor|done]|].
  cbn [rechunk].
  destruct (IH (drop n (b :: l))) as [Hall Hfull].
  { rewrite length_drop. cbn [length] in *. lia. }
  split.
  - constructor; [|done]. rewrite length_take. cbn [length]. lia.
  - intros [|i] c Hc Hlen.
    + injection Hc as <-. rewrite length_take.
      cbn [length] in Hlen.
      destruct (drop n (b :: l)) as [|b' l'] eqn:Hd.
      { destruct f; cbn in Hlen; lia. }
      assert (length (drop n (b :: l)) ≠ 0)%nat as Hne by (rewrite Hd; done).
      rewrite length_drop in Hne. lia.
    + cbn in Hc. apply (Hfull i c Hc). cbn [length] in Hlen. lia.
Qed.

End Rechunk.

(** ** deserialize_iter and serialize_iter *)

Lemma match_nonempty {A B} (l : list A) (x y : B) :
  l ≠ [] → match l with [] => x | _ :: _ => y end = y.
Proof. by destruct l. Qed.

Section Serializer.

Variable page_limit : positive.
Variable block_size : Z.
Hypothesis block_size_pos : 1 <= block_size.
Variable key_prefix : string.

Lemma put_block_effect block b t :
  effect_on (put_block key_prefix (Key.fmt10 block) b (len b)) t
    (blocks_of t key_prefix !! Key.fmt10 block)
    (put_bytes key_prefix block b t)
    [Sent (PutItem (BL key_prefix) (Key.fmt10 block)
             [("data"%string, VBin b); ("size"%string, VNum (len b))] None)].
Proof. intros s <-. eexists. split; [reflexivity|]. done. Qed.

Lemma put_size_effect total t :
  effect_on (put_size key_prefix total) t tt (set_fsize key_prefix total t)
    [Sent (PutItem "FSIZE" key_prefix [("size"%string, VNum total)] None)].
Proof. intros s <-. eexists. split; [reflexivity|]. done. Qed.

Lemma store_blocks_effect fuel : ∀ block total st t,
  offset_ok st → (length (remaining st) < fuel)%nat →
  ∃ evs,
    effect_on (store_blocks block_size fuel key_prefix block total st) t
      (total + len (remaining st))
      (stored key_prefix block (repack block_size (remaining st)) t) evs.
Proof.
  induction fuel as [|fuel IH]; intros block total st t Hok Hfuel; [lia|].
  destruct (up_to_iter_spec (Z.to_nat block_size + length st.2 + 1)
              block_size st) as (pieces & st' & Hrun & Hcat & Hrest & Hok' & _);
    [lia|done|lia|].
  destruct st as [[chunk offset] it]. cbn [snd] in Hrun.
  cbn [store_blocks]. rewrite Hrun.
  assert (∃ evs,
            effect_on
              (match concat pieces with
               | [] => mret total
               | _ :: _ =>
                   put_block key_prefix (Key.fmt10 block) (concat pieces)
                     (len (concat pieces));;
                   store_blocks block_size fuel key_prefix (block + 1)
                     (total + len (concat pieces)) st'
               end) t
              (total + len (remaining (chunk, offset, it)))
              (stored key_prefix block
                 (repack block_size (remaining (chunk, offset, it))) t) evs)
    as (evs & Hbody).
  { unfold repack.
    destruct (remaining (chunk, offset, it)) as [|b rem] eqn:Hrem.
    - (* the source is exhausted *)
      rewrite take_nil in Hcat. rewrite Hcat.
      exists []. eapply effect_on_eq; [apply effect_on_ret| |done..].
      unfold len. cbn. lia.
    - assert (concat pieces ≠ []) as Hne.
      { rewrite Hcat. destruct (Z.to_nat block_size) eqn:E; [lia|]. done. }
      rewrite rechunk_cons by (done || lia). cbn [stored].
      rewrite <-Hcat.
      destruct (IH (block + 1) (total + len (concat pieces)) st'
                  (put_bytes key_prefix block (concat pieces) t) Hok')
        as (evs & Hrec).
      { rewrite Hrest, length_drop. cbn [length] in *. lia. }
      rewrite Hrest in Hrec. unfold repack in Hrec.
      eexists. eapply effect_on_eq.
      + rewrite match_nonempty by done.
        eapply effect_on_bind; [apply put_block_effect|]. exact Hrec.
      + rewrite Hcat.
        rewrite <-(take_drop (Z.to_nat block_size) (b :: rem)) at 3.
        rewrite len_app. lia.
      + done.
      + done. }
  exists evs. eapply effect_on_eq.
  - eapply effect_on_bind; [by apply effect_on_lift_fuel|]. exact Hbody.
  - done.
  - done.
  - done.
Qed.

Lemma deserialize_iter_effect bytes_iter t :
  ∃ evs,
    effect_on (deserialize_iter block_size key_prefix bytes_iter) t tt
      (set_fsize key_prefix (len (concat bytes_iter))
         (stored key_prefix 0 (repack block_size (concat bytes_iter)) t))
      evs.
Proof.
  unfold deserialize_iter.
  destruct (store_blocks_effect
              (Z.to_nat (pending ([], 0, bytes_iter)) + 1) 0 0
              ([], 0, bytes_iter) t) as (evs & Hrun).
  - unfold offset_ok, len. cbn [fst snd length]. lia.
  - change (remaining ([], 0, bytes_iter)) with (concat bytes_iter).
    change (pending ([], 0, bytes_iter))
      with (len [] - 0 + len (concat bytes_iter)).
    unfold len. cbn [length]. lia.
  - unfold remaining in Hrun. cbn [fst snd] in Hrun.
    change (drop (Z.to_nat 0) [] ++ concat bytes_iter)
      with (concat bytes_iter) in Hrun.
    eexists. eapply effect_on_eq.
    + eapply effect_on_bind; [exact Hrun|]. apply put_size_effect.
    + done.
    + by rewrite Z.add_0_l.
    + done.
Qed.

Lemma serialize_iter_effect t :
  ∃ evs,
    effect_on (serialize_iter page_limit key_prefix) t
      (file_chunks t key_prefix) t evs.
Proof.
  destruct (scan_rule page_limit key_prefix
              (λ (out : list bytes) obj, mret (out ++ [item_data obj.2]))
              (λ visited out t', out = chunks visited ∧ t' = t)
              (λ _, True) (blocks_of t key_prefix)) with (a := @nil bytes) (t := t)
    as (out & t' & evs & Hrun & [-> ->] & _).
  - intros visited kv rest out t1 _ [-> ->] _.
    exists (chunks visited ++ [item_data kv.2]), t, [].
    split; [apply effect_on_ret|]. split; [|split; [done|constructor]].
    split; [|done]. unfold chunks. by rewrite fmap_app.
  - done.
  - done.
  - exists evs. exact Hrun.
Qed.

End Serializer.

(** ** The blocks a deserialize leaves, and their listing *)

Lemma rechunk_count (n : nat) f : ∀ l : bytes,
  (1 <= n)%nat → (length l <= f)%nat →
  (n * length (rechunk f n l) < length l + n)%nat.
Proof.
  induction f as [|f IH]; intros l Hn Hf.
  { destruct l; cbn in *; lia. }
  destruct l as [|b l]; [cbn; lia|].
  cbn [rechunk length].
  specialize (IH (drop n (b :: l)) Hn).
  rewrite length_drop in IH. cbn [length] in *.
  destruct (decide (n <= S (length l))%nat); [nia|].
  assert (drop n (b :: l) = []) as Hd by (apply drop_ge; cbn; lia).
  rewrite Hd. destruct f; cbn; lia.
Qed.

Lemma chunks_listing_from cs : ∀ block, chunks (listing_from block cs) = cs.
Proof.
  induction cs as [|c cs IH]; intros block; [done|].
  cbn [listing_from]. unfold chunks in *. rewrite fmap_cons. cbn. by rewrite IH.
Qed.

Lemma elem_of_listing_from cs : ∀ block k item,
  (k, item) ∈ listing_from block cs →
  ∃ i c, cs !! i = Some c ∧ k = Key.fmt10 (block + Z.of_nat i)
         ∧ item = BlockItem c (len c).
Proof.
  induction cs as [|c cs IH]; intros block k item Hin.
  { by apply elem_of_nil in Hin. }
  cbn [listing_from] in Hin. apply elem_of_cons in Hin as [[= -> ->]|Hin].
  - exists 0%nat, c. split; [done|]. split; [f_equal; lia|done].
  - destruct (IH _ _ _ Hin) as (i & c' & Hi & -> & ->).
    exists (S i), c'. split; [done|]. split; [f_equal; lia|done].
Qed.

Lemma listing_from_lookup cs : ∀ block i c,
  cs !! i = Some c →
  (Key.fmt10 (block + Z.of_nat i), BlockItem c (len c)) ∈ listing_from block cs.
Proof.
  induction cs as [|c0 cs IH]; intros block i c Hi; [done|].
  cbn [listing_from]. destruct i as [|i].
  - injection Hi as ->. rewrite Z.add_0_r. left.
  - right. replace (block + Z.of_nat (S i)) with (block + 1 + Z.of_nat i) by lia.
    by apply IH.
Qed.

Section Stored.

Variable pathname : string.

Lemma stored_lookup cs : ∀ block t k item,
  0 <= block →
  blocks_of (stored pathname block cs t) pathname !! k = Some item
  ↔ (k, item) ∈ listing_from block cs
    ∨ (blocks_of t pathname !! k = Some item
       ∧ k ∉ (listing_from block cs).*1).
Proof.
  induction cs as [|c cs IH]; intros block t k item Hb.
  { cbn. split; [intros H; right; split; [done|apply not_elem_of_nil]|].
    intros [H|[H _]]; [by apply elem_of_nil in H|done]. }
  cbn [stored listing_from]. rewrite IH by lia. rewrite fmap_cons. cbn [fst].
  assert (Key.fmt10 block ∉ (listing_from (block + 1) cs).*1) as Hfresh.
  { intros Hin. apply list_elem_of_fmap in Hin as ([k' item'] & Hk & Hin).
    cbn in Hk. subst k'.
    apply elem_of_listing_from in Hin as (i & c' & _ & Heq & _).
    apply KeyFacts.fmt10_inj in Heq; lia. }
  rewrite elem_of_cons, not_elem_of_cons.
  destruct (decide (k = Key.fmt10 block)) as [->|Hne].
  - unfold put_bytes. rewrite blocks_of_set_blocks, lookup_insert_eq. split.
    + intros [Hin|[Heq _]].
      * exfalso. apply Hfresh. apply list_elem_of_fmap. by eexists (_, _).
      * left. left. congruence.
    + intros [[Heq|Hin]|[_ [Hk _]]].
      * right. split; [congruence|done].
      * by left.
      * done.
  - rewrite lookup_put_bytes_ne by done. split.
    + intros [Hin|[Hl Hk]]; [left; by right|]. right. done.
    + intros [[Heq|Hin]|[Hl [_ Hk]]]; [congruence|by left|by right].
Qed.

Lemma get_total_stored cs : ∀ block t,
  get_total (stored pathname block cs t) pathname = get_total t pathname.
Proof.
  induction cs as [|c cs IH]; intros block t; [done|].
  cbn [stored]. by rewrite IH.
Qed.

End Stored.

(** Blocks numbered below [10^10] are listed in the order of their numbers. *)
Lemma listing_from_sorted cs : ∀ block,
  0 <= block → block + Z.of_nat (length cs) <= 10 ^ 10 →
  StronglySorted (λ x y, Key.lt x.1 y.1) (listing_from block cs).
Proof.
  induction cs as [|c cs IH]; intros block Hb Hfit; [constructor|].
  cbn [listing_from length] in *. constructor; [apply IH; lia|].
  apply Forall_forall. intros [k item] Hin.
  apply elem_of_listing_from in Hin as (i & c' & Hi & -> & _).
  apply lookup_lt_Some in Hi. cbn [fst].
  apply KeyWidth.fmt10_lt; lia.
Qed.

Lemma listing_from_width cs : ∀ block,
  0 <= block → block + Z.of_nat (length cs) <= 10 ^ 10 →
  Forall (λ kv, String.length kv.1 = 10%nat) (listing_from block cs).
Proof.
  intros block Hb Hfit. apply Forall_forall. intros [k item] Hin.
  apply elem_of_listing_from in Hin as (i & c' & Hi & -> & _).
  apply lookup_lt_Some in Hi. cbn [fst]. apply KeyWidth.length_fmt10. lia.
Qed.

(** ** Round trip *)

Section RoundTrip.

Variable page_limit : positive.
Variable block_size : Z.
Hypothesis block_size_pos : 1 <= block_size.
Variable key_prefix : string.

Lemma round_trip_effect bytes_iter t :
  ∃ evs,
    effect_on (deserialize_iter block_size key_prefix bytes_iter;;
               serialize_iter page_limit key_prefix) t
      (file_chunks
         (stored key_prefix 0 (repack block_size (concat bytes_iter)) t)
         key_prefix)
      (set_fsize key_prefix (len (concat bytes_iter))
         (stored key_prefix 0 (repack block_size (concat bytes_iter)) t))
      evs.
Proof.
  destruct (deserialize_iter_effect block_size block_size_pos key_prefix
              bytes_iter t) as (evs1 & Hrun1).
  destruct (serialize_iter_effect page_limit key_prefix
              (set_fsize key_prefix (len (concat bytes_iter))
                 (stored key_prefix 0
                    (repack block_size (concat bytes_iter)) t)))
    as (evs2 & Hrun2).
  exists (evs1 ++ evs2).
  eapply effect_on_bind; [exact Hrun1|exact Hrun2].
Qed.

Lemma stored_listing cs t :
  blocks_of t key_prefix = ∅ →
  Z.of_nat (length cs) <= 10 ^ 10 →
  sorted_items (blocks_of (stored key_prefix 0 cs t) key_prefix)
  = listing_from 0 cs.
Proof.
  intros Hempty Hfit. apply sorted_items_of_listing.
  - apply listing_from_sorted; lia.
  - intros k item. rewrite stored_lookup by done. rewrite Hempty, lookup_empty.
    split; [intros [H|[H _]]; done|by left].
Qed.

(** C8, as amended: for [block_size >= 1], a file with no blocks in the
    store and a byte source of at most [block_size * 10^10] bytes,
    [deserialize_iter] followed by [serialize_iter] yields chunks whose
    concatenation is the source: the source is repacked into chunks of
    exactly [block_size] bytes (the last possibly shorter, none empty),
    stored under the ten-digit zero-padded keys of 0, 1, 2, ..., the size
    counter is the number of bytes, and the chunks come back in ascending
    sort-key order. *)
Theorem deserialize_then_serialize (bytes_iter : list bytes) (s : state) :
  blocks_of (st_table s) key_prefix = ∅ →
  len (concat bytes_iter) <= block_size * 10 ^ 10 →
  ∃ out t' evs,
    effect (deserialize_iter block_size key_prefix bytes_iter;;
            serialize_iter page_limit key_prefix) s out t' evs
    ∧ concat out = concat bytes_iter
    ∧ Forall (λ c, 1 <= len c <= block_size) out
    ∧ (∀ i c, out !! i = Some c → (S i < length out)%nat →
              len c = block_size)
    ∧ sorted_items (blocks_of t' key_prefix) = listing_from 0 out
    ∧ Forall (λ kv, String.length kv.1 = 10%nat)
        (sorted_items (blocks_of t' key_prefix))
    ∧ get_total t' key_prefix = len (concat bytes_iter).
Proof.
  intros Hempty Hfit.
  destruct (round_trip_effect bytes_iter (st_table s)) as (evs & Hrun).
  set (stream := concat bytes_iter) in *.
  set (cs := repack block_size stream) in *.
  assert (1 <= Z.to_nat block_size)%nat as Hn by lia.
  assert (Z.of_nat (length cs) <= 10 ^ 10) as Hcount.
  { pose proof (rechunk_count (Z.to_nat block_size) (length stream) stream
                  Hn ltac:(lia)) as Hc.
    fold (repack block_size stream) in Hc. fold cs in Hc.
    unfold len in Hfit. nia. }
  pose proof (stored_listing cs (st_table s) Hempty Hcount) as Hlist.
  destruct (rechunk_sizes (Z.to_nat block_size) Hn (length stream) stream
              ltac:(lia)) as [Hsizes Hfull].
  fold (repack block_size stream) in Hsizes, Hfull. fold cs in Hsizes, Hfull.
  assert (file_chunks (stored key_prefix 0 cs (st_table s)) key_prefix = cs)
    as Hout.
  { unfold file_chunks. fold (chunks (sorted_items
      (blocks_of (stored key_prefix 0 cs (st_table s)) key_prefix))).
    by rewrite Hlist, chunks_listing_from. }
  rewrite Hout in Hrun.
  eexists cs, _, evs. split; [by apply Hrun|].
  split; [apply concat_rechunk; [done|unfold stream; lia]|].
  split.
  { eapply Forall_impl; [exact Hsizes|]. intros c Hc. cbv beta in Hc |- *. unfold len. lia. }
  split.
  { intros i c Hi Hlen. specialize (Hfull i c Hi Hlen). unfold len. lia. }
  rewrite blocks_of_set_fsize, Hlist.
  split; [done|]. split; [apply listing_from_width; lia|].
  apply get_total_set_fsize.
Qed.

End RoundTrip.

Lemma deserialize_then_serialize_witness :
  let source := [[x01; x02]; []; [x03; x04; x05; x06; x07]; [x08]] in
  ∃ out t' evs,
    effect (deserialize_iter 3 "db" source;; serialize_iter 2 "db")
      (State empty_table 0 []) out t' evs
    ∧ concat out = concat source
    ∧ Forall (λ c, 1 <= len c <= 3) out
    ∧ (∀ i c, out !! i = Some c → (S i < length out)%nat → len c = 3)
    ∧ sorted_items (blocks_of t' "db") = listing_from 0 out
    ∧ Forall (λ kv, String.length kv.1 = 10%nat)
        (sorted_items (blocks_of t' "db"))
    ∧ get_total t' "db" = len (concat source).
Proof.
  apply (deserialize_then_serialize 2 3 ltac:(lia) "db"
           [[x01; x02]; []; [x03; x04; x05; x06; x07]; [x08]]
           (State empty_table 0 [])).
  - reflexivity.
  - unfold len. simpl. lia.
Defined.

(** ** Beyond ten digits *)

Lemma singletons_concat (cs : list bytes) :
  Forall (λ c : bytes, (1 <= length c <= 1)%nat) cs →
  cs = (λ b, [b]) <$> concat cs.
Proof.
  induction 1 as [|c cs Hc _ IH]; [done|].
  destruct c as [|b [|b' c]]; cbn [length] in Hc; try lia.
  cbn [concat app fmap list_fmap]. f_equal. exact IH.
Qed.

Lemma repack_one (l : bytes) : repack 1 l = (λ b, [b]) <$> l.
Proof.
  unfold repack. change (Z.to_nat 1) with 1%nat.
  destruct (rechunk_sizes 1 ltac:(lia) (length l) l ltac:(lia)) as [Hall _].
  rewrite (singletons_concat _ Hall) at 1.
  by rewrite concat_rechunk by lia.
Qed.

(** With one byte per block, block number 10^10 gets the eleven-character
    key [10000000000], which sorts before [9999999999]: the listing in key
    order no longer ends with the last block. *)
Lemma round_trip_past_ten_digits (key_prefix : string) (N : nat) (t : table) :
  Z.of_nat N = 10000000000 →
  blocks_of t key_prefix = ∅ →
  concat (file_chunks (stored key_prefix 0
                         (repack 1 (replicate N x00 ++ [x01])) t) key_prefix)
  ≠ replicate N x00 ++ [x01]
  ∧ blocks_of (stored key_prefix 0 (repack 1 (replicate N x00 ++ [x01])) t)
      key_prefix !! "10000000000"%string
    = Some (BlockItem [x01] 1).
Proof.
  intros HN Hempty.
  set (stream := replicate N x00 ++ [x01]).
  set (cs := repack 1 stream).
  set (t' := stored key_prefix 0 cs t).
  assert (∀ k item, (k, item) ∈ sorted_items (blocks_of t' key_prefix)
                    ↔ (k, item) ∈ listing_from 0 cs) as Hmem.
  { intros k item. rewrite elem_of_sorted_items. unfold t'.
    rewrite stored_lookup by done. rewrite Hempty, lookup_empty.
    split; [intros [H|[H _]]; done|by left]. }
  assert (cs = ((λ b, [b]) <$> replicate N x00) ++ [[x01]]) as Hcs.
  { unfold cs. rewrite repack_one. unfold stream. by rewrite fmap_app. }
  assert (cs !! N = Some [x01]) as Hlast.
  { rewrite Hcs. rewrite lookup_app_r; rewrite length_fmap, length_replicate;
      [|lia]. by rewrite Nat.sub_diag. }
  assert (cs !! (N - 1)%nat = Some [x00]) as Hprev.
  { rewrite Hcs. rewrite lookup_app_l
      by (rewrite length_fmap, length_replicate; lia).
    rewrite list_lookup_fmap, lookup_replicate_2 by lia. done. }
  pose proof (listing_from_lookup cs 0 N [x01] Hlast) as Hin_last.
  pose proof (listing_from_lookup cs 0 (N - 1) [x00] Hprev) as Hin_prev.
  replace (0 + Z.of_nat N) with 10000000000 in Hin_last by lia.
  replace (0 + Z.of_nat (N - 1)) with 9999999999 in Hin_prev by lia.
  change (Key.fmt10 10000000000) with "10000000000"%string in Hin_last.
  change (Key.fmt10 9999999999) with "9999999999"%string in Hin_prev.
  change (len [x01]) with 1 in Hin_last.
  change (len [x00]) with 1 in Hin_prev.
  split; [|by apply elem_of_sorted_items, Hmem].
  intros Hsame.
  set (L := sorted_items (blocks_of t' key_prefix)) in *.
  assert (Forall (λ c : bytes, (1 <= length c <= 1)%nat) (chunks L)) as Hone.
  { apply Forall_fmap, Forall_forall. intros [k item] Hin.
    apply Hmem, elem_of_listing_from in Hin as (i & c & Hi & _ & ->).
    rewrite Hcs in Hi.
    apply lookup_app_Some in Hi as [Hi|[_ Hi]].
    - rewrite list_lookup_fmap in Hi.
      destruct (replicate N x00 !! i); [|done]. cbn in Hi.
      injection Hi as <-. unfold compose. cbn [snd item_data length]. lia.
    - destruct (i - _)%nat as [|j]; [|done]. cbn in Hi.
      injection Hi as <-. unfold compose. cbn [snd item_data length]. lia. }
  apply singletons_concat in Hone.
  unfold file_chunks in Hsame. fold L in Hsame. fold (chunks L) in Hsame.
  rewrite Hsame in Hone. unfold stream in Hone. rewrite fmap_app in Hone.
  unfold chunks in Hone.
  apply fmap_app_inv in Hone as (L1 & L2 & H1 & H2 & HL).
  destruct L2 as [|x [|x' L2]]; try done.
  cbn [fmap list_fmap] in H2. injection H2 as Hx.
  assert (x = ("10000000000"%string, BlockItem [x01] 1)) as ->.
  { assert (x ∈ L) as Hin
      by (rewrite HL, elem_of_app, list_elem_of_singleton; by right).
    destruct x as [k item]. pose proof Hin as Hin'.
    apply Hmem, elem_of_listing_from in Hin' as (i & c & Hi & -> & ->).
    cbn [snd item_data] in Hx. subst c.
    rewrite Hcs in Hi. apply lookup_app_Some in Hi as [Hi|[Hlen Hi]].
    - rewrite list_lookup_fmap in Hi.
      destruct (replicate N x00 !! i) as [b|] eqn:Hb; [|done].
      apply lookup_replicate_1 in Hb as [-> _]. done.
    - rewrite length_fmap, length_replicate in Hlen, Hi.
      destruct (i - N)%nat as [|j] eqn:Hj; [|done].
      replace (0 + Z.of_nat i) with 10000000000 by lia. done. }
  assert (("9999999999"%string, BlockItem [x00] 1) ∈ L1) as Hin1.
  { apply Hmem in Hin_prev. rewrite HL in Hin_prev.
    apply elem_of_app in Hin_prev as [H|H]; [done|].
    apply list_elem_of_singleton in H. done. }
  pose proof (sorted_items_strict (blocks_of t' key_prefix)) as Hsorted.
  fold L in Hsorted. rewrite HL in Hsorted.
  pose proof (strict_sorted_app_lt _ _ _ _ Hsorted Hin1
                (proj2 (list_elem_of_singleton _ _) eq_refl)) as Hlt.
  unfold Key.lt in Hlt. cbn [fst] in Hlt. vm_compute in Hlt. done.
Qed.

(** C8, as stated, fails for a source of more than [block_size * 10^10]
    bytes: with [block_size = 1] and a source of 10^10 zero bytes followed by
    one byte 1, both calls return, block number 10^10 is stored under the
    eleven-character key [10000000000], the query lists it before the key
    [9999999999], and the chunks yielded by [serialize_iter] do not
    concatenate to the source. *)
Lemma deserialize_then_serialize_past_ten_digits :
  let source := [replicate (Z.to_nat 10000000000) x00 ++ [x01]] in
  ∃ out t' evs,
    effect (deserialize_iter 1 "db" source;; serialize_iter 2 "db")
      (State empty_table 0 []) out t' evs
    ∧ concat out ≠ concat source
    ∧ blocks_of t' "db" !! "10000000000"%string = Some (BlockItem [x01] 1).
Proof.
  intros source.
  destruct (round_trip_effect 2 1 ltac:(lia) "db" source empty_table)
    as (evs & Hrun).
  eexists _, _, evs. split; [by apply Hrun|].
  rewrite blocks_of_set_fsize.
  assert (concat source = replicate (Z.to_nat 10000000000) x00 ++ [x01])
    as -> by (unfold source; cbn [concat]; apply app_nil_r).
  apply round_trip_past_ten_digits; [|done].
  apply Z2Nat.id. done.
Qed.

(** * Further properties *)

(** ** Sort keys *)

(** The sort key of a block number reads back as the number:
    [int(f'{n:010d}') = n], for negative numbers too (the key then starts
    with a minus sign). *)
Theorem sort_key_round_trip (n : Z) : Key.int (Key.fmt10 n) = Some n.
Proof.
  destruct (decide (0 <= n)) as [Hn|Hn]; [by apply KeyFacts.int_fmt10|].
  unfold Key.fmt10.
  replace (n <? 0) with true by (symmetry; apply Z.ltb_lt; lia).
  cbv zeta.
  pose proof (KeyFacts.zfill_nonempty (9 - String.length (Key.str (- n)))
                (Key.str (- n)) (KeyFacts.str_nonempty _)) as Hne.
  pose proof (KeyFacts.parse_zfill (9 - String.length (Key.str (- n)))
                (Key.str (- n))) as Hparse.
  rewrite KeyFacts.parse_str in Hparse by lia.
  destruct (Key.zfill _ _) as [|c s]; [done|].
  unfold Key.int. rewrite Hparse. cbn. f_equal. lia.
Qed.

(** Below 10^10 the keys have ten characters and the string order of the
    keys is the order of the block numbers. *)
Theorem sort_key_order (a b : Z) :
  0 <= a < 10 ^ 10 → 0 <= b < 10 ^ 10 →
  String.length (Key.fmt10 a) = 10%nat
  ∧ (Key.lt (Key.fmt10 a) (Key.fmt10 b) ↔ a < b).
Proof.
  intros Ha Hb. split; [by apply KeyWidth.length_fmt10|]. split.
  - intros Hlt. destruct (decide (a < b)) as [|Hge]; [done|]. exfalso.
    destruct (decide (a = b)) as [->|Hne].
    + by apply (KeyOrder.lt_irrefl (Key.fmt10 b)).
    + apply (KeyOrder.lt_irrefl (Key.fmt10 a)).
      eapply KeyOrder.lt_trans; [exact Hlt|].
      apply KeyWidth.fmt10_lt; lia.
  - intros Hlt. apply KeyWidth.fmt10_lt; lia.
Qed.

Lemma sort_key_order_witness :
  String.length (Key.fmt10 9) = 10%nat
  ∧ (Key.lt (Key.fmt10 9) (Key.fmt10 10) ↔ 9 < 10).
Proof. apply (sort_key_order 9 10); lia. Defined.

(** ** The byte range of a list of triples *)

Section Tiling.

Variable block_size : Z.
Hypothesis block_size_pos : 1 <= block_size.

Lemma blocks_loop_tile fuel : ∀ offset amount l,
  0 <= offset →
  blocks_loop block_size fuel offset amount = Some l →
  ∀ i tr, l !! i = Some tr →
    position block_size tr = offset + consumed (take i l)
    ∧ (i = 0%nat → tr.1.2 = offset mod block_size)
    ∧ ((0 < i)%nat → tr.1.2 = 0)
    ∧ ((S i < length l)%nat → tr.1.2 + tr.2 = block_size)
    ∧ ((S i = length l)%nat → consumed l = amount).
Proof.
  induction fuel as [|fuel IH]; intros offset amount l Ho Hl i tr Hi.
  { cbn [blocks_loop] in Hl. destruct (amount >? 0); [done|].
    injection Hl as <-. done. }
  cbn [blocks_loop] in Hl. destruct (amount >? 0) eqn:Hpos;
    [|injection Hl as <-; done].
  apply Z.gtb_lt in Hpos.
  set (start := offset mod block_size) in *.
  set (consume := Z.min (block_size - start) amount) in *.
  destruct (blocks_loop block_size fuel (offset + consume) (amount - consume))
    as [rest|] eqn:Hrest; [|done].
  cbn in Hl. injection Hl as <-.
  pose proof (Z.mod_pos_bound offset block_size ltac:(lia)) as Hstart.
  fold start in Hstart.
  pose proof (Z_div_mod_eq_full offset block_size) as Hdiv. fold start in Hdiv.
  assert (rest ≠ [] → consume = block_size - start) as Hfull.
  { intros Hne. destruct (decide (amount - consume <= 0)) as [Hle|Hgt].
    - rewrite blocks_loop_done in Hrest by done. by injection Hrest as <-.
    - unfold consume in *. lia. }
  destruct i as [|j].
  - injection Hi as <-. unfold position. cbn [fst snd take consumed foldr].
    split; [lia|]. split; [done|]. split; [lia|]. split.
    + cbn [length]. intros Hlen. rewrite Hfull; [lia|].
      intros ->. cbn in Hlen. lia.
    + cbn [length]. intros Hlen. destruct rest; [|done].
      cbn [snd consumed foldr].
      destruct (decide (amount - consume <= 0)) as [Hle|Hgt];
        [unfold consume in *; lia|].
      exfalso. clear IH.
      destruct fuel; cbn [blocks_loop] in Hrest;
        (replace (amount - consume >? 0) with true in Hrest
           by (symmetry; apply Z.gtb_lt; lia)); [done|].
      by destruct (blocks_loop _ _ _ _).
  - cbn [lookup list_lookup] in Hi.
    assert (0 <= offset + consume) as Ho' by (unfold consume; lia).
    destruct (IH (offset + consume) (amount - consume) rest Ho' Hrest j tr Hi)
      as (Hp & H0 & Hlater & Hfill & Hsum).
    cbn [take]. rewrite consumed_cons. cbn [snd].
    split; [lia|]. split; [done|]. split.
    + intros _. destruct j as [|j]; [|apply Hlater; lia].
      rewrite H0 by done. rewrite Hfull by (by destruct rest).
      replace (offset + (block_size - start))
        with ((offset / block_size + 1) * block_size) by lia.
      apply Z_mod_mult.
    + cbn [length]. split; [intros H; apply Hfill; lia|].
      intros H. rewrite consumed_cons. cbn [snd]. rewrite Hsum by lia. lia.
Qed.

(** The triples of [_blocks(offset, amount)] tile the byte range
    [offset, offset + amount) in order: each triple begins at the absolute
    position where the one before it ended, the first at [offset]; within
    its block a triple begins at [offset % block_size] if it is the first
    and at 0 otherwise, and it runs to the end of the block unless it is the
    last. *)
Theorem blocks_tile_range (offset amount : Z) (l : list (Z * Z * Z)) :
  0 <= offset →
  _blocks block_size offset amount = Some l →
  ∀ i tr, l !! i = Some tr →
    position block_size tr = offset + consumed (take i l)
    ∧ (i = 0%nat → tr.1.2 = offset mod block_size)
    ∧ ((0 < i)%nat → tr.1.2 = 0)
    ∧ ((S i < length l)%nat → tr.1.2 + tr.2 = block_size).
Proof.
  intros Ho Hl i tr Hi.
  destruct (blocks_loop_tile _ _ _ _ Ho Hl i tr Hi) as (H1 & H2 & H3 & H4 & _).
  done.
Qed.

End Tiling.

Lemma blocks_tile_range_witness :
  position 4 (2, 0, 4) = 6 + consumed (take 1 [(1, 2, 2); (2, 0, 4); (3, 0, 3)])
  ∧ (1%nat = 0%nat → (2, 0, 4).1.2 = 6 mod 4)
  ∧ ((0 < 1)%nat → (2, 0, 4).1.2 = 0)
  ∧ ((2 < length [(1, 2, 2); (2, 0, 4); (3, 0, 3)])%nat
     → (2, 0, 4).1.2 + (2, 0, 4).2 = 4).
Proof.
  apply (blocks_tile_range 4 ltac:(lia) 6 9 [(1, 2, 2); (2, 0, 4); (3, 0, 3)]
           ltac:(lia) eq_refl 1%nat (2, 0, 4) eq_refl).
Defined.

(** ** Files of the VFS: xOpen, xAccess, xDelete, xFileSize *)

Lemma delete_block_effect pathname k t :
  effect_on (delete_block pathname k) t (blocks_of t pathname !! k)
    (set_blocks pathname (delete k (blocks_of t pathname)) t)
    [Sent (DeleteItem (BL pathname) k)].
Proof. intros s <-. eexists. split; [reflexivity|]. done. Qed.

Lemma delete_access_effect pathname t :
  effect_on (delete_access pathname) t tt (unset_access pathname t)
    [Sent (DeleteItem "ACCESS" pathname)].
Proof. intros s <-. eexists. split; [reflexivity|]. done. Qed.

Lemma put_access_effect pathname t :
  effect_on (put_access pathname) t tt (set_access pathname t)
    [Sent (PutItem "ACCESS" pathname [] None)].
Proof. intros s <-. eexists. split; [reflexivity|]. done. Qed.

Lemma get_size_effect pathname t :
  effect_on (xFileSize pathname) t (get_total t pathname) t
    [Sent (GetItem "FSIZE" pathname)].
Proof. intros s <-. eexists. split; [reflexivity|]. done. Qed.

Lemma xAccess_result pathname flags s :
  xAccess pathname flags s
  = (Ok ((flags =? SQLITE_ACCESS_EXISTS)
         && bool_decide (pathname ∈ t_access (st_table s))
         || negb (flags =? SQLITE_ACCESS_EXISTS)), s).
Proof.
  unfold xAccess, count_access, get_table, mbind, M_bind, mret, M_ret.
  by destruct (bool_decide _).
Qed.

Section FileOps.

Variable page_limit : positive.

Lemma xDelete_effect pathname syncdir t :
  ∃ t' evs0,
    effect_on (xDelete page_limit pathname syncdir) t tt t'
      (evs0 ++ [Sent (DeleteItem "ACCESS" pathname)])
    ∧ blocks_of t' pathname = ∅
    ∧ (∀ other, other ≠ pathname → blocks_of t' other = blocks_of t other)
    ∧ t_access t' = t_access t ∖ {[pathname]}
    ∧ t_fsize t' = t_fsize t
    ∧ t_lock t' = t_lock t
    ∧ Forall (λ e, (∃ k, is_Some (blocks_of t pathname !! k)
                         ∧ e = Sent (DeleteItem (BL pathname) k))
                   ∨ ∃ start, e = Sent (Query (BL pathname) start)) evs0.
Proof.
  set (m0 := blocks_of t pathname).
  set (Inv := λ (visited : list (string * block_item)) (_ : unit)
                (t' : table),
         (∀ other, other ≠ pathname → blocks_of t' other = blocks_of t other)
         ∧ t_access t' = t_access t
         ∧ t_fsize t' = t_fsize t
         ∧ t_lock t' = t_lock t
         ∧ ∀ k, k ∈ visited.*1 → blocks_of t' pathname !! k = None).
  destruct (scan_rule page_limit pathname
              (λ (_ : unit) obj, delete_block pathname obj.1;; mret tt)
              Inv
              (λ e, ∃ k, is_Some (m0 !! k)
                         ∧ e = Sent (DeleteItem (BL pathname) k))
              m0) with (a := tt) (t := t)
    as ([] & t1 & evs & Hrun & (Hother & Hacc & Hfs & Hlk & Hgone) & Hag & Hev).
  - intros visited [k item] rest [] t1 Hitems (Hother & Hacc & Hfs & Hlk & Hgone) Hag.
    eexists tt, _, _. split.
    { eapply effect_on_bind; [apply delete_block_effect|apply effect_on_ret]. }
    cbn [fst]. split; [|split].
    + unfold Inv. split; [|split; [done|split; [done|split; [done|]]]].
      * intros other Hne. by rewrite blocks_of_set_blocks_ne, Hother.
      * intros k' Hk'. rewrite blocks_of_set_blocks.
        destruct (decide (k' = k)) as [->|Hne]; [by rewrite lookup_delete_eq|].
        rewrite lookup_delete_ne by done. apply Hgone.
        rewrite fmap_app in Hk'. apply elem_of_app in Hk' as [Hk'|Hk']; [done|].
        cbn in Hk'. by apply list_elem_of_singleton in Hk'.
    + intros r Hr. rewrite blocks_of_set_blocks. by rewrite lookup_delete_ne.
    + rewrite app_nil_r. constructor; [|constructor]. exists k. split; [|done].
      exists item. apply elem_of_sorted_items. rewrite Hitems.
      apply elem_of_app. right. left.
  - done.
  - unfold Inv. repeat split; try done. intros k Hk. by apply elem_of_nil in Hk.
  - exists (unset_access pathname t1), evs.
    split; [|split; [|split; [done|split; [|split; [done|split; [done|]]]]]].
    + eapply effect_on_bind; [exact Hrun|apply delete_access_effect].
    + change (blocks_of t1 pathname = ∅). apply map_eq. intros k.
      rewrite lookup_empty.
      destruct (decide (k ∈ (sorted_items m0).*1)) as [Hin|Hout];
        [by apply Hgone|].
      rewrite Hag by done.
      destruct (m0 !! k) as [item|] eqn:Hk; [|done].
      exfalso. apply Hout. apply list_elem_of_fmap. exists (k, item).
      split; [done|]. by apply elem_of_sorted_items.
    + cbn. by rewrite Hacc.
    + done.
Qed.

(** [xDelete] removes every block of the file, whatever its sort key, and
    the ACCESS marker, with one DeleteItem for each stored block between the
    pages of the listing; the blocks and markers of other files, and the size
    counter and the lock record of this file, are left as they were. *)
Theorem xDelete_removes_blocks_and_marker pathname syncdir (s : state) :
  ∃ t' evs0,
    effect (xDelete page_limit pathname syncdir) s tt t'
      (evs0 ++ [Sent (DeleteItem "ACCESS" pathname)])
    ∧ blocks_of t' pathname = ∅
    ∧ (pathname ∉ t_access t')
    ∧ (∀ other, other ≠ pathname →
         blocks_of t' other = blocks_of (st_table s) other
         ∧ (other ∈ t_access t' ↔ other ∈ t_access (st_table s)))
    ∧ t_fsize t' = t_fsize (st_table s)
    ∧ t_lock t' = t_lock (st_table s)
    ∧ Forall (λ e, (∃ k, is_Some (blocks_of (st_table s) pathname !! k)
                         ∧ e = Sent (DeleteItem (BL pathname) k))
                   ∨ ∃ start, e = Sent (Query (BL pathname) start)) evs0.
Proof.
  destruct (xDelete_effect pathname syncdir (st_table s))
    as (t' & evs0 & Hrun & Hblocks & Hother & Hacc & Hfs & Hlk & Hev).
  exists t', evs0. split; [by apply Hrun|]. split; [done|].
  split.
  { rewrite Hacc, elem_of_difference, elem_of_singleton. by intros [_ Hn]. }
  split; [|done].
  intros other Hne. split; [by apply Hother|].
  rewrite Hacc, elem_of_difference, elem_of_singleton. tauto.
Qed.

(** After [xOpen(pathname)] the file exists for [xAccess], whatever the
    flags; opening leaves blocks, size counters and lock records alone. *)
Theorem xAccess_after_xOpen pathname oflags flags (s : state) :
  ∃ s', (xOpen pathname oflags;; xAccess pathname flags) s = (Ok true, s')
        ∧ st_table s' = set_access pathname (st_table s)
        ∧ t_blocks (st_table s') = t_blocks (st_table s)
        ∧ t_fsize (st_table s') = t_fsize (st_table s)
        ∧ t_lock (st_table s') = t_lock (st_table s).
Proof.
  destruct (put_access_effect pathname (st_table s) s eq_refl)
    as (s1 & Hopen & Ht1 & _).
  exists s1. unfold xOpen, init. rewrite (bind_ok _ _ _ _ _ Hopen).
  rewrite xAccess_result, Ht1. split; [|done].
  do 2 f_equal. rewrite bool_decide_eq_true_2
    by (cbn; apply elem_of_union; left; by apply elem_of_singleton).
  by destruct (flags =? SQLITE_ACCESS_EXISTS).
Qed.

(** After [xDelete(pathname)], [xAccess] answers an existence check with
    [False] and any other check with [True]. *)
Theorem xAccess_after_xDelete pathname syncdir flags (s : state) :
  ∃ s', (xDelete page_limit pathname syncdir;; xAccess pathname flags) s
        = (Ok (negb (flags =? SQLITE_ACCESS_EXISTS)), s').
Proof.
  destruct (xDelete_effect pathname syncdir (st_table s))
    as (t' & evs0 & Hrun & _ & _ & Hacc & _).
  destruct (Hrun s eq_refl) as (s1 & Hdel & Ht1 & _).
  exists s1. rewrite (bind_ok _ _ _ _ _ Hdel), xAccess_result, Ht1.
  do 2 f_equal. rewrite bool_decide_eq_false_2
    by (rewrite Hacc, elem_of_difference, elem_of_singleton; by intros [_ Hn]).
  by destruct (flags =? SQLITE_ACCESS_EXISTS).
Qed.

(** [xDelete] does not reset the size counter: [xFileSize] after the delete
    still returns the size the file had. *)
Theorem xFileSize_after_xDelete pathname syncdir (s : state) :
  ∃ t' evs,
    effect (xDelete page_limit pathname syncdir;; xFileSize pathname) s
      (get_total (st_table s) pathname) t' evs
    ∧ blocks_of t' pathname = ∅.
Proof.
  destruct (xDelete_effect pathname syncdir (st_table s))
    as (t' & evs0 & Hrun & Hblocks & _ & _ & Hfs & _).
  exists t', ((evs0 ++ [Sent (DeleteItem "ACCESS" pathname)])
              ++ [Sent (GetItem "FSIZE" pathname)]).
  split; [|done].
  assert (get_total (st_table s) pathname = get_total t' pathname) as ->
    by (unfold get_total; by rewrite Hfs).
  apply (effect_on_bind _ _ (st_table s) tt t'); [exact Hrun| |done].
  apply get_size_effect.
Qed.

End FileOps.

Lemma data_total_stored pathname cs : ∀ block t,
  0 <= block →
  (∀ k, block <= k → blocks_of t pathname !! Key.fmt10 k = None) →
  data_total (stored pathname block cs t) pathname
  = data_total t pathname + len (concat cs).
Proof.
  induction cs as [|c cs IH]; intros block t Hb Hfree.
  { cbn [stored concat]. unfold len. simpl. lia. }
  cbn [stored concat]. rewrite IH; [|lia|].
  - rewrite data_total_put, len_app. unfold block_bytes.
    rewrite Hfree by lia. unfold len. simpl. lia.
  - intros k Hk. rewrite lookup_put_bytes_ne; [apply Hfree; lia|].
    intros E. apply KeyFacts.fmt10_inj in E; lia.
Qed.

Section FileSize.

Variable key_prefix : string.
Variable block_size : Z.
Hypothesis block_size_pos : 1 <= block_size.

(** After [deserialize_iter] into a file without blocks, [xFileSize]
    returns the number of bytes of the source, which is the number of bytes
    the blocks hold; to the requests of [deserialize_iter] it adds the
    GetItem on the size counter and nothing else. *)
Theorem xFileSize_is_content_length (bytes_iter : list bytes) (s : state) :
  blocks_of (st_table s) key_prefix = ∅ →
  ∃ t' evs0,
    effect (deserialize_iter block_size key_prefix bytes_iter) s tt t' evs0
    ∧ effect (deserialize_iter block_size key_prefix bytes_iter;;
              xFileSize key_prefix) s
        (len (concat bytes_iter)) t'
        (evs0 ++ [Sent (GetItem "FSIZE" key_prefix)])
    ∧ len (file_content t' key_prefix) = len (concat bytes_iter).
Proof.
  intros Hempty.
  destruct (deserialize_iter_effect block_size block_size_pos key_prefix
              bytes_iter (st_table s)) as (evs0 & Hrun).
  eexists _, evs0. split; [by apply Hrun|]. split.
  - eapply effect_eq.
    + apply (effect_on_bind _ _ (st_table s) tt _ _ _ _ _ Hrun
               (get_size_effect key_prefix _) s eq_refl).
    + apply get_total_set_fsize.
    + done.
    + done.
  - rewrite <-data_total_content.
    change (data_total (set_fsize key_prefix (len (concat bytes_iter))
                          (stored key_prefix 0
                             (repack block_size (concat bytes_iter))
                             (st_table s))) key_prefix)
      with (data_total (stored key_prefix 0
                          (repack block_size (concat bytes_iter))
                          (st_table s)) key_prefix).
    rewrite data_total_stored; [|lia|].
    + unfold data_total, sum_data. rewrite Hempty, map_fold_empty.
      unfold repack. rewrite concat_rechunk by lia. lia.
    + intros k _. by rewrite Hempty, lookup_empty.
Qed.

End FileSize.

Lemma xFileSize_is_content_length_witness :
  let source := [[x01; x02; x03]; [x04; x05; x06; x07]] in
  ∃ t' evs0,
    effect (deserialize_iter 4 "db" source) (State empty_table 0 []) tt t' evs0
    ∧ effect (deserialize_iter 4 "db" source;; xFileSize "db")
        (State empty_table 0 []) (len (concat source)) t'
        (evs0 ++ [Sent (GetItem "FSIZE" "db")])
    ∧ len (file_content t' "db") = len (concat source).
Proof.
  apply (xFileSize_is_content_length "db" 4 ltac:(lia)
           [[x01; x02; x03]; [x04; x05; x06; x07]] (State empty_table 0 [])).
  apply blocks_of_empty.
Defined.

(** ** More of the lock protocol *)

Lemma lock_item_set_lock pathname it t :
  lock_item (set_lock pathname it t) pathname = it.
Proof. unfold lock_item, set_lock. cbn. by rewrite lookup_insert_eq. Qed.

Section Writers.

Variable key_prefix : string.
Variable client_id : string.

(** One step of the writer path of [xLock]: the UpdateItem that sets [level]
    and [owner] under [cond], then the assignment of the attained level. *)
Lemma writer_step_ok level cond s :
  holds (lock_item (st_table s) key_prefix) (Some cond) = true →
  effect_to
    (busy_if_check_failed
       (update_lock key_prefix
          [SET "level" (op_value (VNum level));
           SET "owner" (op_value (VStr client_id))] (Some cond));;
     set_attained level) s tt
    (set_lock key_prefix
       (<["owner" := VStr client_id]>
          (<["level" := VNum level]> (lock_item (st_table s) key_prefix)))
       (st_table s))
    level
    [Sent (UpdateItem "LK" key_prefix
             [SET "level" (op_value (VNum level));
              SET "owner" (op_value (VStr client_id))] (Some cond));
     Attained level].
Proof.
  intros Hc.
  eapply (effect_to_bind _ _ s tt _ _ [_] tt _ _ [_]).
  - apply busy_if_check_failed_ok.
    by apply (update_lock_effect key_prefix _ _ s
                (<["owner" := VStr client_id]>
                   (<["level" := VNum level]>
                      (lock_item (st_table s) key_prefix)))).
  - intros s1 Ht1 Ha1. rewrite <-Ht1. apply set_attained_effect.
Qed.

Lemma writer_step_busy level cond s :
  holds (lock_item (st_table s) key_prefix) (Some cond) = false →
  raises
    (busy_if_check_failed
       (update_lock key_prefix
          [SET "level" (op_value (VNum level));
           SET "owner" (op_value (VStr client_id))] (Some cond));;
     set_attained level) s BusyError (st_table s) (st_attained s)
    [Sent (UpdateItem "LK" key_prefix
             [SET "level" (op_value (VNum level));
              SET "owner" (op_value (VStr client_id))] (Some cond))].
Proof.
  intros Hc.
  by apply raises_bind_l, busy_if_check_failed_busy, update_lock_check_failed.
Qed.

Lemma writer_step_ok_inv level cond s s' :
  (busy_if_check_failed
     (update_lock key_prefix
        [SET "level" (op_value (VNum level));
         SET "owner" (op_value (VStr client_id))] (Some cond));;
   set_attained level) s = (Ok tt, s') →
  holds (lock_item (st_table s) key_prefix) (Some cond) = true
  ∧ held_by (st_table s') key_prefix client_id level
  ∧ st_attained s' = level.
Proof.
  intros H.
  destruct (holds (lock_item (st_table s) key_prefix) (Some cond)) eqn:Hc.
  - destruct (writer_step_ok level cond s Hc) as (s1 & Hrun & Ht & Ha & _).
    rewrite Hrun in H. injection H as <-. split; [done|]. split; [|done].
    rewrite Ht. unfold held_by. rewrite lock_item_set_lock.
    split; [by rewrite lookup_insert_eq|].
    rewrite lookup_insert_ne by done. by rewrite lookup_insert_eq.
  - destruct (writer_step_busy level cond s Hc) as (s1 & Hrun & _).
    rewrite Hrun in H. done.
Qed.

Lemma owner_free_holds (it : gmap string value) :
  holds it (Some (cond_or (attribute_not_exists "owner")
                    (owner_is_me client_id))) = true
  ↔ it !! "owner"%string = None ∨ it !! "owner"%string = Some (VStr client_id).
Proof.
  cbn [holds]. rewrite eval_cond_or, orb_true_iff.
  unfold owner_is_me. by rewrite attribute_not_exists_true, attr_eq_str.
Qed.

Lemma owner_is_me_holds (it : gmap string value) :
  holds it (Some (owner_is_me client_id)) = true
  ↔ it !! "owner"%string = Some (VStr client_id).
Proof. cbn [holds]. unfold owner_is_me. by rewrite attr_eq_str. Qed.

Lemma exclusive_cond_holds (it : gmap string value) :
  holds it (Some (cond_and (owner_is_me client_id)
                    (attr_eq "count" (VNum 1)))) = true
  ↔ it !! "owner"%string = Some (VStr client_id)
    ∧ it !! "count"%string = Some (VNum 1).
Proof.
  cbn [holds]. rewrite eval_cond_and, andb_true_iff.
  unfold owner_is_me. by rewrite attr_eq_str, attr_eq_num.
Qed.

Lemma relock_record (it : gmap string value) (l1 l2 : Z) :
  <["owner" := VStr client_id]>
    (<["level" := VNum l2]>
       (<["owner" := VStr client_id]> (<["level" := VNum l1]> it)))
  = <["owner" := VStr client_id]> (<["level" := VNum l2]> it).
Proof.
  apply map_eq. intros k.
  destruct (decide (k = "owner"%string)) as [->|Ho];
    [by rewrite !lookup_insert_eq|].
  rewrite !(lookup_insert_ne _ "owner"%string) by done.
  destruct (decide (k = "level"%string)) as [->|Hl];
    [by rewrite !lookup_insert_eq|].
  by repeat (rewrite lookup_insert_ne by congruence).
Qed.

(** [xLock(NONE)] and [xLock(PENDING)] fail their assertion before anything
    is sent or assigned. *)
Theorem xLock_rejects_none_and_pending (level : Z) (s : state) :
  level = SQLITE_LOCK_NONE ∨ level = SQLITE_LOCK_PENDING →
  xLock key_prefix client_id level s = (Raise AssertionError, s).
Proof. by intros [-> | ->]. Qed.

End Writers.

Lemma xLock_rejects_none_and_pending_witness :
  xLock "db" "me" SQLITE_LOCK_PENDING (State empty_table 0 [])
  = (Raise AssertionError, State empty_table 0 []).
Proof.
  apply (xLock_rejects_none_and_pending "db" "me" SQLITE_LOCK_PENDING).
  by right.
Defined.

Lemma set_lock_set_lock pathname it1 it2 t :
  set_lock pathname it2 (set_lock pathname it1 t) = set_lock pathname it2 t.
Proof. unfold set_lock. cbn. f_equal. apply insert_insert_eq. Qed.

Section WriterLocks.

Variable key_prefix : string.
Variable client_id : string.

(** [xLock(RESERVED)] on a handle at NONE or SHARED (or EXCLUSIVE): if the
    record has no owner or this client is the owner, the handle takes
    PENDING and then RESERVED with two UpdateItems, the second of which
    cannot fail, and the record ends with [level = RESERVED] and this client
    as the owner; otherwise the first UpdateItem fails, [BusyError] is
    raised, and neither the record nor the attained level changes. *)
Theorem xLock_reserved (s : state) :
  st_attained s ≠ SQLITE_LOCK_RESERVED →
  st_attained s ≠ SQLITE_LOCK_PENDING →
  let it := lock_item (st_table s) key_prefix in
  (it !! "owner"%string = None
   ∨ it !! "owner"%string = Some (VStr client_id) →
   effect_to (xLock key_prefix client_id SQLITE_LOCK_RESERVED) s tt
     (set_lock key_prefix
        (<["owner" := VStr client_id]>
           (<["level" := VNum SQLITE_LOCK_RESERVED]> it)) (st_table s))
     SQLITE_LOCK_RESERVED
     [Sent (pending_request key_prefix client_id);
      Attained SQLITE_LOCK_PENDING;
      Sent (reserved_request key_prefix client_id);
      Attained SQLITE_LOCK_RESERVED])
  ∧ (¬ (it !! "owner"%string = None
        ∨ it !! "owner"%string = Some (VStr client_id)) →
     raises (xLock key_prefix client_id SQLITE_LOCK_RESERVED) s BusyError
       (st_table s) (st_attained s)
       [Sent (pending_request key_prefix client_id)]).
Proof.
  intros Hres Hpen it.
  assert (xLock key_prefix client_id SQLITE_LOCK_RESERVED s
          = ((busy_if_check_failed
                (update_lock key_prefix
                   [SET "level" (op_value (VNum SQLITE_LOCK_PENDING));
                    SET "owner" (op_value (VStr client_id))]
                   (Some (cond_or (attribute_not_exists "owner")
                            (owner_is_me client_id))));;
              set_attained SQLITE_LOCK_PENDING);;
             busy_if_check_failed
               (update_lock key_prefix
                  [SET "level" (op_value (VNum SQLITE_LOCK_RESERVED));
                   SET "owner" (op_value (VStr client_id))]
                  (Some (owner_is_me client_id)));;
             set_attained SQLITE_LOCK_RESERVED) s) as Hunfold.
  { rewrite xLock_writer_unfold by (done || by apply not_eq_sym).
    by replace (st_attained s =? SQLITE_LOCK_PENDING) with false
      by (symmetry; by apply Z.eqb_neq). }
  split.
  - intros Howner. unfold effect_to. rewrite Hunfold.
    eapply (effect_to_bind _ _ s tt _ _ [_; _] tt _ _ [_; _]).
    + apply writer_step_ok. by apply owner_free_holds.
    + intros s1 Ht1 Ha1.
      eapply effect_to_eq; [apply writer_step_ok|done| |done|done].
      * apply owner_is_me_holds. rewrite Ht1, lock_item_set_lock.
        by rewrite lookup_insert_eq.
      * rewrite Ht1, lock_item_set_lock, set_lock_set_lock.
        by rewrite relock_record.
  - intros Howner. unfold raises. rewrite Hunfold.
    apply raises_bind_l, writer_step_busy.
    apply not_true_iff_false. by rewrite owner_free_holds.
Qed.

(** [xLock(EXCLUSIVE)] on a handle below PENDING, when the record has no
    owner or this client is the owner: the handle takes PENDING; if [count]
    is 1 it then takes EXCLUSIVE; if not (readers have not drained, or there
    is no count), [BusyError] is raised and the handle stays at PENDING, with
    [level = PENDING] and this client as owner in the record. *)
Theorem xLock_exclusive_waits_for_readers (s : state) :
  st_attained s ≠ SQLITE_LOCK_EXCLUSIVE →
  st_attained s ≠ SQLITE_LOCK_PENDING →
  let it := lock_item (st_table s) key_prefix in
  it !! "owner"%string = None ∨ it !! "owner"%string = Some (VStr client_id) →
  (it !! "count"%string = Some (VNum 1) →
   effect_to (xLock key_prefix client_id SQLITE_LOCK_EXCLUSIVE) s tt
     (set_lock key_prefix
        (<["owner" := VStr client_id]>
           (<["level" := VNum SQLITE_LOCK_EXCLUSIVE]> it)) (st_table s))
     SQLITE_LOCK_EXCLUSIVE
     [Sent (pending_request key_prefix client_id);
      Attained SQLITE_LOCK_PENDING;
      Sent (exclusive_request key_prefix client_id);
      Attained SQLITE_LOCK_EXCLUSIVE])
  ∧ (it !! "count"%string ≠ Some (VNum 1) →
     raises (xLock key_prefix client_id SQLITE_LOCK_EXCLUSIVE) s BusyError
       (set_lock key_prefix
          (<["owner" := VStr client_id]>
             (<["level" := VNum SQLITE_LOCK_PENDING]> it)) (st_table s))
       SQLITE_LOCK_PENDING
       [Sent (pending_request key_prefix client_id);
        Attained SQLITE_LOCK_PENDING;
        Sent (exclusive_request key_prefix client_id)]).
Proof.
  intros Hexc Hpen it Howner.
  assert (xLock key_prefix client_id SQLITE_LOCK_EXCLUSIVE s
          = ((busy_if_check_failed
                (update_lock key_prefix
                   [SET "level" (op_value (VNum SQLITE_LOCK_PENDING));
                    SET "owner" (op_value (VStr client_id))]
                   (Some (cond_or (attribute_not_exists "owner")
                            (owner_is_me client_id))));;
              set_attained SQLITE_LOCK_PENDING);;
             busy_if_check_failed
               (update_lock key_prefix
                  [SET "level" (op_value (VNum SQLITE_LOCK_EXCLUSIVE));
                   SET "owner" (op_value (VStr client_id))]
                  (Some (cond_and (owner_is_me client_id)
                           (attr_eq "count" (VNum 1)))));;
             set_attained SQLITE_LOCK_EXCLUSIVE) s) as Hunfold.
  { rewrite xLock_writer_unfold by (done || by apply not_eq_sym).
    by replace (st_attained s =? SQLITE_LOCK_PENDING) with false
      by (symmetry; by apply Z.eqb_neq). }
  assert (effect_to
            (busy_if_check_failed
               (update_lock key_prefix
                  [SET "level" (op_value (VNum SQLITE_LOCK_PENDING));
                   SET "owner" (op_value (VStr client_id))]
                  (Some (cond_or (attribute_not_exists "owner")
                           (owner_is_me client_id))));;
             set_attained SQLITE_LOCK_PENDING) s tt
            (set_lock key_prefix
               (<["owner" := VStr client_id]>
                  (<["level" := VNum SQLITE_LOCK_PENDING]> it)) (st_table s))
            SQLITE_LOCK_PENDING
            [Sent (pending_request key_prefix client_id);
             Attained SQLITE_LOCK_PENDING]) as Hfirst.
  { apply writer_step_ok. by apply owner_free_holds. }
  split.
  - intros Hcount. unfold effect_to. rewrite Hunfold.
    eapply (effect_to_bind _ _ s tt _ _ [_; _] tt _ _ [_; _]); [exact Hfirst|].
    intros s1 Ht1 Ha1.
    eapply effect_to_eq; [apply writer_step_ok|done| |done|done].
    + apply exclusive_cond_holds. rewrite Ht1, lock_item_set_lock.
      split; [by rewrite lookup_insert_eq|].
      by rewrite !lookup_insert_ne by done.
    + rewrite Ht1, lock_item_set_lock, set_lock_set_lock.
      by rewrite relock_record.
  - intros Hcount. unfold raises. rewrite Hunfold.
    eapply (raises_bind_r _ _ s tt _ _ [_; _] _ _ _ [_]); [exact Hfirst|].
    intros s1 Ht1 Ha1. rewrite <-Ht1, <-Ha1.
    apply writer_step_busy. apply not_true_iff_false.
    rewrite exclusive_cond_holds. rewrite Ht1, lock_item_set_lock.
    rewrite !(lookup_insert_ne _ _ "count"%string) by done.
    by intros [_ H].
Qed.

End WriterLocks.

Lemma xLock_reserved_witness :
  let s := State empty_table SQLITE_LOCK_NONE [] in
  let it := lock_item (st_table s) "db" in
  (it !! "owner"%string = None ∨ it !! "owner"%string = Some (VStr "me") →
   effect_to (xLock "db" "me" SQLITE_LOCK_RESERVED) s tt
     (set_lock "db"
        (<["owner" := VStr "me"]>
           (<["level" := VNum SQLITE_LOCK_RESERVED]> it)) (st_table s))
     SQLITE_LOCK_RESERVED
     [Sent (pending_request "db" "me"); Attained SQLITE_LOCK_PENDING;
      Sent (reserved_request "db" "me"); Attained SQLITE_LOCK_RESERVED])
  ∧ (¬ (it !! "owner"%string = None
        ∨ it !! "owner"%string = Some (VStr "me")) →
     raises (xLock "db" "me" SQLITE_LOCK_RESERVED) s BusyError
       (st_table s) (st_attained s) [Sent (pending_request "db" "me")]).
Proof.
  apply (xLock_reserved "db" "me" (State empty_table SQLITE_LOCK_NONE []));
    done.
Defined.

Lemma xLock_exclusive_waits_for_readers_witness :
  let s := State (set_lock "db" {[ "count"%string := VNum 2 ]} empty_table)
             SQLITE_LOCK_SHARED [] in
  let it := lock_item (st_table s) "db" in
  (it !! "count"%string = Some (VNum 1) →
   effect_to (xLock "db" "me" SQLITE_LOCK_EXCLUSIVE) s tt
     (set_lock "db"
        (<["owner" := VStr "me"]>
           (<["level" := VNum SQLITE_LOCK_EXCLUSIVE]> it)) (st_table s))
     SQLITE_LOCK_EXCLUSIVE
     [Sent (pending_request "db" "me"); Attained SQLITE_LOCK_PENDING;
      Sent (exclusive_request "db" "me"); Attained SQLITE_LOCK_EXCLUSIVE])
  ∧ (it !! "count"%string ≠ Some (VNum 1) →
     raises (xLock "db" "me" SQLITE_LOCK_EXCLUSIVE) s BusyError
       (set_lock "db"
          (<["owner" := VStr "me"]>
             (<["level" := VNum SQLITE_LOCK_PENDING]> it)) (st_table s))
       SQLITE_LOCK_PENDING
       [Sent (pending_request "db" "me"); Attained SQLITE_LOCK_PENDING;
        Sent (exclusive_request "db" "me")]).
Proof.
  apply (xLock_exclusive_waits_for_readers "db" "me"
           (State (set_lock "db" {[ "count"%string := VNum 2 ]} empty_table)
              SQLITE_LOCK_SHARED [])); [done|done|].
  left. reflexivity.
Defined.

(** ** Two handles on one lock record *)

Lemma mret_bind {A B} (a : A) (f : A → M B) (s : state) :
  (mret a ≫= f) s = f a s.
Proof. done. Qed.

Section TwoHandles.

Variable key_prefix : string.

Lemma xLock_writer_held client_id level s s' :
  level = SQLITE_LOCK_RESERVED ∨ level = SQLITE_LOCK_EXCLUSIVE →
  st_attained s ≠ level →
  xLock key_prefix client_id level s = (Ok tt, s') →
  held_by (st_table s') key_prefix client_id level ∧ st_attained s' = level.
Proof.
  intros Hlevel Hne Hrun.
  rewrite xLock_writer_unfold in Hrun
    by (try (by apply not_eq_sym); by destruct Hlevel as [-> | ->]).
  destruct (st_attained s =? SQLITE_LOCK_PENDING) eqn:Hpen; cbn [negb when] in Hrun.
  - rewrite mret_bind in Hrun.
    by apply writer_step_ok_inv in Hrun as (_ & Hheld & Hatt).
  - destruct (holds (lock_item (st_table s) key_prefix)
                (Some (cond_or (attribute_not_exists "owner")
                         (owner_is_me client_id)))) eqn:Hc.
    + destruct (writer_step_ok key_prefix client_id SQLITE_LOCK_PENDING _ s Hc)
        as (s1 & Hrun1 & _).
      rewrite (bind_ok _ _ _ _ _ Hrun1) in Hrun.
      by apply writer_step_ok_inv in Hrun as (_ & Hheld & Hatt).
    + destruct (writer_step_busy key_prefix client_id SQLITE_LOCK_PENDING _ s Hc)
        as (s1 & Hrun1 & _).
      rewrite (bind_raise _ _ _ _ _ Hrun1) in Hrun. done.
Qed.

Lemma xLock_writer_busy client_id other level s :
  level = SQLITE_LOCK_RESERVED ∨ level = SQLITE_LOCK_EXCLUSIVE →
  st_attained s ≠ level →
  lock_item (st_table s) key_prefix !! "owner"%string = Some (VStr other) →
  other ≠ client_id →
  ∃ r, raises (xLock key_prefix client_id level) s BusyError
         (st_table s) (st_attained s) [Sent r].
Proof.
  intros Hlevel Hne Howner Hother. unfold raises.
  rewrite xLock_writer_unfold
    by (try (by apply not_eq_sym); by destruct Hlevel as [-> | ->]).
  destruct (st_attained s =? SQLITE_LOCK_PENDING) eqn:Hpen; cbn [negb when].
  - eexists. rewrite mret_bind.
    apply writer_step_busy. apply not_true_iff_false.
    destruct Hlevel as [-> | ->]; cbn [Z.eqb SQLITE_LOCK_RESERVED
      SQLITE_LOCK_EXCLUSIVE Pos.eqb].
    + rewrite owner_is_me_holds, Howner. by intros [= ->].
    + rewrite exclusive_cond_holds, Howner. by intros [[= ->] _].
  - eexists. apply raises_bind_l, writer_step_busy. apply not_true_iff_false.
    rewrite owner_free_holds, Howner. by intros [|[= ->]].
Qed.

(** Writers exclude each other: once a handle of client [a] has taken
    RESERVED or EXCLUSIVE with [xLock], a handle of another client [b] that
    asks for RESERVED or EXCLUSIVE gets [BusyError] after one request, and
    neither the store nor its attained level changes. *)
Theorem writer_lock_excludes_writers (a b : string) (la lb : Z)
    (sa sa' sb : state) :
  a ≠ b →
  la = SQLITE_LOCK_RESERVED ∨ la = SQLITE_LOCK_EXCLUSIVE →
  lb = SQLITE_LOCK_RESERVED ∨ lb = SQLITE_LOCK_EXCLUSIVE →
  st_attained sa ≠ la →
  xLock key_prefix a la sa = (Ok tt, sa') →
  st_table sb = st_table sa' →
  st_attained sb ≠ lb →
  ∃ r, raises (xLock key_prefix b lb) sb BusyError
         (st_table sb) (st_attained sb) [Sent r].
Proof.
  intros Hab Hla Hlb Hsa Hrun Htable Hsb.
  destruct (xLock_writer_held a la sa sa' Hla Hsa Hrun) as [[Howner _] _].
  apply (xLock_writer_busy b a lb sb Hlb Hsb); [|done].
  by rewrite Htable.
Qed.

End TwoHandles.

Lemma writer_lock_excludes_writers_witness :
  let sa := State empty_table SQLITE_LOCK_NONE [] in
  let sa' := snd (xLock "db" "alice" SQLITE_LOCK_RESERVED sa) in
  let sb := State (st_table sa') SQLITE_LOCK_SHARED [] in
  ∃ r, raises (xLock "db" "bob" SQLITE_LOCK_EXCLUSIVE) sb BusyError
         (st_table sb) (st_attained sb) [Sent r].
Proof.
  apply (writer_lock_excludes_writers "db" "alice" "bob"
           SQLITE_LOCK_RESERVED SQLITE_LOCK_EXCLUSIVE
           (State empty_table SQLITE_LOCK_NONE [])
           (snd (xLock "db" "alice" SQLITE_LOCK_RESERVED
                   (State empty_table SQLITE_LOCK_NONE [])))).
  - done.
  - by left.
  - by right.
  - done.
  - vm_compute. reflexivity.
  - reflexivity.
  - done.
Defined.

Section Readers.

Variable key_prefix : string.

Lemma shared_cond_holds (it : gmap string value) :
  holds it (Some (cond_or (attribute_not_exists "level")
                    (attr_eq "level" (VNum SQLITE_LOCK_RESERVED)))) = true
  ↔ it !! "level"%string = None
    ∨ it !! "level"%string = Some (VNum SQLITE_LOCK_RESERVED).
Proof.
  cbn [holds]. rewrite eval_cond_or, orb_true_iff.
  by rewrite attribute_not_exists_true, attr_eq_num.
Qed.

Lemma xLock_shared_refused client_id s :
  st_attained s ≠ SQLITE_LOCK_SHARED →
  ¬ (lock_item (st_table s) key_prefix !! "level"%string = None
     ∨ lock_item (st_table s) key_prefix !! "level"%string
       = Some (VNum SQLITE_LOCK_RESERVED)) →
  raises (xLock key_prefix client_id SQLITE_LOCK_SHARED) s BusyError
    (st_table s) (st_attained s) [Sent (shared_request key_prefix)].
Proof.
  intros Hne Hlevel. unfold raises. rewrite xLock_shared_unfold by done.
  apply raises_bind_l, busy_if_check_failed_busy, update_lock_check_failed.
  apply not_true_iff_false. fold (lock_item (st_table s) key_prefix).
  by rewrite shared_cond_holds.
Qed.

Lemma xLock_shared_admitted client_id s n :
  st_attained s ≠ SQLITE_LOCK_SHARED →
  let it := lock_item (st_table s) key_prefix in
  it !! "level"%string = None
  ∨ it !! "level"%string = Some (VNum SQLITE_LOCK_RESERVED) →
  it !! "count"%string = None ∧ n = 0 ∨ it !! "count"%string = Some (VNum n) →
  effect_to (xLock key_prefix client_id SQLITE_LOCK_SHARED) s tt
    (set_lock key_prefix (<["count" := VNum (n + 1)]> it) (st_table s))
    SQLITE_LOCK_SHARED
    [Sent (shared_request key_prefix); Attained SQLITE_LOCK_SHARED].
Proof.
  intros Hne it Hlevel Hcount. unfold effect_to.
  rewrite xLock_shared_unfold by done.
  eapply (effect_to_bind _ _ s tt _ _ [_] tt _ _ [_]).
  - apply busy_if_check_failed_ok.
    apply (update_lock_effect key_prefix _ _ s
             (<["count" := VNum (n + 1)]> it)).
    + fold (lock_item (st_table s) key_prefix). by apply shared_cond_holds.
    + unfold apply_update. cbn [apply_actions apply_action eval_operand].
      fold (lock_item (st_table s) key_prefix). fold it.
      destruct Hcount as [[Hc ->] | Hc]; rewrite Hc; done.
  - intros s1 Ht1 Ha1. rewrite <-Ht1. apply set_attained_effect.
Qed.

Lemma xLock_exclusive_leaves_level client_id s r s' :
  st_attained s ≠ SQLITE_LOCK_EXCLUSIVE →
  st_attained s ≠ SQLITE_LOCK_PENDING →
  xLock key_prefix client_id SQLITE_LOCK_EXCLUSIVE s = (r, s') →
  st_attained s' ≠ st_attained s →
  ∃ l, (l = SQLITE_LOCK_PENDING ∨ l = SQLITE_LOCK_EXCLUSIVE)
       ∧ held_by (st_table s') key_prefix client_id l
       ∧ st_attained s' = l.
Proof.
  intros Hexc Hpen Hrun Hchanged.
  rewrite xLock_writer_unfold in Hrun by (done || by apply not_eq_sym).
  replace (st_attained s =? SQLITE_LOCK_PENDING) with false in Hrun
    by (symmetry; by apply Z.eqb_neq).
  cbn [negb when] in Hrun.
  destruct (holds (lock_item (st_table s) key_prefix)
              (Some (cond_or (attribute_not_exists "owner")
                       (owner_is_me client_id)))) eqn:Hc.
  - destruct (writer_step_ok key_prefix client_id SQLITE_LOCK_PENDING _ s Hc)
      as (s1 & Hrun1 & Ht1 & Ha1 & _).
    rewrite (bind_ok _ _ _ _ _ Hrun1) in Hrun.
    assert (held_by (st_table s1) key_prefix client_id SQLITE_LOCK_PENDING)
      as Hheld1.
    { rewrite Ht1. unfold held_by. rewrite lock_item_set_lock.
      split; [by rewrite lookup_insert_eq|].
      rewrite lookup_insert_ne by done. by rewrite lookup_insert_eq. }
    cbn [Z.eqb SQLITE_LOCK_EXCLUSIVE SQLITE_LOCK_RESERVED Pos.eqb] in Hrun.
    destruct (holds (lock_item (st_table s1) key_prefix)
                (Some (cond_and (owner_is_me client_id)
                         (attr_eq "count" (VNum 1))))) eqn:Hc2.
    + exists SQLITE_LOCK_EXCLUSIVE. split; [by right|].
      destruct (writer_step_ok key_prefix client_id SQLITE_LOCK_EXCLUSIVE _ s1
                  Hc2) as (s2 & Hrun2 & _).
      change 4 with SQLITE_LOCK_EXCLUSIVE in Hrun.
      rewrite Hrun2 in Hrun. injection Hrun as _ <-.
      by apply writer_step_ok_inv in Hrun2 as (_ & Hheld & Hatt).
    + exists SQLITE_LOCK_PENDING. split; [by left|].
      destruct (writer_step_busy key_prefix client_id SQLITE_LOCK_EXCLUSIVE _ s1
                  Hc2) as (s2 & Hrun2 & Ht2 & Ha2 & _).
      change 4 with SQLITE_LOCK_EXCLUSIVE in Hrun.
      rewrite Hrun2 in Hrun. injection Hrun as _ <-.
      rewrite Ht2, Ha2. done.
  - destruct (writer_step_busy key_prefix client_id SQLITE_LOCK_PENDING _ s Hc)
      as (s1 & Hrun1 & _ & Ha1 & _).
    rewrite (bind_raise _ _ _ _ _ Hrun1) in Hrun. injection Hrun as _ <-.
    done.
Qed.

(** A writer at PENDING or EXCLUSIVE keeps new readers out: when
    [xLock(EXCLUSIVE)] has moved a handle's attained level (to EXCLUSIVE, or
    to PENDING if it ended with [BusyError] because readers had not drained),
    [xLock(SHARED)] on any other handle raises [BusyError] after its one
    request and changes nothing. *)
Theorem pending_or_exclusive_excludes_readers (a b : string)
    (sa sa' sb : state) (r : result unit) :
  st_attained sa ≠ SQLITE_LOCK_EXCLUSIVE →
  st_attained sa ≠ SQLITE_LOCK_PENDING →
  xLock key_prefix a SQLITE_LOCK_EXCLUSIVE sa = (r, sa') →
  st_attained sa' ≠ st_attained sa →
  st_table sb = st_table sa' →
  st_attained sb ≠ SQLITE_LOCK_SHARED →
  raises (xLock key_prefix b SQLITE_LOCK_SHARED) sb BusyError
    (st_table sb) (st_attained sb) [Sent (shared_request key_prefix)].
Proof.
  intros Hexc Hpen Hrun Hchanged Htable Hsb.
  destruct (xLock_exclusive_leaves_level a sa r sa' Hexc Hpen Hrun Hchanged)
    as (l & Hl & [_ Hlevel] & _).
  apply xLock_shared_refused; [done|].
  rewrite Htable, Hlevel. by destruct Hl as [-> | ->]; intros [|[= ]].
Qed.

(** A writer at RESERVED lets readers in: after a handle of client [a] has
    taken RESERVED with [xLock], [xLock(SHARED)] on another handle succeeds
    (given that [count] is absent or a number), increments the count, and
    leaves [a]'s level and ownership in the record. *)
Theorem reserved_lock_admits_readers (a b : string) (sa sa' sb : state)
    (n : Z) :
  st_attained sa ≠ SQLITE_LOCK_RESERVED →
  xLock key_prefix a SQLITE_LOCK_RESERVED sa = (Ok tt, sa') →
  st_table sb = st_table sa' →
  st_attained sb ≠ SQLITE_LOCK_SHARED →
  let it := lock_item (st_table sb) key_prefix in
  it !! "count"%string = None ∧ n = 0 ∨ it !! "count"%string = Some (VNum n) →
  ∃ t',
    effect_to (xLock key_prefix b SQLITE_LOCK_SHARED) sb tt t'
      SQLITE_LOCK_SHARED
      [Sent (shared_request key_prefix); Attained SQLITE_LOCK_SHARED]
    ∧ held_by t' key_prefix a SQLITE_LOCK_RESERVED
    ∧ lock_item t' key_prefix !! "count"%string = Some (VNum (n + 1)).
Proof.
  intros Hres Hrun Htable Hsb it Hcount.
  destruct (xLock_writer_held key_prefix a SQLITE_LOCK_RESERVED sa sa'
              ltac:(by left) Hres Hrun) as [[Howner Hlevel] _].
  rewrite <-Htable in Howner, Hlevel.
  eexists. split; [|split].
  - apply xLock_shared_admitted; [done|by right|exact Hcount].
  - unfold held_by. rewrite lock_item_set_lock.
    by rewrite !lookup_insert_ne by done.
  - rewrite lock_item_set_lock. by rewrite lookup_insert_eq.
Qed.

End Readers.

Lemma pending_or_exclusive_excludes_readers_witness :
  let sa := State (set_lock "db" {[ "count"%string := VNum 2 ]} empty_table)
              SQLITE_LOCK_SHARED [] in
  let sa' := snd (xLock "db" "alice" SQLITE_LOCK_EXCLUSIVE sa) in
  let sb := State (st_table sa') SQLITE_LOCK_NONE [] in
  raises (xLock "db" "bob" SQLITE_LOCK_SHARED) sb BusyError
    (st_table sb) (st_attained sb) [Sent (shared_request "db")].
Proof.
  apply (pending_or_exclusive_excludes_readers "db" "alice" "bob"
           (State (set_lock "db" {[ "count"%string := VNum 2 ]} empty_table)
              SQLITE_LOCK_SHARED [])
           (snd (xLock "db" "alice" SQLITE_LOCK_EXCLUSIVE
                   (State (set_lock "db" {[ "count"%string := VNum 2 ]}
                             empty_table) SQLITE_LOCK_SHARED [])))
           _ (Raise BusyError)).
  - done.
  - done.
  - vm_compute. reflexivity.
  - vm_compute. done.
  - reflexivity.
  - done.
Defined.

Lemma reserved_lock_admits_readers_witness :
  let sa := State (set_lock "db" {[ "count"%string := VNum 1 ]} empty_table)
              SQLITE_LOCK_SHARED [] in
  let sa' := snd (xLock "db" "alice" SQLITE_LOCK_RESERVED sa) in
  let sb := State (st_table sa') SQLITE_LOCK_NONE [] in
  ∃ t',
    effect_to (xLock "db" "bob" SQLITE_LOCK_SHARED) sb tt t'
      SQLITE_LOCK_SHARED
      [Sent (shared_request "db"); Attained SQLITE_LOCK_SHARED]
    ∧ held_by t' "db" "alice" SQLITE_LOCK_RESERVED
    ∧ lock_item t' "db" !! "count"%string = Some (VNum (1 + 1)).
Proof.
  apply (reserved_lock_admits_readers "db" "alice" "bob"
           (State (set_lock "db" {[ "count"%string := VNum 1 ]} empty_table)
              SQLITE_LOCK_SHARED [])
           (snd (xLock "db" "alice" SQLITE_LOCK_RESERVED
                   (State (set_lock "db" {[ "count"%string := VNum 1 ]}
                             empty_table) SQLITE_LOCK_SHARED [])))
           _ 1).
  - done.
  - vm_compute. reflexivity.
  - reflexivity.
  - done.
  - right. vm_compute. reflexivity.
Defined.

(** ** More of xUnlock *)

Lemma bind_mret_tt (m : M unit) (s : state) : (m;; mret tt) s = m s.
Proof.
  unfold mbind, M_bind, mret, M_ret. by destruct (m s) as [[[]|e] s'].
Qed.

Section Unlocking.

Variable key_prefix : string.
Variable client_id : string.

Lemma xUnlock_shared_unfold s :
  st_attained s ≠ SQLITE_LOCK_SHARED →
  xUnlock key_prefix client_id SQLITE_LOCK_SHARED s
  = (update_lock key_prefix [REMOVE "level"; REMOVE "owner"]
       (Some (owner_is_me client_id));;
     set_attained SQLITE_LOCK_SHARED) s.
Proof.
  intros H. unfold xUnlock.
  unfold mbind at 1, M_bind at 1, get_attained.
  replace (SQLITE_LOCK_SHARED =? st_attained s) with false
    by (symmetry; apply Z.eqb_neq; congruence).
  change (SQLITE_LOCK_SHARED >=? SQLITE_LOCK_RESERVED) with false.
  change (SQLITE_LOCK_SHARED =? SQLITE_LOCK_SHARED) with true.
  change (SQLITE_LOCK_SHARED =? SQLITE_LOCK_NONE) with false.
  cbn [when]. rewrite mret_bind. apply bind_mret_tt.
Qed.

Lemma xUnlock_writer_unfold level s :
  SQLITE_LOCK_RESERVED <= level → st_attained s ≠ level →
  xUnlock key_prefix client_id level s
  = (put_lock key_prefix
       [("level"%string, VNum level); ("owner"%string, VStr client_id);
        ("count"%string, VNum 1)]
       (Some (owner_is_me client_id));;
     set_attained level) s.
Proof.
  intros Hl H. unfold xUnlock.
  unfold mbind at 1, M_bind at 1, get_attained.
  replace (level =? st_attained s) with false
    by (symmetry; apply Z.eqb_neq; congruence).
  replace (level >=? SQLITE_LOCK_RESERVED) with true
    by (symmetry; apply Z.geb_le; lia).
  replace (level =? SQLITE_LOCK_SHARED) with false
    by (symmetry; apply Z.eqb_neq;
        unfold SQLITE_LOCK_SHARED, SQLITE_LOCK_RESERVED in *; lia).
  replace (level =? SQLITE_LOCK_NONE) with false
    by (symmetry; apply Z.eqb_neq;
        unfold SQLITE_LOCK_NONE, SQLITE_LOCK_RESERVED in *; lia).
  cbn [when].
  rewrite <-(bind_mret_tt
               (put_lock key_prefix _ (Some (owner_is_me client_id));;
                set_attained level) s).
  unfold mbind, M_bind, mret, M_ret.
  by destruct (put_lock _ _ _ s) as [[[]|e] s1].
Qed.

(** [xUnlock(SHARED)] on a handle at another level: one UpdateItem that
    removes [level] and [owner] under the condition that this client is the
    owner.  If it is, the record keeps its other attributes ([count] as it
    was) and attained becomes SHARED; if not, the store's
    ConditionalCheckFailedException is raised as it is (not as [BusyError])
    and nothing changes. *)
Theorem xUnlock_shared_releases_writer (s : state) :
  st_attained s ≠ SQLITE_LOCK_SHARED →
  let it := lock_item (st_table s) key_prefix in
  let r := UpdateItem "LK" key_prefix [REMOVE "level"; REMOVE "owner"]
             (Some (attr_eq "owner" (VStr client_id))) in
  (it !! "owner"%string = Some (VStr client_id) →
   effect_to (xUnlock key_prefix client_id SQLITE_LOCK_SHARED) s tt
     (set_lock key_prefix (delete "owner" (delete "level" it)) (st_table s))
     SQLITE_LOCK_SHARED [Sent r; Attained SQLITE_LOCK_SHARED])
  ∧ (it !! "owner"%string ≠ Some (VStr client_id) →
     raises (xUnlock key_prefix client_id SQLITE_LOCK_SHARED) s
       (ClientError "ConditionalCheckFailedException")
       (st_table s) (st_attained s) [Sent r]).
Proof.
  intros Hne it r. split.
  - intros Howner. unfold effect_to. rewrite xUnlock_shared_unfold by done.
    eapply (effect_to_bind _ _ s tt _ _ [_] tt _ _ [_]).
    + apply (update_lock_effect key_prefix _ _ s
               (delete "owner" (delete "level" it))); [|done].
      fold (lock_item (st_table s) key_prefix). by apply owner_is_me_holds.
    + intros s1 Ht1 Ha1. rewrite <-Ht1. apply set_attained_effect.
  - intros Howner. unfold raises. rewrite xUnlock_shared_unfold by done.
    apply raises_bind_l, update_lock_check_failed.
    apply not_true_iff_false. fold (lock_item (st_table s) key_prefix).
    by rewrite owner_is_me_holds.
Qed.

(** [xUnlock(NONE)] on a handle at SHARED: one unconditional UpdateItem
    [SET count = count - 1].  If the record has a numeric [count] it is
    decremented and attained becomes NONE; if it has none, the store rejects
    the update (ValidationException) and the handle stays at SHARED. *)
Theorem xUnlock_none_from_shared (s : state) :
  st_attained s = SQLITE_LOCK_SHARED →
  let it := lock_item (st_table s) key_prefix in
  let r := UpdateItem "LK" key_prefix [SET "count" (op_minus "count" 1)]
             None in
  (∀ n, it !! "count"%string = Some (VNum n) →
        effect_to (xUnlock key_prefix client_id SQLITE_LOCK_NONE) s tt
          (set_lock key_prefix (<["count" := VNum (n - 1)]> it) (st_table s))
          SQLITE_LOCK_NONE [Sent r; Attained SQLITE_LOCK_NONE])
  ∧ ((∀ n, it !! "count"%string ≠ Some (VNum n)) →
     raises (xUnlock key_prefix client_id SQLITE_LOCK_NONE) s
       (ClientError "ValidationException")
       (st_table s) SQLITE_LOCK_SHARED [Sent r]).
Proof.
  intros Hatt it r.
  assert (xUnlock key_prefix client_id SQLITE_LOCK_NONE s
          = (update_lock key_prefix [SET "count" (op_minus "count" 1)] None;;
             set_attained SQLITE_LOCK_NONE) s) as Hunfold.
  { rewrite xUnlock_none_unfold by (by rewrite Hatt). by rewrite Hatt. }
  split.
  - intros n Hcount. unfold effect_to. rewrite Hunfold.
    eapply (effect_to_bind _ _ s tt _ _ [_] tt _ _ [_]).
    + apply (update_lock_effect key_prefix _ _ s
               (<["count" := VNum (n - 1)]> it)); [done|].
      unfold apply_update. cbn [apply_actions apply_action eval_operand].
      fold (lock_item (st_table s) key_prefix). fold it. by rewrite Hcount.
    + intros s1 Ht1 Ha1. rewrite <-Ht1. apply set_attained_effect.
  - intros Hcount. unfold raises. rewrite Hunfold, <-Hatt.
    apply raises_bind_l, update_lock_invalid; [done|].
    unfold apply_update. cbn [apply_actions apply_action eval_operand].
    fold (lock_item (st_table s) key_prefix). fold it.
    destruct (it !! "count"%string) as [[n| |]|] eqn:Hc; try done.
    by destruct (Hcount n).
Qed.

(** A reader's round trip: on a handle at NONE, with no writer above
    RESERVED, [xLock(SHARED)] followed by [xUnlock(NONE)] puts the count back
    (a record without [count] ends with [count = 0]) and the handle back at
    NONE, with one UpdateItem each. *)
Theorem shared_lock_round_trip (s : state) (n : Z) :
  st_attained s = SQLITE_LOCK_NONE →
  let it := lock_item (st_table s) key_prefix in
  it !! "level"%string = None
  ∨ it !! "level"%string = Some (VNum SQLITE_LOCK_RESERVED) →
  it !! "count"%string = None ∧ n = 0 ∨ it !! "count"%string = Some (VNum n) →
  effect_to (xLock key_prefix client_id SQLITE_LOCK_SHARED;;
             xUnlock key_prefix client_id SQLITE_LOCK_NONE) s tt
    (set_lock key_prefix (<["count" := VNum n]> it) (st_table s))
    SQLITE_LOCK_NONE
    [Sent (shared_request key_prefix); Attained SQLITE_LOCK_SHARED;
     Sent (UpdateItem "LK" key_prefix [SET "count" (op_minus "count" 1)] None);
     Attained SQLITE_LOCK_NONE].
Proof.
  intros Hatt it Hlevel Hcount.
  eapply (effect_to_bind _ _ s tt _ _ [_; _] tt _ _ [_; _]).
  { apply xLock_shared_admitted; [by rewrite Hatt|exact Hlevel|exact Hcount]. }
  intros s1 Ht1 Ha1.
  assert (xUnlock key_prefix client_id SQLITE_LOCK_NONE s1
          = (update_lock key_prefix [SET "count" (op_minus "count" 1)] None;;
             set_attained SQLITE_LOCK_NONE) s1) as Hunfold.
  { rewrite xUnlock_none_unfold by (by rewrite Ha1). by rewrite Ha1. }
  unfold effect_to. rewrite Hunfold.
  eapply (effect_to_bind _ _ s1 tt _ _ [_] tt _ _ [_]).
  - apply (update_lock_effect key_prefix _ _ s1 (<["count" := VNum n]> it));
      [done|].
    unfold apply_update. cbn [apply_actions apply_action eval_operand].
    fold (lock_item (st_table s1) key_prefix).
    rewrite Ht1, lock_item_set_lock, lookup_insert_eq.
    cbn [mbind option_bind]. rewrite insert_insert_eq. do 3 f_equal. lia.
  - intros s2 Ht2 Ha2.
    eapply effect_to_eq; [apply set_attained_effect|done| |done|done].
    by rewrite Ht2, Ht1, set_lock_set_lock.
Qed.

(** [xUnlock(level)] for a level of RESERVED or above, on a handle at another
    level: one PutItem under the condition that this client is the owner.
    If it is, the record is replaced by exactly [level], [owner] and
    [count = 1], whatever the count was, and attained becomes [level]; if
    not, ConditionalCheckFailedException is raised and nothing changes. *)
Theorem xUnlock_writer_level_resets_count (level : Z) (s : state) :
  SQLITE_LOCK_RESERVED <= level →
  st_attained s ≠ level →
  let it := lock_item (st_table s) key_prefix in
  let attrs := [("level"%string, VNum level);
                ("owner"%string, VStr client_id);
                ("count"%string, VNum 1)] in
  let r := PutItem "LK" key_prefix attrs
             (Some (attr_eq "owner" (VStr client_id))) in
  (it !! "owner"%string = Some (VStr client_id) →
   effect_to (xUnlock key_prefix client_id level) s tt
     (set_lock key_prefix (list_to_map attrs) (st_table s))
     level [Sent r; Attained level])
  ∧ (it !! "owner"%string ≠ Some (VStr client_id) →
     raises (xUnlock key_prefix client_id level) s
       (ClientError "ConditionalCheckFailedException")
       (st_table s) (st_attained s) [Sent r]).
Proof.
  intros Hlevel Hne it attrs r. subst attrs r. split.
  - intros Howner. unfold effect_to. rewrite xUnlock_writer_unfold by done.
    eapply (effect_to_bind _ _ s tt _ _ [_] tt _ _ [_]).
    + apply put_lock_effect.
      fold (lock_item (st_table s) key_prefix). cbn [holds].
      by apply attr_eq_str.
    + intros s1 Ht1 Ha1. rewrite <-Ht1. apply set_attained_effect.
  - intros Howner. unfold raises. rewrite xUnlock_writer_unfold by done.
    apply raises_bind_l, put_lock_check_failed.
    apply not_true_iff_false. fold (lock_item (st_table s) key_prefix).
    cbn [holds]. unfold owner_is_me. by rewrite attr_eq_str.
Qed.

End Unlocking.

Lemma xUnlock_shared_releases_writer_witness :
  let s := State (set_lock "db"
                    {[ "count"%string := VNum 1;
                       "level"%string := VNum SQLITE_LOCK_EXCLUSIVE;
                       "owner"%string := VStr "me" ]} empty_table)
             SQLITE_LOCK_EXCLUSIVE [] in
  let it := lock_item (st_table s) "db" in
  let r := UpdateItem "LK" "db" [REMOVE "level"; REMOVE "owner"]
             (Some (attr_eq "owner" (VStr "me"))) in
  (it !! "owner"%string = Some (VStr "me") →
   effect_to (xUnlock "db" "me" SQLITE_LOCK_SHARED) s tt
     (set_lock "db" (delete "owner" (delete "level" it)) (st_table s))
     SQLITE_LOCK_SHARED [Sent r; Attained SQLITE_LOCK_SHARED])
  ∧ (it !! "owner"%string ≠ Some (VStr "me") →
     raises (xUnlock "db" "me" SQLITE_LOCK_SHARED) s
       (ClientError "ConditionalCheckFailedException")
       (st_table s) (st_attained s) [Sent r]).
Proof.
  apply (xUnlock_shared_releases_writer "db" "me"
           (State (set_lock "db"
                     {[ "count"%string := VNum 1;
                        "level"%string := VNum SQLITE_LOCK_EXCLUSIVE;
                        "owner"%string := VStr "me" ]} empty_table)
              SQLITE_LOCK_EXCLUSIVE [])).
  done.
Defined.

Lemma xUnlock_none_from_shared_witness :
  let s := State (set_lock "db" {[ "count"%string := VNum 2 ]} empty_table)
             SQLITE_LOCK_SHARED [] in
  let it := lock_item (st_table s) "db" in
  let r := UpdateItem "LK" "db" [SET "count" (op_minus "count" 1)] None in
  (∀ n, it !! "count"%string = Some (VNum n) →
        effect_to (xUnlock "db" "me" SQLITE_LOCK_NONE) s tt
          (set_lock "db" (<["count" := VNum (n - 1)]> it) (st_table s))
          SQLITE_LOCK_NONE [Sent r; Attained SQLITE_LOCK_NONE])
  ∧ ((∀ n, it !! "count"%string ≠ Some (VNum n)) →
     raises (xUnlock "db" "me" SQLITE_LOCK_NONE) s
       (ClientError "ValidationException")
       (st_table s) SQLITE_LOCK_SHARED [Sent r]).
Proof.
  apply (xUnlock_none_from_shared "db" "me"
           (State (set_lock "db" {[ "count"%string := VNum 2 ]} empty_table)
              SQLITE_LOCK_SHARED [])).
  reflexivity.
Defined.

Lemma shared_lock_round_trip_witness :
  let s := State (set_lock "db" {[ "count"%string := VNum 2 ]} empty_table)
             SQLITE_LOCK_NONE [] in
  let it := lock_item (st_table s) "db" in
  effect_to (xLock "db" "me" SQLITE_LOCK_SHARED;;
             xUnlock "db" "me" SQLITE_LOCK_NONE) s tt
    (set_lock "db" (<["count" := VNum 2]> it) (st_table s))
    SQLITE_LOCK_NONE
    [Sent (shared_request "db"); Attained SQLITE_LOCK_SHARED;
     Sent (UpdateItem "LK" "db" [SET "count" (op_minus "count" 1)] None);
     Attained SQLITE_LOCK_NONE].
Proof.
  apply (shared_lock_round_trip "db" "me"
           (State (set_lock "db" {[ "count"%string := VNum 2 ]} empty_table)
              SQLITE_LOCK_NONE []) 2).
  - reflexivity.
  - left. reflexivity.
  - right. reflexivity.
Defined.

Lemma xUnlock_writer_level_resets_count_witness :
  let s := State (set_lock "db"
                    {[ "count"%string := VNum 3;
                       "level"%string := VNum SQLITE_LOCK_PENDING;
                       "owner"%string := VStr "me" ]} empty_table)
             SQLITE_LOCK_PENDING [] in
  let it := lock_item (st_table s) "db" in
  let attrs := [("level"%string, VNum SQLITE_LOCK_RESERVED);
                ("owner"%string, VStr "me");
                ("count"%string, VNum 1)] in
  let r := PutItem "LK" "db" attrs (Some (attr_eq "owner" (VStr "me"))) in
  (it !! "owner"%string = Some (VStr "me") →
   effect_to (xUnlock "db" "me" SQLITE_LOCK_RESERVED) s tt
     (set_lock "db" (list_to_map attrs) (st_table s))
     SQLITE_LOCK_RESERVED [Sent r; Attained SQLITE_LOCK_RESERVED])
  ∧ (it !! "owner"%string ≠ Some (VStr "me") →
     raises (xUnlock "db" "me" SQLITE_LOCK_RESERVED) s
       (ClientError "ConditionalCheckFailedException")
       (st_table s) (st_attained s) [Sent r]).
Proof.
  apply (xUnlock_writer_level_resets_count "db" "me" SQLITE_LOCK_RESERVED
           (State (set_lock "db"
                     {[ "count"%string := VNum 3;
                        "level"%string := VNum SQLITE_LOCK_PENDING;
                        "owner"%string := VStr "me" ]} empty_table)
              SQLITE_LOCK_PENDING [])).
  - reflexivity.
  - done.
Defined.

(** ** The lock state as read back *)

Section LockStateFacts.

Variable key_prefix : string.

Lemma get_lock_effect attrs t :
  effect_on (get_lock key_prefix attrs) t
    (filter (λ kv : string * value, kv.1 ∈ attrs) <$> t_lock t !! key_prefix)
    t [Sent (GetItem "LK" key_prefix)].
Proof. intros s <-. eexists. split; [reflexivity|]. done. Qed.

Lemma get_lock_state_effect t :
  effect_on (_get_lock_state key_prefix) t
    (match lock_item t key_prefix !! "level"%string with
     | Some (VNum l) => l
     | _ => 0
     end) t [Sent (GetItem "LK" key_prefix)]
  ∨ ∃ v, lock_item t key_prefix !! "level"%string = Some v
         ∧ ∀ l, v ≠ VNum l.
Proof.
  destruct (lock_item t key_prefix !! "level"%string) as [v|] eqn:Hlevel.
  - destruct v as [l|x|x]; [left|right; by eexists..].
    unfold _get_lock_state.
    eapply effect_on_eq;
      [eapply effect_on_bind; [apply get_lock_effect|]|done|done|done].
    unfold lock_item in Hlevel.
    destruct (t_lock t !! key_prefix) as [it|] eqn:Hit; [|done].
    cbn in Hlevel. cbn [fmap option_fmap option_map mbind option_bind].
    assert (filter (λ kv : string * value, kv.1 ∈ ["level"; "owner"]%string) it
              !! "level"%string = Some (VNum l)) as ->.
    { apply map_lookup_filter_Some. split; [done|]. cbn. left. }
    apply effect_on_ret.
  - left. unfold _get_lock_state.
    eapply effect_on_eq;
      [eapply effect_on_bind; [apply get_lock_effect|]|done|done|done].
    unfold lock_item in Hlevel.
    destruct (t_lock t !! key_prefix) as [it|] eqn:Hit;
      cbn [fmap option_fmap option_map mbind option_bind];
      [|apply effect_on_ret].
    cbn in Hlevel.
    assert (filter (λ kv : string * value, kv.1 ∈ ["level"; "owner"]%string) it
              !! "level"%string = None) as ->.
    { apply map_lookup_filter_None. by left. }
    assert (filter (λ kv : string * value, kv.1 ∈ ["level"; "owner"]%string) it
              !! "count"%string = None) as ->.
    { apply map_lookup_filter_None. right. intros v _. cbn.
      intros H. apply elem_of_cons in H as [H|H]; [done|].
      apply elem_of_cons in H as [H|H]; [done|]. by apply elem_of_nil in H. }
    apply effect_on_ret.
Qed.

(** [_get_lock_state] returns the stored [level] if the record has one and 0
    otherwise, whatever [count] is: the GetItem asks for [level] and [owner]
    only, so the response never contains [count] and the branch that would
    return 1 for a record with readers is never taken. *)
Theorem lock_state_is_level_or_zero (s : state) :
  let it := lock_item (st_table s) key_prefix in
  (∀ l, it !! "level"%string = Some (VNum l) →
        effect (_get_lock_state key_prefix) s l (st_table s)
          [Sent (GetItem "LK" key_prefix)])
  ∧ (it !! "level"%string = None →
     effect (_get_lock_state key_prefix) s 0 (st_table s)
       [Sent (GetItem "LK" key_prefix)]).
Proof.
  intros it. split.
  - intros l Hlevel.
    destruct (get_lock_state_effect (st_table s)) as [Hrun|(v & Hv & Hne)].
    + fold it in Hrun. rewrite Hlevel in Hrun. by apply Hrun.
    + fold it in Hv. rewrite Hlevel in Hv. injection Hv as <-.
      by destruct (Hne l).
  - intros Hlevel.
    destruct (get_lock_state_effect (st_table s)) as [Hrun|(v & Hv & Hne)].
    + fold it in Hrun. rewrite Hlevel in Hrun. by apply Hrun.
    + fold it in Hv. by rewrite Hlevel in Hv.
Qed.

(** [xCheckReservedLock] sees a writer: after [xLock] has given RESERVED or
    EXCLUSIVE to some handle, the check on any handle returns [True], with
    one GetItem on the lock record. *)
Theorem xCheckReservedLock_after_xLock (a : string) (la : Z)
    (sa sa' sb : state) :
  la = SQLITE_LOCK_RESERVED ∨ la = SQLITE_LOCK_EXCLUSIVE →
  st_attained sa ≠ la →
  xLock key_prefix a la sa = (Ok tt, sa') →
  st_table sb = st_table sa' →
  effect (xCheckReservedLock key_prefix) sb true (st_table sb)
    [Sent (GetItem "LK" key_prefix)].
Proof.
  intros Hla Hsa Hrun Htable.
  destruct (xLock_writer_held key_prefix a la sa sa' Hla Hsa Hrun)
    as [[_ Hlevel] _].
  rewrite <-Htable in Hlevel.
  destruct (get_lock_state_effect (st_table sb)) as [Hstate|(v & Hv & Hne)].
  - rewrite Hlevel in Hstate. unfold xCheckReservedLock.
    eapply effect_eq;
      [eapply effect_bind; [by apply Hstate|]|done|done|done].
    intros s1 Ht1 _.
    eapply effect_eq; [by apply effect_ret| |done|done].
    by destruct Hla as [-> | ->].
  - rewrite Hlevel in Hv. injection Hv as <-. by destruct (Hne la).
Qed.

(** With readers only (a record without [level], whatever its count),
    [xCheckReservedLock] returns [False]. *)
Theorem xCheckReservedLock_readers_only (s : state) :
  lock_item (st_table s) key_prefix !! "level"%string = None →
  effect (xCheckReservedLock key_prefix) s false (st_table s)
    [Sent (GetItem "LK" key_prefix)].
Proof.
  intros Hlevel.
  destruct (get_lock_state_effect (st_table s)) as [Hstate|(v & Hv & Hne)].
  - rewrite Hlevel in Hstate. unfold xCheckReservedLock.
    eapply effect_eq;
      [eapply effect_bind; [by apply Hstate|]|done|done|done].
    intros s1 Ht1 _. by apply effect_ret.
  - by rewrite Hlevel in Hv.
Qed.

End LockStateFacts.

Lemma xCheckReservedLock_after_xLock_witness :
  let sa := State empty_table SQLITE_LOCK_NONE [] in
  let sa' := snd (xLock "db" "alice" SQLITE_LOCK_RESERVED sa) in
  let sb := State (st_table sa') SQLITE_LOCK_NONE [] in
  effect (xCheckReservedLock "db") sb true (st_table sb)
    [Sent (GetItem "LK" "db")].
Proof.
  apply (xCheckReservedLock_after_xLock "db" "alice" SQLITE_LOCK_RESERVED
           (State empty_table SQLITE_LOCK_NONE [])
           (snd (xLock "db" "alice" SQLITE_LOCK_RESERVED
                   (State empty_table SQLITE_LOCK_NONE [])))).
  - by left.
  - done.
  - vm_compute. reflexivity.
  - reflexivity.
Defined.

Lemma xCheckReservedLock_readers_only_witness :
  let s := State (set_lock "db" {[ "count"%string := VNum 3 ]} empty_table)
             SQLITE_LOCK_NONE [] in
  effect (xCheckReservedLock "db") s false (st_table s)
    [Sent (GetItem "LK" "db")].
Proof.
  apply (xCheckReservedLock_readers_only "db"
           (State (set_lock "db" {[ "count"%string := VNum 3 ]} empty_table)
              SQLITE_LOCK_NONE [])).
  reflexivity.
Defined.

(** ** The serializer on any store *)

Section Listing.

Variable page_limit : positive.
Variable key_prefix : string.

Lemma serialize_iter_queries t :
  ∃ evs,
    effect_on (serialize_iter page_limit key_prefix) t
      (file_chunks t key_prefix) t evs
    ∧ Forall (λ e, ∃ start, e = Sent (Query (BL key_prefix) start)) evs.
Proof.
  destruct (scan_rule page_limit key_prefix
              (λ (out : list bytes) obj, mret (out ++ [item_data obj.2]))
              (λ visited out t', out = chunks visited ∧ t' = t)
              (λ _, False) (blocks_of t key_prefix)) with (a := @nil bytes) (t := t)
    as (out & t' & evs & Hrun & [-> ->] & _ & Hev).
  - intros visited kv rest out t1 _ [-> ->] _.
    exists (chunks visited ++ [item_data kv.2]), t, [].
    split; [apply effect_on_ret|]. split; [|split; [done|constructor]].
    split; [|done]. unfold chunks. by rewrite fmap_app.
  - done.
  - done.
  - exists evs. split; [exact Hrun|].
    eapply Forall_impl; [exact Hev|]. by intros e [[]|H].
Qed.

(** [serialize_iter] on any store, with any page size: it returns normally,
    sends nothing but Queries on the blocks of the file, changes nothing,
    and yields the [data] of every stored block exactly once, in ascending
    order of the sort keys. *)
Theorem serialize_iter_yields_blocks_in_key_order (s : state) :
  ∃ items evs,
    effect (serialize_iter page_limit key_prefix) s (chunks items)
      (st_table s) evs
    ∧ Forall (λ e, ∃ start, e = Sent (Query (BL key_prefix) start)) evs
    ∧ StronglySorted (λ x y, Key.lt x.1 y.1) items
    ∧ ∀ k item,
        (k, item) ∈ items ↔ blocks_of (st_table s) key_prefix !! k = Some item.
Proof.
  destruct (serialize_iter_queries (st_table s)) as (evs & Hrun & Hev).
  exists (sorted_items (blocks_of (st_table s) key_prefix)), evs.
  split; [by apply Hrun|]. split; [done|].
  split; [apply sorted_items_strict|].
  intros k item. apply elem_of_sorted_items.
Qed.

End Listing.

(** ** Deserializing over a file that has blocks *)

Section Overwrite.

Variable block_size : Z.
Hypothesis block_size_pos : 1 <= block_size.
Variable key_prefix : string.

(** [deserialize_iter] on any store: block [i] of the repacked source is
    stored under the key of [i], the size counter is set to the number of
    bytes of the source, and every block of the file under another key is
    left as it was: blocks the file had beyond the new ones are not
    deleted. *)
Theorem deserialize_iter_keeps_other_blocks (bytes_iter : list bytes)
    (s : state) :
  let cs := repack block_size (concat bytes_iter) in
  ∃ t' evs,
    effect (deserialize_iter block_size key_prefix bytes_iter) s tt t' evs
    ∧ get_total t' key_prefix = len (concat bytes_iter)
    ∧ (∀ i c, cs !! i = Some c →
         blocks_of t' key_prefix !! Key.fmt10 (Z.of_nat i)
         = Some (BlockItem c (len c)))
    ∧ (∀ k, (∀ i, (i < length cs)%nat → k ≠ Key.fmt10 (Z.of_nat i)) →
         blocks_of t' key_prefix !! k
         = blocks_of (st_table s) key_prefix !! k).
Proof.
  intros cs.
  destruct (deserialize_iter_effect block_size block_size_pos key_prefix
              bytes_iter (st_table s)) as (evs & Hrun).
  fold cs in Hrun. eexists _, evs. split; [by apply Hrun|].
  split; [apply get_total_set_fsize|].
  rewrite blocks_of_set_fsize. split.
  - intros i c Hi. apply stored_lookup; [done|]. left.
    by apply (listing_from_lookup cs 0 i c).
  - intros k Hk. apply option_eq. intros item.
    rewrite stored_lookup by done.
    assert (k ∉ (listing_from 0 cs).*1) as Hfresh.
    { intros Hin. apply list_elem_of_fmap in Hin as ([k' item'] & -> & Hin).
      apply elem_of_listing_from in Hin as (i & c & Hi & -> & _).
      apply (Hk i); [by apply lookup_lt_Some in Hi|done]. }
    split; [intros [Hin|[Hold _]]; [|done]|by right].
    exfalso. apply Hfresh. apply list_elem_of_fmap. by exists (k, item).
Qed.

End Overwrite.

Lemma deserialize_iter_keeps_other_blocks_witness :
  let s := State (set_blocks "db"
                    {[ Key.fmt10 0 := BlockItem [x01; x02] 2;
                       Key.fmt10 1 := BlockItem [x03; x04] 2;
                       Key.fmt10 2 := BlockItem [x05] 1 ]} empty_table) 0 [] in
  let cs := repack 2 (concat [[x0a; x0b; x0c]]) in
  ∃ t' evs,
    effect (deserialize_iter 2 "db" [[x0a; x0b; x0c]]) s tt t' evs
    ∧ get_total t' "db" = len (concat [[x0a; x0b; x0c]])
    ∧ (∀ i c, cs !! i = Some c →
         blocks_of t' "db" !! Key.fmt10 (Z.of_nat i)
         = Some (BlockItem c (len c)))
    ∧ (∀ k, (∀ i, (i < length cs)%nat → k ≠ Key.fmt10 (Z.of_nat i)) →
         blocks_of t' "db" !! k = blocks_of (st_table s) "db" !! k).
Proof.
  apply (deserialize_iter_keeps_other_blocks 2 ltac:(lia) "db"
           [[x0a; x0b; x0c]]).
Defined.

(** ** Writing nothing *)

(** [xWrite(b'', offset)] at any offset, with any block size other than 0:
    no block is read or written (the padding loop after the lock page has an
    empty range too); the one request is the update of the size counter
    by 0, which the store refuses, so the call raises and the table is as it
    was. *)
Theorem xWrite_empty_data (key_prefix : string) (block_size offset : Z)
    (s : state) :
  block_size ≠ 0 →
  raises (xWrite key_prefix block_size [] offset) s
    (ClientError "ValidationException") (st_table s) (st_attained s)
    [size_update key_prefix 0].
Proof.
  intros _. unfold xWrite.
  assert (effect_on
            (if offset =? lock_page_offset + len []
             then pad_blocks key_prefix block_size
                    (range_down (offset / block_size - 1)
                       (lock_page_offset / block_size - 1)) 0
             else mret 0) (st_table s) 0 (st_table s) []) as Hpad.
  { destruct (offset =? lock_page_offset + len []) eqn:Hoff;
      [|apply effect_on_ret].
    apply Z.eqb_eq in Hoff. change (len []) with 0 in Hoff.
    rewrite Z.add_0_r in Hoff. subst offset.
    rewrite range_down_nil by lia. apply effect_on_ret. }
  change (_blocks block_size offset (len [])) with (Some (@nil (Z * Z * Z))).
  apply (raises_on_bind _ _ (st_table s) 0 (st_table s) [] _ (st_table s)
           [size_update key_prefix 0] Hpad); [|done].
  apply (raises_on_bind _ _ (st_table s) [] (st_table s) [] _ (st_table s)
           [size_update key_prefix 0]); [apply effect_on_ret|].
  apply (raises_on_bind _ _ (st_table s) (0, 0) (st_table s) [] _ (st_table s)
           [size_update key_prefix 0]); [apply effect_on_ret|].
  apply add_size_raises.
Qed.

Lemma xWrite_empty_data_witness :
  raises (xWrite "db" 4 [] lock_page_offset) (State empty_table 0 [])
    (ClientError "ValidationException") empty_table 0 [size_update "db" 0].
Proof.
  apply (xWrite_empty_data "db" 4 lock_page_offset (State empty_table 0 [])).
  lia.
Defined.

(** ** The file object of serialize_fileobj *)

Lemma up_to_iter_zero fuel st : up_to_iter fuel 0 st = Some ([], st).
Proof. by destruct fuel. Qed.

Lemma up_to_iter_more_fuel fuel : ∀ fuel' num st r,
  (fuel <= fuel')%nat →
  up_to_iter fuel num st = Some r → up_to_iter fuel' num st = Some r.
Proof.
  induction fuel as [|fuel IH]; intros fuel' num [[chunk offset] it] r Hle H.
  { cbn [up_to_iter] in H. destruct (num =? 0) eqn:E; [|done].
    apply Z.eqb_eq in E as ->. by rewrite up_to_iter_zero. }
  destruct fuel' as [|fuel']; [lia|].
  cbn [up_to_iter] in *. destruct (num =? 0); [done|].
  destruct (offset =? len chunk).
  - destruct it as [|c it]; [done|].
    destruct (up_to_iter fuel _ _) as [r'|] eqn:Hrec; [|done].
    by rewrite (IH fuel' _ _ r' ltac:(lia) Hrec).
  - destruct (up_to_iter fuel _ _) as [r'|] eqn:Hrec; [|done].
    by rewrite (IH fuel' _ _ r' ltac:(lia) Hrec).
Qed.

(** Every round of [up_to_iter] after the first begins with the chunk used
    up, so it takes the next chunk from the iterator or ends the loop. *)
Lemma up_to_iter_rounds fuel : ∀ num st,
  0 <= num → offset_ok st →
  (length st.2 + (if (st.1.2 =? len st.1.1)%Z then 1 else 2) <= fuel)%nat →
  is_Some (up_to_iter fuel num st).
Proof.
  induction fuel as [|fuel IH]; intros num [[chunk offset] it] Hnum Hok Hfuel;
    unfold offset_ok in *; cbn [fst snd] in *.
  { destruct (offset =? len chunk); lia. }
  cbn [up_to_iter]. destruct (num =? 0) eqn:E0; [done|].
  apply Z.eqb_neq in E0.
  assert (∀ chunk' offset' it',
            0 <= offset' <= len chunk' → (length it' + 1 <= fuel)%nat →
            is_Some (up_to_iter fuel (num - Z.min num (len chunk' - offset'))
                       (chunk', offset' + Z.min num (len chunk' - offset'), it')))
    as Hstep.
  { intros chunk' offset' it' Hok' Hlen.
    destruct (decide (num <= len chunk' - offset')) as [Hall|Hpart].
    - rewrite Z.min_l by done. rewrite Z.sub_diag, up_to_iter_zero. done.
    - rewrite Z.min_r by lia. apply IH.
      + lia.
      + unfold offset_ok. cbn [fst snd]. lia.
      + cbn [fst snd].
        by replace (offset' + (len chunk' - offset') =? len chunk') with true
          by (symmetry; apply Z.eqb_eq; lia). }
  destruct (offset =? len chunk) eqn:Eo.
  - destruct it as [|c it]; [done|]. cbn [length] in Hfuel.
    destruct (Hstep c 0 it) as [r Hr]; [pose proof (len_nonneg c); lia|lia|].
    cbv zeta. rewrite Hr. by destruct r.
  - apply Z.eqb_neq in Eo.
    destruct (Hstep chunk offset it) as [r Hr]; [lia|lia|].
    cbv zeta. rewrite Hr. by destruct r.
Qed.

(** [read(n)] for [n >= 0], and [read(-1)], which asks for
    [4294967294 * 65536] bytes: it returns the next bytes of the chunks not
    yet handed out, as many as asked for or all that are left, and the rest
    is kept for the reads that follow. *)
Theorem read_returns_next_bytes (n : Z) (st : bytes * Z * list bytes) :
  0 <= n ∨ n = -1 →
  offset_ok st →
  let k := Z.to_nat (if n =? -1 then max_file_size else n) in
  ∃ st', read n st = Some (take k (remaining st), st')
         ∧ remaining st' = drop k (remaining st)
         ∧ offset_ok st'.
Proof.
  intros Hn Hok k. unfold read.
  set (num := if n =? -1 then max_file_size else n) in *.
  assert (0 <= num) as Hnum.
  { unfold num. destruct Hn as [Hn| ->]; [|done].
    destruct (n =? -1); [done|lia]. }
  destruct (up_to_iter_rounds (length st.2 + 2) num st Hnum Hok) as [r Hr].
  { destruct (st.1.2 =? len st.1.1); lia. }
  destruct (up_to_iter_spec
              ((length st.2 + 2) + (Z.to_nat num + length st.2 + 1)) num st
              Hnum Hok ltac:(lia))
    as (pieces & st' & Hrun & Hcat & Hrest & Hok' & _).
  rewrite (up_to_iter_more_fuel (length st.2 + 2)
             ((length st.2 + 2) + (Z.to_nat num + length st.2 + 1))
             num st r ltac:(lia) Hr) in Hrun.
  injection Hrun as ->. cbv zeta. rewrite Hr. cbn.
  exists st'. by rewrite Hcat.
Qed.

Lemma read_returns_next_bytes_witness :
  let st := ([x01; x02], 1, [[x03; x04]; [x05]]) in
  let k := Z.to_nat (if 2 =? -1 then max_file_size else 2) in
  ∃ st', read 2 st = Some (take k (remaining st), st')
         ∧ remaining st' = drop k (remaining st)
         ∧ offset_ok st'.
Proof.
  apply (read_returns_next_bytes 2 ([x01; x02], 1, [[x03; x04]; [x05]])).
  - left. lia.
  - unfold offset_ok, len. simpl. lia.
Defined.

Lemma read_next (st : bytes * Z * list bytes) :
  offset_ok st →
  ∃ st', read (-1) st
         = Some (take (Z.to_nat max_file_size) (remaining st), st')
         ∧ remaining st' = drop (Z.to_nat max_file_size) (remaining st).
Proof.
  intros Hok. unfold read. change (-1 =? -1) with true. cbv iota.
  assert (0 <= max_file_size) as Hnum by done.
  destruct (up_to_iter_rounds (length st.2 + 2) max_file_size st Hnum Hok)
    as [r Hr].
  { destruct (st.1.2 =? len st.1.1); lia. }
  destruct (up_to_iter_spec
              ((length st.2 + 2) + (Z.to_nat max_file_size + length st.2 + 1))
              max_file_size st Hnum Hok ltac:(lia))
    as (pieces & st' & Hrun & Hcat & Hrest & _).
  rewrite (up_to_iter_more_fuel (length st.2 + 2)
             ((length st.2 + 2) + (Z.to_nat max_file_size + length st.2 + 1))
             max_file_size st r ltac:(lia) Hr) in Hrun.
  injection Hrun as ->. rewrite Hr. cbn.
  exists st'. by rewrite Hcat.
Qed.

Section WholeFile.

Variable page_limit : positive.
Variable key_prefix : string.

(** [serialize_fileobj(key_prefix).read()] returns the whole file, the
    blocks concatenated in sort-key order, when the file has at most
    [4294967294 * 65536] bytes; nothing is left for a second read.  The
    store is left as it was, and the requests sent are Queries on the blocks
    of the file and nothing else. *)
Theorem serialize_fileobj_reads_whole_file (s : state) :
  len (file_content (st_table s) key_prefix) <= max_file_size →
  ∃ st0 evs st',
    effect (serialize_fileobj page_limit key_prefix) s st0 (st_table s) evs
    ∧ Forall (λ e, ∃ start, e = Sent (Query (BL key_prefix) start)) evs
    ∧ read (-1) st0 = Some (file_content (st_table s) key_prefix, st')
    ∧ remaining st' = [].
Proof.
  intros Hsize.
  destruct (serialize_iter_queries page_limit key_prefix (st_table s))
    as (evs & Hrun & Hqueries).
  set (st0 := (@nil byte, 0, file_chunks (st_table s) key_prefix)).
  destruct (read_next st0) as (st' & Hread & Hrest); [done|].
  exists st0, evs, st'. split; [|split; [done|split]].
  - unfold serialize_fileobj.
    eapply effect_eq;
      [eapply effect_bind; [by apply Hrun|]|done|done|apply app_nil_r].
    intros s1 Ht1 _. by apply effect_ret.
  - rewrite Hread. do 2 f_equal. unfold st0, remaining. cbn [fst snd].
    rewrite drop_nil. cbn [app]. apply take_ge.
    fold (file_content (st_table s) key_prefix).
    unfold len in Hsize. lia.
  - rewrite Hrest. unfold st0, remaining. cbn [fst snd].
    rewrite drop_nil. cbn [app]. apply drop_ge.
    fold (file_content (st_table s) key_prefix).
    unfold len in Hsize. lia.
Qed.

End WholeFile.

Lemma serialize_fileobj_reads_whole_file_witness :
  let s := State (set_blocks "db"
                    {[ Key.fmt10 0 := BlockItem [x01; x02] 2;
                       Key.fmt10 1 := BlockItem [x03] 1 ]} empty_table) 0 [] in
  ∃ st0 evs st',
    effect (serialize_fileobj 1 "db") s st0 (st_table s) evs
    ∧ Forall (λ e, ∃ start, e = Sent (Query (BL "db") start)) evs
    ∧ read (-1) st0 = Some (file_content (st_table s) "db", st')
    ∧ remaining st' = [].
Proof.
  apply (serialize_fileobj_reads_whole_file 1 "db"
           (State (set_blocks "db"
                     {[ Key.fmt10 0 := BlockItem [x01; x02] 2;
                        Key.fmt10 1 := BlockItem [x03] 1 ]} empty_table) 0 [])).
  vm_compute. discriminate.
Defined.

(** ** Files laid out block by block *)

Lemma slice_slice a b x y (l : bytes) :
  0 <= a → 0 <= x → 0 <= y → a + y <= b →
  slice x y (slice a b l) = slice (a + x) (a + y) l.
Proof.
  intros Ha Hx Hy Hb. unfold slice.
  rewrite take_drop_commute, take_take, drop_drop.
  f_equal; [lia|]. f_equal. lia.
Qed.

Lemma slice_app_l a b (l1 l2 : bytes) :
  b <= len l1 → slice a b (l1 ++ l2) = slice a b l1.
Proof.
  intros Hb. unfold slice, len in *. by rewrite take_app_le by lia.
Qed.

Lemma slice_app_r a b (l1 l2 : bytes) :
  len l1 <= a → a <= b →
  slice a b (l1 ++ l2) = slice (a - len l1) (b - len l1) l2.
Proof.
  intros Ha Hb. unfold slice, len in *.
  rewrite take_app_ge by lia. rewrite drop_app_ge by lia.
  f_equal; [lia|]. f_equal. lia.
Qed.

Lemma slice_from_slice a b (l : bytes) :
  len l <= b → slice_from a l = slice a b l.
Proof.
  intros Hb. unfold slice, slice_from, len in *. by rewrite take_ge by lia.
Qed.

Lemma slice_beyond a b (l : bytes) : len l <= a → 0 <= a → slice a b l = [].
Proof.
  intros Ha H0. unfold slice, len in *. apply drop_ge.
  rewrite length_take. lia.
Qed.

Lemma rechunk_lookup (n : nat) f : ∀ (l : bytes) i c,
  rechunk f n l !! i = Some c → c = take n (drop (i * n) l).
Proof.
  induction f as [|f IH]; intros l i c H; [done|].
  destruct l as [|b l]; [done|]. cbn [rechunk] in H.
  destruct i as [|i]; [by injection H as <-|].
  cbn [lookup list_lookup] in H. apply IH in H as ->.
  by rewrite drop_drop.
Qed.

Section Contiguous.

Variable key_prefix : string.
Variable block_size : Z.
Hypothesis block_size_pos : 1 <= block_size.

Lemma read_range_content t content fuel : ∀ offset amount l,
  holds_content block_size t key_prefix content →
  0 <= offset → 0 <= amount →
  blocks_loop block_size fuel offset amount = Some l →
  read_range t key_prefix l = slice offset (offset + amount) content.
Proof.
  induction fuel as [|fuel IH]; intros offset amount l Hc Ho Ha Hl.
  { cbn [blocks_loop] in Hl. destruct (amount >? 0) eqn:E; [done|].
    injection Hl as <-. rewrite Z.gtb_ltb in E. apply Z.ltb_ge in E.
    replace amount with 0 by lia. by rewrite Z.add_0_r, slice_empty. }
  cbn [blocks_loop] in Hl. destruct (amount >? 0) eqn:Hpos.
  2:{ injection Hl as <-. rewrite Z.gtb_ltb in Hpos. apply Z.ltb_ge in Hpos.
      replace amount with 0 by lia. by rewrite Z.add_0_r, slice_empty. }
  apply Z.gtb_lt in Hpos.
  set (start := offset mod block_size) in *.
  set (consume := Z.min (block_size - start) amount) in *.
  destruct (blocks_loop block_size fuel (offset + consume) (amount - consume))
    as [rest|] eqn:Hrest; [|done].
  cbn in Hl. injection Hl as <-.
  pose proof (Z.mod_pos_bound offset block_size ltac:(lia)) as Hstart.
  fold start in Hstart.
  pose proof (Z_div_mod_eq_full offset block_size) as Hdiv. fold start in Hdiv.
  assert (0 <= offset / block_size) as Hblock by (apply Z.div_pos; lia).
  assert (1 <= consume) as Hconsume by (unfold consume; lia).
  assert (consume <= amount) by (unfold consume; lia).
  assert (start + consume <= block_size) by (unfold consume; lia).
  rewrite read_range_cons. cbn [fst snd].
  rewrite (IH (offset + consume) (amount - consume) rest Hc
             ltac:(lia) ltac:(lia) Hrest).
  rewrite Hc by done.
  rewrite slice_slice by nia.
  replace (offset / block_size * block_size + start) with offset by lia.
  replace (offset / block_size * block_size + (start + consume))
    with (offset + consume) by lia.
  rewrite slice_adjacent by lia. f_equal. lia.
Qed.

(** On a file laid out block by block, [xRead(amount, offset)] returns
    [content[offset : offset + amount]], with one GetItem for each block of
    the range and no change to the store. *)
Theorem xRead_returns_content_slice (content : bytes) (amount offset : Z)
    (s : state) :
  0 <= amount → 0 <= offset →
  holds_content block_size (st_table s) key_prefix content →
  ∃ evs,
    effect (xRead key_prefix block_size amount offset) s
      (slice offset (offset + amount) content) (st_table s) evs
    ∧ Forall (on_blocks key_prefix
                (λ k, offset / block_size <= k
                      ∧ k * block_size < offset + amount)) evs.
Proof.
  intros Ha Ho Hc.
  destruct (blocks_loop_facts block_size block_size_pos (Z.to_nat amount)
              offset amount) as (triples & Hl & Hsum & Hok & Hfrom & _);
    [done..|].
  eexists. split.
  - eapply effect_eq;
      [by apply (xRead_effect key_prefix block_size amount offset triples)
      | |done|done].
    by apply (read_range_content _ _ (Z.to_nat amount)).
  - apply Forall_fmap, Forall_forall. intros tr Hin.
    apply list_elem_of_lookup in Hin as [i Hi].
    destruct (blocks_loop_tile block_size block_size_pos _ _ _ _ Ho Hl i tr Hi)
      as (Hpos & _ & _ & _ & _).
    pose proof Hok as Hall.
    apply Forall_forall with (x := tr) in Hok as (Hb & Hs & Hcons & Hfit);
      [|by eapply list_elem_of_lookup_2].
    apply Forall_forall with (x := tr) in Hfrom;
      [|by eapply list_elem_of_lookup_2].
    exists tr.1.1. split; [|by left].
    split; [done|]. unfold position in Hpos.
    assert (consumed (take i triples) + tr.2 <= amount); [|lia].
    rewrite <-Hsum. rewrite <-(take_drop_middle triples i tr Hi) at 2.
    clear -Hall block_size_pos.
    assert (∀ l, Forall (triple_ok block_size) l → 0 <= consumed l) as Hnn.
    { induction 1 as [|? ? (_ & _ & ? & _)]; simpl; lia. }
    assert (∀ l1 l2, consumed (l1 ++ l2) = consumed l1 + consumed l2) as Happ.
    { induction l1 as [|x l1 IH]; intros l2; [done|].
      cbn [app]. rewrite !consumed_cons, IH. lia. }
    rewrite Happ, consumed_cons.
    pose proof (Hnn (drop (S i) triples)
                  ltac:(by apply Forall_drop)). lia.
Qed.

End Contiguous.

Lemma xRead_returns_content_slice_witness :
  let s := State (set_blocks "db"
                    {[ Key.fmt10 0 := BlockItem [x01; x02] 2;
                       Key.fmt10 1 := BlockItem [x03] 1 ]} empty_table) 0 [] in
  ∃ evs,
    effect (xRead "db" 2 2 1) s (slice 1 (1 + 2) [x01; x02; x03]) (st_table s)
      evs
    ∧ Forall (on_blocks "db" (λ k, 1 / 2 <= k ∧ k * 2 < 1 + 2)) evs.
Proof.
  apply (xRead_returns_content_slice "db" 2 ltac:(lia) [x01; x02; x03] 2 1
           (State (set_blocks "db"
                     {[ Key.fmt10 0 := BlockItem [x01; x02] 2;
                        Key.fmt10 1 := BlockItem [x03] 1 ]} empty_table) 0 []));
    [lia|lia|].
  intros b Hb. unfold block_bytes. cbn [st_table].
  rewrite blocks_of_set_blocks.
  destruct (decide (b = 0)) as [->|H0]; [reflexivity|].
  destruct (decide (b = 1)) as [->|H1]; [reflexivity|].
  rewrite lookup_insert_ne, lookup_singleton_ne;
    [|intros E; apply KeyFacts.fmt10_inj in E; lia..].
  symmetry. apply slice_beyond; unfold len; simpl; lia.
Defined.

Lemma length_concat_bound (n : nat) (cs : list bytes) :
  Forall (λ c : bytes, (1 <= length c <= n)%nat) cs →
  (length (concat cs) <= n * length cs)%nat.
Proof.
  induction 1 as [|c cs Hc _ IH]; [cbn; lia|].
  cbn [concat length]. rewrite length_app. lia.
Qed.

Section Restored.

Variable key_prefix : string.
Variable block_size : Z.
Hypothesis block_size_pos : 1 <= block_size.

(** What [deserialize_iter] stores in a file without blocks is laid out
    block by block. *)
Lemma stored_holds_content content t :
  blocks_of t key_prefix = ∅ →
  holds_content block_size
    (stored key_prefix 0 (repack block_size content) t) key_prefix content.
Proof.
  intros Hempty b Hb. unfold block_bytes.
  set (cs := repack block_size content).
  assert (1 <= Z.to_nat block_size)%nat as Hn by lia.
  destruct (cs !! Z.to_nat b) as [c|] eqn:Hc.
  - pose proof (listing_from_lookup cs 0 (Z.to_nat b) c Hc) as Hin.
    replace (0 + Z.of_nat (Z.to_nat b)) with b in Hin by lia.
    assert (blocks_of (stored key_prefix 0 cs t) key_prefix !! Key.fmt10 b
            = Some (BlockItem c (len c))) as ->.
    { apply stored_lookup; [done|]. by left. }
    cbn [item_data]. apply rechunk_lookup in Hc as ->.
    unfold slice. rewrite take_drop_commute. f_equal; [nia|]. f_equal. nia.
  - assert (blocks_of (stored key_prefix 0 cs t) key_prefix !! Key.fmt10 b
            = None) as ->.
    { apply eq_None_not_Some. intros [item Hitem].
      apply stored_lookup in Hitem; [|done].
      destruct Hitem as [Hin|[Hold _]].
      - apply elem_of_listing_from in Hin as (i & c & Hi & E & _).
        apply KeyFacts.fmt10_inj in E; [|lia..].
        replace (Z.to_nat b) with i in Hc by lia. congruence.
      - by rewrite Hempty, lookup_empty in Hold. }
    symmetry. apply slice_beyond; [|nia].
    apply lookup_ge_None in Hc.
    destruct (rechunk_sizes (Z.to_nat block_size) Hn (length content) content
                ltac:(lia)) as [Hsizes _].
    apply length_concat_bound in Hsizes.
    rewrite concat_rechunk in Hsizes by lia.
    fold (repack block_size content) in Hsizes. fold cs in Hsizes.
    unfold len. nia.
Qed.

(** Reading a restored file: after [deserialize_iter] into a file without
    blocks, [xRead(amount, offset)] returns the bytes
    [offset : offset + amount] of the source, whatever the length of the
    source (blocks are fetched by their number, so the order of the sort keys
    plays no part). *)
Theorem deserialize_then_xRead (bytes_iter : list bytes) (amount offset : Z)
    (s : state) :
  blocks_of (st_table s) key_prefix = ∅ →
  0 <= amount → 0 <= offset →
  ∃ t' evs,
    effect (deserialize_iter block_size key_prefix bytes_iter;;
            xRead key_prefix block_size amount offset) s
      (slice offset (offset + amount) (concat bytes_iter)) t' evs.
Proof.
  intros Hempty Ha Ho.
  destruct (deserialize_iter_effect block_size block_size_pos key_prefix
              bytes_iter (st_table s)) as (evs1 & Hrun1).
  destruct (blocks_loop_facts block_size block_size_pos (Z.to_nat amount)
              offset amount) as (triples & Hl & _); [done..|].
  eexists _, _.
  eapply effect_eq;
    [eapply effect_bind; [by apply Hrun1|]|done|done|done].
  intros s1 Ht1 _.
  eapply effect_eq;
    [by apply (xRead_effect key_prefix block_size amount offset triples)
    | |done|done].
  apply (read_range_content key_prefix block_size block_size_pos _ _
           (Z.to_nat amount)); [|done..].
  by apply stored_holds_content.
Qed.

End Restored.

Lemma deserialize_then_xRead_witness :
  ∃ t' evs,
    effect (deserialize_iter 2 "db" [[x01]; [x02; x03; x04]; [x05]];;
            xRead "db" 2 3 1) (State empty_table 0 [])
      (slice 1 (1 + 3) (concat [[x01]; [x02; x03; x04]; [x05]])) t' evs.
Proof.
  apply (deserialize_then_xRead "db" 2 ltac:(lia)
           [[x01]; [x02; x03; x04]; [x05]] 3 1 (State empty_table 0 []));
    [reflexivity|lia|lia].
Defined.

(** ** Writing into a file laid out block by block *)

Lemma slice_of_slice_to lo hi n (l : bytes) :
  hi <= n → slice lo hi (slice_to n l) = slice lo hi l.
Proof.
  intros H. unfold slice, slice_to. rewrite take_take. do 2 f_equal. lia.
Qed.

Lemma slice_of_slice_from k x y (l : bytes) :
  0 <= k → 0 <= x → 0 <= y →
  slice x y (slice_from k l) = slice (k + x) (k + y) l.
Proof.
  intros Hk Hx Hy. unfold slice, slice_from.
  rewrite take_drop_commute, drop_drop. f_equal; [lia|]. f_equal. lia.
Qed.

Lemma len_slice_to_le n (l : bytes) : 0 <= n <= len l → len (slice_to n l) = n.
Proof. intros H. rewrite len_slice_to. lia. Qed.

Lemma overwrite_nothing content offset :
  0 <= offset → overwrite content [] offset = content.
Proof.
  intros H. unfold overwrite, slice_to, slice_from. cbn [app].
  change (len []) with 0. rewrite Z.add_0_r. apply take_drop.
Qed.

Lemma overwrite_outside content data offset lo hi :
  0 <= offset <= len content → 0 <= lo <= hi →
  hi <= offset ∨ offset + len data <= lo →
  slice lo hi (overwrite content data offset) = slice lo hi content.
Proof.
  intros Ho Hlo Hout. unfold overwrite.
  pose proof (len_nonneg data) as Hdata.
  pose proof (len_slice_to_le offset content Ho) as HA.
  destruct Hout as [Hbefore|Hafter].
  - rewrite slice_app_l by lia. by apply slice_of_slice_to.
  - rewrite slice_app_r by lia. rewrite slice_app_r by lia.
    rewrite slice_of_slice_from by lia. f_equal; lia.
Qed.

Lemma overwrite_inside content data offset d w :
  0 <= offset <= len content → 0 <= d → 0 <= w → d + w <= len data →
  slice (offset + d) (offset + d + w) (overwrite content data offset)
  = slice d (d + w) data.
Proof.
  intros Ho Hd Hw Hfit. unfold overwrite.
  pose proof (len_slice_to_le offset content Ho) as HA.
  rewrite slice_app_r by lia. rewrite slice_app_l by lia. f_equal; lia.
Qed.

Section WriteContent.

Variable key_prefix : string.
Variable block_size : Z.
Hypothesis block_size_pos : 1 <= block_size.

Lemma written_block_bytes data l : ∀ d t i tr,
  Forall (λ tr, 0 <= tr.1.1) l →
  StronglySorted Z.lt ((λ tr, tr.1.1) <$> l) →
  l !! i = Some tr →
  block_bytes (written key_prefix block_size data l d t) key_prefix tr.1.1
  = spliced block_size (block_bytes t key_prefix tr.1.1)
      (slice (d + consumed (take i l)) (d + consumed (take i l) + tr.2) data)
      tr.1.2 tr.2.
Proof.
  induction l as [|a l IH]; intros d t i tr Hnn Hs Hi; [done|].
  apply Forall_cons in Hnn as [Ha Hnn]. rewrite fmap_cons in Hs.
  apply StronglySorted_inv in Hs as [Hs Hlt]. rewrite Forall_forall in Hlt.
  destruct i as [|j].
  - injection Hi as <-. cbn [written take]. change (consumed []) with 0.
    rewrite Z.add_0_r.
    rewrite written_bytes_other, block_bytes_put_eq; [done|done|].
    apply Forall_forall. intros tr' Hin. split.
    + by apply (proj1 (Forall_forall _ _) Hnn).
    + assert (a.1.1 < tr'.1.1); [|lia].
      apply Hlt. apply list_elem_of_fmap. by exists tr'.
  - cbn [lookup list_lookup] in Hi. cbn [written take].
    rewrite (IH _ _ j tr Hnn Hs Hi). rewrite consumed_cons.
    assert (a.1.1 < tr.1.1) as Hne.
    { apply Hlt. apply list_elem_of_fmap. exists tr.
      split; [done|]. by eapply list_elem_of_lookup_2. }
    rewrite block_bytes_put_ne;
      [|done|by apply (proj1 (Forall_forall _ _) Hnn tr);
              eapply list_elem_of_lookup_2|lia].
    do 2 f_equal; lia.
Qed.

Lemma blocks_loop_cover fuel : ∀ offset amount l b,
  0 <= offset → 0 < amount →
  blocks_loop block_size fuel offset amount = Some l →
  Forall (λ tr, tr.1.1 ≠ b) l →
  (b + 1) * block_size <= offset ∨ offset + amount <= b * block_size.
Proof.
  induction fuel as [|fuel IH]; intros offset amount l b Ho Hpos Hl Hb.
  { cbn [blocks_loop] in Hl.
    by replace (amount >? 0) with true in Hl
      by (symmetry; apply Z.gtb_lt; lia). }
  cbn [blocks_loop] in Hl.
  replace (amount >? 0) with true in Hl by (symmetry; apply Z.gtb_lt; lia).
  set (start := offset mod block_size) in *.
  set (consume := Z.min (block_size - start) amount) in *.
  destruct (blocks_loop block_size fuel (offset + consume) (amount - consume))
    as [rest|] eqn:Hrest; [|done].
  cbn in Hl. injection Hl as <-.
  apply Forall_cons in Hb as [Hb0 Hb]. cbn [fst] in Hb0.
  pose proof (Z.mod_pos_bound offset block_size ltac:(lia)) as Hstart.
  fold start in Hstart.
  pose proof (Z_div_mod_eq_full offset block_size) as Hdiv. fold start in Hdiv.
  destruct (decide (amount - consume <= 0)) as [Hlast|Hmore].
  - assert (consume = amount) as Hall by (unfold consume in *; lia).
    assert (b < offset / block_size ∨ offset / block_size < b) as [Hlt|Hgt]
      by lia; [left|right]; nia.
  - assert (consume = block_size - start) as Hfull
      by (unfold consume in *; lia).
    destruct (IH (offset + consume) (amount - consume) rest b
                ltac:(lia) ltac:(lia) Hrest Hb) as [Hleft|Hright];
      [|right; lia].
    left. assert (b < offset / block_size) by nia. nia.
Qed.

(** The bytes a block gets from the write loop are the bytes of that block
    in the overwritten content. *)
Lemma spliced_overwrite content data offset b start w d :
  0 <= offset <= len content →
  0 <= b → 0 <= start → 1 <= w → start + w <= block_size →
  0 <= d → d + w <= len data →
  b * block_size + start = offset + d →
  start = 0 ∨ d = 0 →
  start + w = block_size ∨ d + w = len data →
  spliced block_size
    (slice (b * block_size) ((b + 1) * block_size) content)
    (slice d (d + w) data) start w
  = slice (b * block_size) ((b + 1) * block_size)
      (overwrite content data offset).
Proof.
  intros Ho Hb Hs Hw Hfit Hd Hdw Hpos Hfirst Hlast.
  set (lo := b * block_size). set (hi := (b + 1) * block_size).
  set (orig := slice lo hi content).
  assert (0 <= lo) by (unfold lo; nia).
  assert (hi = lo + block_size) as Hhi by (unfold lo, hi; lia).
  assert (len orig <= block_size) as Horig.
  { unfold orig. rewrite len_slice by done. lia. }
  assert (start <= len orig) as Hstart.
  { unfold orig. rewrite len_slice by done.
    destruct Hfirst as [->| ->]; lia. }
  assert (len (slice d (d + w) data) = w) as Hchunk
    by (rewrite len_slice by done; lia).
  (* the three parts of the block in the new content *)
  rewrite <-(slice_adjacent lo (lo + start) hi (overwrite content data offset))
    by lia.
  rewrite <-(slice_adjacent (lo + start) (lo + start + w) hi
               (overwrite content data offset)) by lia.
  assert (slice (lo + start) (lo + start + w) (overwrite content data offset)
          = slice d (d + w) data) as ->.
  { replace (lo + start) with (offset + d) by (unfold lo; lia).
    apply overwrite_inside; lia. }
  assert (slice lo (lo + start) (overwrite content data offset)
          = slice 0 start orig) as ->.
  { unfold orig. rewrite slice_slice by lia. rewrite Z.add_0_r.
    destruct (decide (start = 0)) as [->|Hne].
    - by rewrite Z.add_0_r, !slice_empty.
    - apply overwrite_outside; [done|lia|]. left. lia. }
  assert (slice (lo + start + w) hi (overwrite content data offset)
          = slice_from (start + w) orig) as ->.
  { rewrite (slice_from_slice (start + w) block_size orig) by done.
    unfold orig. rewrite slice_slice by lia.
    replace (lo + (start + w)) with (lo + start + w) by lia.
    replace (lo + block_size) with hi by lia.
    destruct (decide (start + w = block_size)) as [Hfull|Hpart].
    - replace (lo + start + w) with hi by lia. by rewrite !slice_empty by lia.
    - apply overwrite_outside; [done|lia|]. right. lia. }
  unfold spliced.
  replace (Z.max (start - len orig) 0) with 0 by lia.
  change (zeros 0) with (@nil byte). rewrite app_nil_r.
  destruct (negb (start =? 0) || negb (len (slice d (d + w) data) =? block_size))
    eqn:E; [done|].
  apply orb_false_iff in E as [E1 E2].
  apply negb_false_iff, Z.eqb_eq in E1, E2. subst start.
  rewrite slice_empty by done. cbn [app].
  rewrite (slice_from_slice (0 + w) block_size orig) by done.
  assert (0 + w = block_size) as -> by lia.
  rewrite slice_empty by lia. by rewrite app_nil_r.
Qed.

Lemma written_holds_content content data offset l t :
  0 <= offset <= len content →
  _blocks block_size offset (len data) = Some l →
  holds_content block_size t key_prefix content →
  holds_content block_size (written key_prefix block_size data l 0 t)
    key_prefix (overwrite content data offset).
Proof.
  intros Ho Hl Hc b Hb. unfold _blocks in Hl.
  pose proof (len_nonneg data) as Hdata.
  destruct (blocks_loop_facts block_size block_size_pos
              (Z.to_nat (len data)) offset (len data))
    as (l' & Hl' & Hsum & Hok & _ & _); [lia..|].
  rewrite Hl in Hl'. injection Hl' as <-.
  pose proof (blocks_loop_strict block_size block_size_pos
                (Z.to_nat (len data)) offset (len data) l
                ltac:(lia) Hdata ltac:(lia) Hl) as Hsorted.
  assert (Forall (λ tr : Z * Z * Z, 0 <= tr.1.1) l) as Hnn.
  { eapply Forall_impl; [exact Hok|]. by intros tr (? & _). }
  destruct (decide (b ∈ (λ tr : Z * Z * Z, tr.1.1) <$> l)) as [Hin|Hout].
  - apply list_elem_of_fmap in Hin as (tr & -> & Hin).
    apply list_elem_of_lookup in Hin as [i Hi].
    rewrite (written_block_bytes data l 0 t i tr Hnn Hsorted Hi).
    rewrite Hc by done.
    destruct (blocks_loop_tile block_size block_size_pos
                (Z.to_nat (len data)) offset (len data) l
                ltac:(lia) Hl i tr Hi) as (Hpos & Hfirst & Hlater & Hfill & Hend).
    apply Forall_forall with (x := tr) in Hok as (_ & Hs & Hw & Hfit);
      [|by eapply list_elem_of_lookup_2].
    unfold position in Hpos.
    assert (0 <= consumed (take i l)
            ∧ consumed (take i l) + tr.2 <= len data
            ∧ ((S i = length l)%nat → consumed (take i l) + tr.2 = len data))
      as (Hd0 & Hd1 & Hd2).
    { assert (∀ l0 : list (Z * Z * Z),
                Forall (λ tr, 1 <= tr.2) l0 → 0 <= consumed l0) as Hnn'.
      { induction 1 as [|x l0 Hx _ IH]; [done|]. rewrite consumed_cons. lia. }
      assert (∀ l1 l2, consumed (l1 ++ l2) = consumed l1 + consumed l2)
        as Happ.
      { induction l1 as [|x l1 IH]; intros l2; [done|].
        cbn [app]. rewrite !consumed_cons, IH. lia. }
      assert (Forall (λ tr : Z * Z * Z, 1 <= tr.2) l) as Hall.
      { pose proof (blocks_loop_facts block_size block_size_pos
                      (Z.to_nat (len data)) offset (len data)
                      ltac:(lia) Hdata ltac:(lia))
          as (l' & Hl' & _ & Hok' & _).
        rewrite Hl in Hl'. injection Hl' as <-.
        eapply Forall_impl; [exact Hok'|]. by intros ? (_ & _ & ? & _). }
      pose proof (Hnn' (take i l) ltac:(by apply Forall_take)).
      pose proof (Hnn' (drop (S i) l) ltac:(by apply Forall_drop)).
      pose proof (take_drop_middle l i tr Hi) as Hsplit.
      apply (f_equal consumed) in Hsplit.
      rewrite Happ, consumed_cons, Hsum in Hsplit.
      split; [done|]. split; [lia|].
      intros Hlen. assert (drop (S i) l = []) as Hnil
        by (apply drop_ge; lia).
      rewrite Hnil in Hsplit. change (consumed []) with 0 in Hsplit. lia. }
    rewrite Z.add_0_l.
    apply spliced_overwrite; try done; try lia.
    + destruct i; [right; done|left; apply Hlater; lia].
    + apply lookup_lt_Some in Hi as Hlt.
      destruct (decide (S i < length l)%nat); [left; by apply Hfill|].
      right. apply Hd2. lia.
  - rewrite written_bytes_other; [|done|].
    2:{ apply Forall_forall. intros tr Hin. split.
        - by apply (proj1 (Forall_forall _ _) Hnn).
        - intros E. apply Hout. apply list_elem_of_fmap. by exists tr. }
    rewrite Hc by done.
    destruct (decide (len data = 0)) as [Hzero|Hpos].
    { apply len_nil_inv in Hzero as ->. by rewrite overwrite_nothing by lia. }
    symmetry. apply overwrite_outside; [done|nia|].
    replace ((b + 1) * block_size) with ((b + 1) * block_size) by done.
    apply (blocks_loop_cover (Z.to_nat (len data)) offset (len data) l b
             ltac:(lia) ltac:(lia) Hl).
    apply Forall_forall. intros tr Hin E. apply Hout.
    apply list_elem_of_fmap. by exists tr.
Qed.

Lemma after_padding_contiguous content data offset t :
  0 <= offset <= len content →
  holds_content block_size t key_prefix content →
  after_padding key_prefix block_size data offset t = t.
Proof.
  intros Ho Hc. unfold after_padding.
  destruct (offset =? lock_page_offset + len data); [|done].
  destruct (decide (offset / block_size - 1 <= lock_page_offset / block_size - 1))
    as [Hnone|Hsome].
  { by rewrite range_down_nil. }
  rewrite range_down_cons by lia. cbn [padded].
  assert (0 <= lock_page_offset / block_size)
    by (apply Z.div_pos; [done|lia]).
  rewrite Hc by lia. rewrite len_slice by nia.
  pose proof (Z.mod_pos_bound offset block_size ltac:(lia)).
  pose proof (Z_div_mod_eq_full offset block_size).
  by replace (_ =? block_size) with true by (symmetry; apply Z.eqb_eq; nia).
Qed.

Lemma xWrite_contiguous content data offset t :
  0 <= offset <= len content →
  holds_content block_size t key_prefix content →
  bounded block_size t key_prefix →
  ∃ t' evs,
    raises_on (xWrite key_prefix block_size data offset) t
      (ClientError "ValidationException") t' evs
    ∧ holds_content block_size t' key_prefix (overwrite content data offset)
    ∧ bounded block_size t' key_prefix.
Proof.
  intros Ho Hc Hb.
  destruct (xWrite_outcome key_prefix block_size block_size_pos data offset t
              ltac:(lia)
              (bounded_padding_fits block_size t key_prefix data offset
                 ltac:(lia) Hb))
    as (triples & dsize & pad_evs & write_evs & Hl & Hrun & _).
  cbn zeta in *.
  destruct (blocks_loop_facts block_size block_size_pos
              (Z.to_nat (len data)) offset (len data))
    as (triples' & Hl' & Hsum & Hok & _ & _);
    [lia|apply len_nonneg|done|].
  pose proof Hl as Hl2. unfold _blocks in Hl2. rewrite Hl2 in Hl'.
  injection Hl' as <-.
  rewrite (after_padding_contiguous content data offset t Ho Hc) in Hrun.
  eexists _, _. split; [exact Hrun|]. split.
  - intros b Hb0. by apply written_holds_content.
  - apply written_bounded; [done..|lia|lia|done].
Qed.

(** [xWrite(data, offset)] into a file laid out block by block, at an
    offset not beyond its end: the blocks it leaves are again laid out block
    by block and hold the old content with [data] written over it at
    [offset] (and extending it, where [data] runs past the old end).  The
    call raises once the blocks are stored, its size update being refused. *)
Theorem xWrite_overwrites_content (content data : bytes) (offset : Z)
    (s : state) :
  0 <= offset <= len content →
  holds_content block_size (st_table s) key_prefix content →
  bounded block_size (st_table s) key_prefix →
  ∃ t' evs,
    raises (xWrite key_prefix block_size data offset) s
      (ClientError "ValidationException") t' (st_attained s) evs
    ∧ holds_content block_size t' key_prefix (overwrite content data offset)
    ∧ bounded block_size t' key_prefix
    ∧ len (overwrite content data offset)
      = Z.max (len content) (offset + len data).
Proof.
  intros Ho Hc Hb.
  destruct (xWrite_contiguous content data offset (st_table s) Ho Hc Hb)
    as (t' & evs & Hrun & Hc' & Hb').
  exists t', evs. split; [by apply Hrun|]. split; [done|]. split; [done|].
  unfold overwrite. rewrite !len_app, len_slice_to, len_slice_from.
  - pose proof (len_nonneg data). lia.
  - pose proof (len_nonneg data). lia.
Qed.

(** Read after write, anywhere in the file: on a file laid out block by
    block, once [xWrite(data, offset)] at an offset not beyond the end has
    stored its blocks (it raises then, its size update being refused),
    [xRead(amount, position)] performed next returns the bytes
    [position : position + amount] of the content with [data] written over
    it. *)
Theorem xWrite_then_xRead_anywhere (content data : bytes)
    (offset amount position : Z) (s : state) :
  0 <= offset <= len content →
  0 <= amount → 0 <= position →
  holds_content block_size (st_table s) key_prefix content →
  bounded block_size (st_table s) key_prefix →
  ∃ t1 evs1,
    raises (xWrite key_prefix block_size data offset) s
      (ClientError "ValidationException") t1 (st_attained s) evs1
    ∧ ∀ s1, st_table s1 = t1 →
        ∃ evs,
          effect (xRead key_prefix block_size amount position) s1
            (slice position (position + amount)
               (overwrite content data offset))
            t1 evs.
Proof.
  intros Ho Ha Hp Hc Hb.
  destruct (xWrite_contiguous content data offset (st_table s) Ho Hc Hb)
    as (t' & evs & Hrun & Hc' & _).
  destruct (blocks_loop_facts block_size block_size_pos (Z.to_nat amount)
              position amount) as (triples & Hl & _); [done..|].
  exists t', evs. split; [by apply Hrun|].
  intros s1 Ht1. eexists.
  eapply effect_eq;
    [by apply (xRead_effect key_prefix block_size amount position triples)
    | |done|done].
  by apply (read_range_content key_prefix block_size block_size_pos _ _
              (Z.to_nat amount)).
Qed.

End WriteContent.

Lemma example_file_holds_content :
  let t := set_blocks "db"
             {[ Key.fmt10 0 := BlockItem [x01; x02] 2;
                Key.fmt10 1 := BlockItem [x03] 1 ]} empty_table in
  holds_content 2 t "db" [x01; x02; x03] ∧ bounded 2 t "db".
Proof.
  split.
  - intros b Hb. unfold block_bytes. rewrite blocks_of_set_blocks.
    destruct (decide (b = 0)) as [->|H0]; [reflexivity|].
    destruct (decide (b = 1)) as [->|H1]; [reflexivity|].
    rewrite lookup_insert_ne, lookup_singleton_ne;
      [|intros E; apply KeyFacts.fmt10_inj in E; lia..].
    symmetry. apply slice_beyond; unfold len; simpl; lia.
  - intros r item H. rewrite blocks_of_set_blocks in H.
    apply lookup_insert_Some in H as [[_ <-]|[_ H]]; [unfold len; simpl; lia|].
    apply lookup_singleton_Some in H as [_ <-]. unfold len; simpl; lia.
Qed.

Lemma xWrite_overwrites_content_witness :
  let s := State (set_blocks "db"
                    {[ Key.fmt10 0 := BlockItem [x01; x02] 2;
                       Key.fmt10 1 := BlockItem [x03] 1 ]} empty_table) 0 [] in
  ∃ t' evs,
    raises (xWrite "db" 2 [x0a; x0b; x0c] 1) s
      (ClientError "ValidationException") t' (st_attained s) evs
    ∧ holds_content 2 t' "db" (overwrite [x01; x02; x03] [x0a; x0b; x0c] 1)
    ∧ bounded 2 t' "db"
    ∧ len (overwrite [x01; x02; x03] [x0a; x0b; x0c] 1)
      = Z.max (len [x01; x02; x03]) (1 + len [x0a; x0b; x0c]).
Proof.
  apply (xWrite_overwrites_content "db" 2 ltac:(lia) [x01; x02; x03]
           [x0a; x0b; x0c] 1
           (State (set_blocks "db"
                     {[ Key.fmt10 0 := BlockItem [x01; x02] 2;
                        Key.fmt10 1 := BlockItem [x03] 1 ]} empty_table) 0 [])).
  - unfold len. simpl. lia.
  - apply example_file_holds_content.
  - apply example_file_holds_content.
Defined.

Lemma xWrite_then_xRead_anywhere_witness :
  let s := State (set_blocks "db"
                    {[ Key.fmt10 0 := BlockItem [x01; x02] 2;
                       Key.fmt10 1 := BlockItem [x03] 1 ]} empty_table) 0 [] in
  ∃ t1 evs1,
    raises (xWrite "db" 2 [x0a; x0b; x0c] 1) s
      (ClientError "ValidationException") t1 (st_attained s) evs1
    ∧ ∀ s1, st_table s1 = t1 →
        ∃ evs,
          effect (xRead "db" 2 4 0) s1
            (slice 0 (0 + 4) (overwrite [x01; x02; x03] [x0a; x0b; x0c] 1))
            t1 evs.
Proof.
  apply (xWrite_then_xRead_anywhere "db" 2 ltac:(lia) [x01; x02; x03]
           [x0a; x0b; x0c] 1 4 0
           (State (set_blocks "db"
                     {[ Key.fmt10 0 := BlockItem [x01; x02] 2;
                        Key.fmt10 1 := BlockItem [x03] 1 ]} empty_table) 0 [])).
  - unfold len. simpl. lia.
  - lia.
  - lia.
  - apply example_file_holds_content.
  - apply example_file_holds_content.
Defined.
